(** * Faith's phylogenetic diversity over CompactTree: a shallow embedding

    The development follows the C++ sources
      - [src/Stage_4/calculate_faiths_pd_optimized.cpp]
      - [src/Stage_4/benchmark_pd_calculation_only.cpp]
      - [src/Stage_4/benchmark_faiths_pd_compacttree.cpp]
      - [shipley_checks/src/Stage_4/faiths_pd_benchmark/benchmark_compacttree_1000_guilds.cpp]
      - [src/Stage_4/dump_tree_structure.cpp]

    Node ids ([CT_NODE_T], a 32-bit unsigned integer) are [N]; stored edge
    lengths ([CT_LENGTH_T], a single-precision float) are kept as their 32-bit
    IEEE 754 patterns and widened to the kernel's binary64 [float] exactly as
    the implicit C++ conversion does; the accumulator [total_pd] is a binary64
    [float] added with [PrimFloat.add].  A call either returns ([Done]), hits
    an out-of-range access or an error of a callee ([Fault]), or exhausts the
    iteration budget given to each [while] loop ([Timeout]). *)

From Stdlib Require Import ZArith NArith List String Ascii Lia Sorted.
From Stdlib Require Floats.
From stdpp Require Import base option list strings gmap sets.
Import PrimFloat.

Local Open Scope N_scope.

(** ** Results of calls *)

Inductive outcome (A : Type) : Type :=
| Done (a : A)
| Fault
| Timeout.
Arguments Done {A} a.
Arguments Fault {A}.
Arguments Timeout {A}.

Global Instance outcome_bind : MBind outcome := fun A B k m =>
  match m with
  | Done a => k a
  | Fault => Fault
  | Timeout => Timeout
  end.

Global Instance outcome_ret : MRet outcome := fun A a => Done a.

Definition of_option {A} (o : option A) : outcome A :=
  match o with
  | Some a => Done a
  | None => Fault
  end.

(** [v[i]] for a [std::vector] indexed by an unsigned integer: [None] outside
    [0 .. v.size()). *)
Definition vec_at {A} (v : list A) (i : N) : option A :=
  if i <? N.of_nat (length v) then v !! N.to_nat i else None.

(** [v[i] = x]. *)
Definition vec_set {A} (v : list A) (i : N) (x : A) : list A :=
  <[N.to_nat i := x]> v.

(** ** Single-precision edge lengths and their widening to double *)

Module F32.

(** The value denoted by a 32-bit IEEE 754 binary32 pattern: sign bit 31,
    biased exponent bits 30..23, fraction bits 22..0. *)
Definition decode (w : Z) : SpecFloat.spec_float :=
  let s := Z.testbit w 31 in
  let e := Z.land (Z.shiftr w 23) 255 in
  let m := Z.land w 8388607 in
  if (e =? 255)%Z then
    (if (m =? 0)%Z then SpecFloat.S754_infinity s else SpecFloat.S754_nan)
  else if (e =? 0)%Z then
    match m with
    | Zpos p => SpecFloat.S754_finite s p (-149)
    | _ => SpecFloat.S754_zero s
    end
  else
    match (m + 8388608)%Z with
    | Zpos p => SpecFloat.S754_finite s p (e - 150)
    | _ => SpecFloat.S754_nan
    end.

(** The implicit conversion [float -> double] of [total_pd += <float>]; every
    binary32 value is a binary64 value, so no rounding takes place. *)
Definition to_double (w : Z) : PrimFloat.float :=
  FloatOps.SF2Prim (decode w).

(** The value of a non-negative finite binary32 pattern in units of 2^-1074:
    [m * 2^-149] for a subnormal, [(2^23 + m) * 2^(e - 150)] otherwise. *)
Definition units (w : Z) : Z :=
  let e := Z.land (Z.shiftr w 23) 255 in
  let m := Z.land w 8388607 in
  (if e =? 0 then m * 2 ^ 925 else (m + 8388608) * 2 ^ (e + 924))%Z.

End F32.

(** ** The tree ([compact_tree.h] is not among the sources) *)

(** [CT_NODE_T], the unsigned 32-bit type of node ids. *)
Abbreviation CT_NODE_T := N (only parsing).

(** Modelled from the spec: [NULL_NODE], the "no parent" sentinel of the
    header [compact_tree.h]; dump_tree_structure.cpp line 10 and the
    interchange format give its value, [0xFFFFFFFF]. *)
Definition NULL_NODE : CT_NODE_T := 4294967295.

(** Modelled from the spec: a node of the tree store (spec section 3):
    parent id or sentinel, ordered children, label, stored edge length. *)
Record node : Type := {
  node_parent : CT_NODE_T;          (* [NULL_NODE] for the root *)
  node_children : list CT_NODE_T;   (* in topology order *)
  node_label : string;
  node_length : Z                   (* binary32 pattern of the edge length *)
}.

(** Modelled from the spec: [compact_tree] (spec sections 3 and 4.1), one
    node per dense zero-based id, and the leaf count. *)
Record compact_tree : Type := {
  ct_nodes : list node;
  ct_num_leaves : N
}.

(** Modelled from the spec: the accessors of [compact_tree] (spec section
    4.1): each fails with an out-of-range error outside [0 .. num_nodes). *)
Definition get_num_nodes (tree : compact_tree) : N :=
  N.of_nat (length (ct_nodes tree)).

Definition get_num_leaves (tree : compact_tree) : N := ct_num_leaves tree.

Definition get_parent (tree : compact_tree) (n : CT_NODE_T) : option CT_NODE_T :=
  node_parent <$> vec_at (ct_nodes tree) n.

Definition get_children (tree : compact_tree) (n : CT_NODE_T) : option (list CT_NODE_T) :=
  node_children <$> vec_at (ct_nodes tree) n.

Definition get_label (tree : compact_tree) (n : CT_NODE_T) : option string :=
  node_label <$> vec_at (ct_nodes tree) n.

Definition get_edge_length (tree : compact_tree) (n : CT_NODE_T) : option Z :=
  node_length <$> vec_at (ct_nodes tree) n.

Definition is_leaf (tree : compact_tree) (n : CT_NODE_T) : bool :=
  match get_children tree n with
  | Some [] => true
  | _ => false
  end.

(** The chain [n, parent n, parent (parent n), ...] up to the root, cut after
    [fuel] nodes. *)
Fixpoint ancestors (tree : compact_tree) (fuel : nat) (n : CT_NODE_T) : list CT_NODE_T :=
  match fuel with
  | O => []
  | S fuel' =>
    match get_parent tree n with
    | None => []
    | Some p => n :: ancestors tree fuel' p
    end
  end.

(** Modelled from the spec: the pairwise step of [find_mrca] (spec section
    4.2): record the ancestors of one side, walk the other side towards the
    root until a recorded ancestor is hit. *)
Definition pair_mrca (tree : compact_tree) (a b : CT_NODE_T) : option CT_NODE_T :=
  let budget := S (length (ct_nodes tree)) in
  let recorded := ancestors tree budget a in
  List.find (fun x => bool_decide (x ∈ recorded)) (ancestors tree budget b).

Fixpoint fold_mrca (tree : compact_tree) (current : CT_NODE_T) (rest : list CT_NODE_T)
  : option CT_NODE_T :=
  match rest with
  | [] => Some current
  | l :: rest' =>
    match pair_mrca tree current l with
    | Some c => fold_mrca tree c rest'
    | None => None
    end
  end.

(** Modelled from the spec: [compact_tree::find_mrca] (spec section 4.2), an
    iterative pairwise fold over the set; it fails (invalid argument) on the
    empty set and when an id is not a valid leaf. *)
Definition find_mrca (tree : compact_tree) (leaf_ids : gset CT_NODE_T) : option CT_NODE_T :=
  match elements leaf_ids with
  | [] => None
  | first :: rest =>
    if forallb (is_leaf tree) (first :: rest) then fold_mrca tree first rest else None
  end.

(** ** The per-leaf walk, one version per visited-marker structure *)

(** [while (current != mrca) { if (!visited[current]) { total_pd +=
    tree.get_edge_length(current); visited[current] = 1; } current =
    tree.get_parent(current); }] with [vector<uint8_t> visited]. *)
Fixpoint walk_uint8 (fuel : nat) (tree : compact_tree) (mrca current : CT_NODE_T)
    (visited : list Z) (total_pd : PrimFloat.float) : outcome (list Z * PrimFloat.float) :=
  if current =? mrca then Done (visited, total_pd) else
  match fuel with
  | O => Timeout
  | S fuel' =>
    v ← of_option (vec_at visited current);
    '(visited, total_pd) ←
      (if (v =? 0)%Z then
         e ← of_option (get_edge_length tree current);
         Done (vec_set visited current 1%Z, PrimFloat.add total_pd (F32.to_double e))
       else Done (visited, total_pd));
    p ← of_option (get_parent tree current);
    walk_uint8 fuel' tree mrca p visited total_pd
  end.

(** The same loop with [vector<bool> visited]. *)
Fixpoint walk_bool (fuel : nat) (tree : compact_tree) (mrca current : CT_NODE_T)
    (visited : list bool) (total_pd : PrimFloat.float) : outcome (list bool * PrimFloat.float) :=
  if current =? mrca then Done (visited, total_pd) else
  match fuel with
  | O => Timeout
  | S fuel' =>
    v ← of_option (vec_at visited current);
    '(visited, total_pd) ←
      (if negb v then
         e ← of_option (get_edge_length tree current);
         Done (vec_set visited current true, PrimFloat.add total_pd (F32.to_double e))
       else Done (visited, total_pd));
    p ← of_option (get_parent tree current);
    walk_bool fuel' tree mrca p visited total_pd
  end.

(** The same loop with [unordered_set<CT_NODE_T> visited]:
    [visited.find(current) == visited.end()] and [visited.insert(current)]. *)
Fixpoint walk_set (fuel : nat) (tree : compact_tree) (mrca current : CT_NODE_T)
    (visited : gset CT_NODE_T) (total_pd : PrimFloat.float)
  : outcome (gset CT_NODE_T * PrimFloat.float) :=
  if current =? mrca then Done (visited, total_pd) else
  match fuel with
  | O => Timeout
  | S fuel' =>
    '(visited, total_pd) ←
      (if bool_decide (current ∈ visited) then Done (visited, total_pd)
       else
         e ← of_option (get_edge_length tree current);
         Done ({[current]} ∪ visited, PrimFloat.add total_pd (F32.to_double e)));
    p ← of_option (get_parent tree current);
    walk_set fuel' tree mrca p visited total_pd
  end.

(** [for (CT_NODE_T leaf : leaf_nodes) { CT_NODE_T current = leaf; while ... }]
    over any of the three walks. *)
Fixpoint for_leaves {V} (walk : CT_NODE_T -> V -> PrimFloat.float -> outcome (V * PrimFloat.float))
    (leaf_nodes : list CT_NODE_T) (visited : V) (total_pd : PrimFloat.float)
  : outcome (V * PrimFloat.float) :=
  match leaf_nodes with
  | [] => Done (visited, total_pd)
  | leaf :: rest =>
    '(visited, total_pd) ← walk leaf visited total_pd;
    for_leaves walk rest visited total_pd
  end.

(** [for (CT_NODE_T i = 0; i < tree.get_num_nodes(); i++) { if
    (tree.is_leaf(i)) { string label = tree.get_label(i); ... } }], the scan
    of the leaves that every program uses to resolve labels; [body] is what
    the program does with a leaf and its label, [count] iterations remain. *)
Fixpoint leaves_loop {St} (tree : compact_tree) (body : CT_NODE_T -> string -> St -> St)
    (count : nat) (i : CT_NODE_T) (st : St) : outcome St :=
  match count with
  | O => Done st
  | S count' =>
    if is_leaf tree i then
      label ← of_option (get_label tree i);
      leaves_loop tree body count' (i + 1) (body i label st)
    else leaves_loop tree body count' (i + 1) st
  end.

(** ** Calls into the C++ standard library *)

(** [std::find(first, last, value) - first]: the position of the first
    element equal to [value], the length of the range when there is none. *)
Fixpoint std_find (range : list string) (value : string) : nat :=
  match range with
  | [] => 0
  | x :: rest => if String.eqb x value then 0 else S (std_find rest value)
  end.

(** The characters [std::getline(in, str, delim)] stores in [str], and what
    is left in the stream: it reads up to the first [delim], which it
    consumes and does not store, or to the end of the input. *)
Fixpoint read_line (delim : ascii) (input : string) : string * string :=
  match input with
  | EmptyString => (EmptyString, EmptyString)
  | String c rest =>
    if Ascii.eqb c delim then (EmptyString, rest)
    else let '(str, rest') := read_line delim rest in (String c str, rest')
  end.

(** [std::getline(in, str, delim)] as a condition: the call fails, [None],
    exactly when no character is left in the stream. *)
Definition getline (input : string) (delim : ascii) : option (string * string) :=
  match input with
  | EmptyString => None
  | String _ _ => Some (read_line delim input)
  end.

(** [s.substr(0, pos)]. *)
Fixpoint substr_to (s : string) (pos : nat) : string :=
  match pos, s with
  | S pos', String c rest => String c (substr_to rest pos')
  | _, _ => EmptyString
  end.

(** [s.substr(pos)], for [pos <= s.size()]. *)
Fixpoint substr_from (s : string) (pos : nat) : string :=
  match pos, s with
  | S pos', String _ rest => substr_from rest pos'
  | _, _ => s
  end.

(** [s.find(pattern)]: the first position at which [pattern] occurs in [s],
    [None] for [string::npos]. *)
Fixpoint string_find (pattern s : string) : option nat :=
  if String.prefix pattern s then Some O else
  match s with
  | EmptyString => None
  | String _ rest => S <$> string_find pattern rest
  end.

(** [unordered_set<CT_NODE_T> leaf_set(leaf_nodes.begin(), leaf_nodes.end())]. *)
Definition leaf_set_of (leaf_nodes : list CT_NODE_T) : gset CT_NODE_T :=
  list_to_set leaf_nodes.

(** [vector<T> visited(num_nodes, zero)]. *)
Definition fresh_visited {T} (tree : compact_tree) (zero : T) : list T :=
  replicate (length (ct_nodes tree)) zero.

(** ** calculate_faiths_pd_optimized.cpp *)

Definition calculate_faiths_pd_optimized (fuel : nat) (tree : compact_tree)
    (leaf_nodes : list CT_NODE_T) : outcome PrimFloat.float :=
  if (length leaf_nodes =? 0)%nat then Done PrimFloat.zero else
  if (length leaf_nodes =? 1)%nat then Done PrimFloat.zero else
  mrca ← of_option (find_mrca tree (leaf_set_of leaf_nodes));
  let visited := fresh_visited tree 0%Z in
  let total_pd := PrimFloat.zero in
  '(_, total_pd) ← for_leaves (walk_uint8 fuel tree mrca) leaf_nodes visited total_pd;
  Done total_pd.

(** The loop [for (const auto& leaf_nodes : guilds)] of
    [calculate_faiths_pd_batch]; [visited] is the one buffer shared by all
    guilds, [results] the vector being filled. *)
Fixpoint batch_loop (fuel : nat) (tree : compact_tree) (guilds : list (list CT_NODE_T))
    (visited : list Z) (results : list PrimFloat.float) : outcome (list PrimFloat.float) :=
  match guilds with
  | [] => Done results
  | leaf_nodes :: rest =>
    if (length leaf_nodes <? 2)%nat then
      batch_loop fuel tree rest visited (results ++ [PrimFloat.zero])
    else
      mrca ← of_option (find_mrca tree (leaf_set_of leaf_nodes));
      let visited := map (fun _ => 0%Z) visited in   (* fill(begin, end, 0) *)
      let total_pd := PrimFloat.zero in
      '(visited, total_pd) ← for_leaves (walk_uint8 fuel tree mrca) leaf_nodes visited total_pd;
      batch_loop fuel tree rest visited (results ++ [total_pd])
  end.

Definition calculate_faiths_pd_batch (fuel : nat) (tree : compact_tree)
    (guilds : list (list CT_NODE_T)) : outcome (list PrimFloat.float) :=
  batch_loop fuel tree guilds (fresh_visited tree 0%Z) [].

(** [find_leaf_nodes]: the ids of the leaves whose label is one of
    [species_labels], looked up in a hash set of the labels. *)
Definition find_leaf_nodes (tree : compact_tree) (species_labels : list string)
  : outcome (list CT_NODE_T) :=
  let leaf_nodes := [] in
  let label_set : gset string := list_to_set species_labels in
  leaves_loop tree
    (fun i label leaf_nodes =>
       if bool_decide (label ∈ label_set) then leaf_nodes ++ [i] else leaf_nodes)
    (N.to_nat (get_num_nodes tree)) 0 leaf_nodes.

(** [main]: its return value and the values it sends to [cout].  [load] is
    the constructor [compact_tree tree(argv[1], ...)], which is not among the
    sources; the timing report on [cerr] is left out. *)
Definition main (fuel : nat) (load : string -> outcome compact_tree) (argv : list string)
  : outcome (Z * list PrimFloat.float) :=
  if (length argv <? 3)%nat then Done (1%Z, []) else
  tree ← load (default EmptyString (argv !! 1%nat));
  let species_labels := drop 2 argv in
  leaf_nodes ← find_leaf_nodes tree species_labels;
  if (length leaf_nodes <? 2)%nat then Done (1%Z, []) else
  faiths_pd ← calculate_faiths_pd_optimized fuel tree leaf_nodes;
  Done (0%Z, [faiths_pd]).

(** ** benchmark_pd_calculation_only.cpp *)

Module CalcOnly.

(** ORIGINAL: [unordered_set] for visited. *)
Definition calculate_faiths_pd_original (fuel : nat) (tree : compact_tree)
    (leaf_nodes : list CT_NODE_T) : outcome PrimFloat.float :=
  if (length leaf_nodes <? 2)%nat then Done PrimFloat.zero else
  mrca ← of_option (find_mrca tree (leaf_set_of leaf_nodes));
  let visited : gset CT_NODE_T := ∅ in
  let total_pd := PrimFloat.zero in
  '(_, total_pd) ← for_leaves (walk_set fuel tree mrca) leaf_nodes visited total_pd;
  Done total_pd.

(** OPTIMIZED: [vector<bool>] for visited. *)
Definition calculate_faiths_pd_vectorbool (fuel : nat) (tree : compact_tree)
    (leaf_nodes : list CT_NODE_T) : outcome PrimFloat.float :=
  if (length leaf_nodes <? 2)%nat then Done PrimFloat.zero else
  mrca ← of_option (find_mrca tree (leaf_set_of leaf_nodes));
  let visited := fresh_visited tree false in
  let total_pd := PrimFloat.zero in
  '(_, total_pd) ← for_leaves (walk_bool fuel tree mrca) leaf_nodes visited total_pd;
  Done total_pd.

(** ALTERNATIVE: [vector<uint8_t>] instead of [vector<bool>]. *)
Definition calculate_faiths_pd_vectoruint8 (fuel : nat) (tree : compact_tree)
    (leaf_nodes : list CT_NODE_T) : outcome PrimFloat.float :=
  if (length leaf_nodes <? 2)%nat then Done PrimFloat.zero else
  mrca ← of_option (find_mrca tree (leaf_set_of leaf_nodes));
  let visited := fresh_visited tree 0%Z in
  let total_pd := PrimFloat.zero in
  '(_, total_pd) ← for_leaves (walk_uint8 fuel tree mrca) leaf_nodes visited total_pd;
  Done total_pd.

(** The inner loop of [main]: [for (const auto& sp : species_labels) { if
    (label == sp) { leaf_nodes.push_back(i); break; } }]. *)
Fixpoint match_species (species_labels : list string) (i : CT_NODE_T) (label : string)
    (leaf_nodes : list CT_NODE_T) : list CT_NODE_T :=
  match species_labels with
  | [] => leaf_nodes
  | sp :: rest =>
    if String.eqb label sp then leaf_nodes ++ [i]
    else match_species rest i label leaf_nodes
  end.

(** The leaf lookup of [main] (lines 113-124). *)
Definition main_leaf_nodes (tree : compact_tree) (species_labels : list string)
  : outcome (list CT_NODE_T) :=
  let leaf_nodes := [] in
  leaves_loop tree (match_species species_labels) (N.to_nat (get_num_nodes tree)) 0 leaf_nodes.

End CalcOnly.

(** ** benchmark_faiths_pd_compacttree.cpp *)

Module Bench.

Definition calculate_faiths_pd (fuel : nat) (tree : compact_tree)
    (leaf_nodes : list CT_NODE_T) : outcome PrimFloat.float :=
  if (length leaf_nodes =? 0)%nat then Done PrimFloat.zero else
  if (length leaf_nodes =? 1)%nat then Done PrimFloat.zero else
  mrca ← of_option (find_mrca tree (leaf_set_of leaf_nodes));
  let visited_nodes : gset CT_NODE_T := ∅ in
  let total_pd := PrimFloat.zero in
  '(_, total_pd) ← for_leaves (walk_set fuel tree mrca) leaf_nodes visited_nodes total_pd;
  Done total_pd.

(** [find_leaf_nodes], with a linear [std::find] over the labels. *)
Definition find_leaf_nodes (tree : compact_tree) (species_labels : list string)
  : outcome (list CT_NODE_T) :=
  let leaf_nodes := [] in
  leaves_loop tree
    (fun i label leaf_nodes =>
       if negb (std_find species_labels label =? length species_labels)%nat
       then leaf_nodes ++ [i] else leaf_nodes)
    (N.to_nat (get_num_nodes tree)) 0 leaf_nodes.

(** One [getline(ss, field, ',')] into a string that was declared empty: the
    field read, which stays empty when the call fails, and the rest of [ss]. *)
Definition csv_field (ss : string) : string * string :=
  match getline ss "," with
  | Some (field, ss') => (field, ss')
  | None => (EmptyString, ss)
  end.

(** The loop [while (getline(file, line))] of [load_mapping]; [file] is what
    is left of the input, and one unit of [fuel] is spent per line. *)
Fixpoint mapping_loop (fuel : nat) (file : string) (wfo_to_tip : gmap string string)
  : outcome (gmap string string) :=
  match getline file "010" with
  | None => Done wfo_to_tip
  | Some (line, file) =>
    match fuel with
    | O => Timeout
    | S fuel' =>
      let ss := line in
      let '(wfo_id, ss) := csv_field ss in
      let '(wfo_scientific_name, ss) := csv_field ss in
      let '(is_infraspecific, ss) := csv_field ss in
      let '(parent_binomial, ss) := csv_field ss in
      let '(parent_label, ss) := csv_field ss in
      let '(tree_tip, ss) := csv_field ss in
      let wfo_to_tip :=
        if negb (String.eqb tree_tip EmptyString) then <[wfo_id := tree_tip]> wfo_to_tip
        else wfo_to_tip in
      mapping_loop fuel' file wfo_to_tip
    end
  end.

(** [load_mapping]; [file] is the content of the file at [mapping_path] (a
    file that cannot be opened reads as an empty one). *)
Definition load_mapping (fuel : nat) (file : string) : outcome (gmap string string) :=
  let wfo_to_tip : gmap string string := ∅ in
  (* Skip header *)
  let file := match getline file "010" with Some (_, file') => file' | None => file end in
  mapping_loop fuel file wfo_to_tip.

End Bench.

(** ** benchmark_compacttree_1000_guilds.cpp *)

Module Guilds1000.

Definition calculate_faiths_pd_optimized (fuel : nat) (tree : compact_tree)
    (leaf_nodes : list CT_NODE_T) : outcome PrimFloat.float :=
  if (length leaf_nodes <? 2)%nat then Done PrimFloat.zero else
  mrca ← of_option (find_mrca tree (leaf_set_of leaf_nodes));
  let visited := fresh_visited tree 0%Z in
  let total_pd := PrimFloat.zero in
  '(_, total_pd) ← for_leaves (walk_uint8 fuel tree mrca) leaf_nodes visited total_pd;
  Done total_pd.

(** [main], "Build tip label lookup": [label_to_node[tree.get_label(i)] = i]
    for every leaf [i], in ascending order. *)
Definition label_to_node (tree : compact_tree) : outcome (gmap string CT_NODE_T) :=
  let label_to_node : gmap string CT_NODE_T := ∅ in
  leaves_loop tree (fun i label label_to_node => <[label := i]> label_to_node)
    (N.to_nat (get_num_nodes tree)) 0 label_to_node.

(** [if (label_to_node.find(species) != label_to_node.end())
    leaf_nodes.push_back(label_to_node[species])]. *)
Definition push_known (label_to_node : gmap string CT_NODE_T) (species : string)
    (leaf_nodes : list CT_NODE_T) : list CT_NODE_T :=
  match label_to_node !! species with
  | Some n => leaf_nodes ++ [n]
  | None => leaf_nodes
  end.

(** [while ((pos = remaining.find(";;")) != string::npos) { ... }]: the leaf
    list and what is left of the string when the loop ends. *)
Fixpoint species_loop (fuel : nat) (label_to_node : gmap string CT_NODE_T)
    (remaining : string) (leaf_nodes : list CT_NODE_T)
  : outcome (list CT_NODE_T * string) :=
  match string_find ";;" remaining with
  | None => Done (leaf_nodes, remaining)
  | Some pos =>
    match fuel with
    | O => Timeout
    | S fuel' =>
      let species := substr_to remaining pos in
      let leaf_nodes := push_known label_to_node species leaf_nodes in
      let remaining := substr_from remaining (pos + 2) in
      species_loop fuel' label_to_node remaining leaf_nodes
    end
  end.

(** [main], "Parse species list (delimiter: ;;)": the leaf list of one guild
    line. *)
Definition parse_species (fuel : nat) (label_to_node : gmap string CT_NODE_T)
    (species_str : string) : outcome (list CT_NODE_T) :=
  let leaf_nodes := [] in
  '(leaf_nodes, remaining) ← species_loop fuel label_to_node species_str leaf_nodes;
  Done (if negb (String.eqb remaining EmptyString)
        then push_known label_to_node remaining leaf_nodes
        else leaf_nodes).

End Guilds1000.

(** ** dump_tree_structure.cpp *)

Module Dump.

(** The order in which the host stores the bytes of a scalar object. *)
Inductive byte_order : Type := LittleEndian | BigEndian.

(** The four bytes of a 32-bit pattern, least significant first. *)
Definition low_to_high (v : Z) : list Z :=
  [(v mod 256)%Z; (v / 256 mod 256)%Z; (v / 65536 mod 256)%Z; (v / 16777216 mod 256)%Z].

(** [reinterpret_cast<const char*>(&value)], [sizeof] = 4: the object
    representation, bytes at increasing addresses. *)
Definition object_bytes (host : byte_order) (v : Z) : list Z :=
  match host with
  | LittleEndian => low_to_high v
  | BigEndian => rev (low_to_high v)
  end.

(** Conversion of an unsigned integer to [uint32_t]. *)
Definition to_uint32 (v : Z) : Z := (v mod 4294967296)%Z.

(** The bytes written to the [ofstream] so far. *)
Abbreviation ofstream := (list Z) (only parsing).

Definition write_u32 (host : byte_order) (out : ofstream) (value : Z) : ofstream :=
  out ++ object_bytes host (to_uint32 value).

(** [value] is the binary32 pattern of the [float]. *)
Definition write_f32 (host : byte_order) (out : ofstream) (value : Z) : ofstream :=
  out ++ object_bytes host value.

Definition string_bytes (str : string) : list Z :=
  map (fun c => Z.of_N (N_of_ascii c)) (list_ascii_of_string str).

Definition write_string (host : byte_order) (out : ofstream) (str : string) : ofstream :=
  let len := to_uint32 (Z.of_nat (String.length str)) in
  let out := write_u32 host out len in
  out ++ take (Z.to_nat len) (string_bytes str).

(** The body of [for (uint32_t i = 0; i < num_nodes; i++)]. *)
Definition write_node (host : byte_order) (tree : compact_tree) (out : ofstream) (i : N)
  : outcome ofstream :=
  parent ← of_option (get_parent tree i);
  let out := write_u32 host out (Z.of_N parent) in
  children ← of_option (get_children tree i);
  let out := write_u32 host out (Z.of_nat (length children)) in
  let out := foldl (fun out child => write_u32 host out (Z.of_N child)) out children in
  label ← of_option (get_label tree i);
  let out := write_string host out label in
  edge_length ← of_option (get_edge_length tree i);
  Done (write_f32 host out edge_length).

(** The loop itself: [count] iterations remain, [i] is the loop variable. *)
Fixpoint node_loop (host : byte_order) (tree : compact_tree) (count : nat) (i : N)
    (out : ofstream) : outcome ofstream :=
  match count with
  | O => Done out
  | S count' =>
    out ← write_node host tree out i;
    node_loop host tree count' (i + 1) out
  end.

(** [main] from the header on: the bytes of the output file. *)
Definition main (host : byte_order) (tree : compact_tree) : outcome ofstream :=
  let num_nodes := to_uint32 (Z.of_N (get_num_nodes tree)) in
  let num_leaves := to_uint32 (Z.of_N (get_num_leaves tree)) in
  let out := [] in
  let out := write_u32 host out num_nodes in
  let out := write_u32 host out num_leaves in
  node_loop host tree (Z.to_nat num_nodes) 0 out.

(** The number of bytes of the record of a node: four 32-bit fields, the
    child indices and the label. *)
Definition record_size (nd : node) : nat :=
  16 + 4 * length (node_children nd) + String.length (node_label nd).

(** The bytes [write_node] appends for a node whose fields fit. *)
Definition record_bytes (host : Dump.byte_order) (nd : node) : list Z :=
  Dump.object_bytes host (Z.of_N (node_parent nd)) ++
  Dump.object_bytes host (Z.of_nat (length (node_children nd))) ++
  concat (map (fun c => Dump.object_bytes host (Z.of_N c)) (node_children nd)) ++
  Dump.object_bytes host (Z.of_nat (String.length (node_label nd))) ++
  Dump.string_bytes (node_label nd) ++
  Dump.object_bytes host (node_length nd).

End Dump.

(** ** The interchange layout, following the words of the specification *)

Module Layout.

(** A [u32] field, little-endian; a value outside 32 bits has no encoding. *)
Definition u32 (v : Z) : option (list Z) :=
  if ((0 <=? v) && (v <? 4294967296))%Z then
    Some [Z.land v 255; Z.land (Z.shiftr v 8) 255;
          Z.land (Z.shiftr v 16) 255; Z.land (Z.shiftr v 24) 255]
  else None.

(** An [f32] field: the binary32 pattern, little-endian. *)
Definition f32 (bits : Z) : option (list Z) := u32 bits.

(** [parent(node) -> node | none]. *)
Definition parent_of (nd : node) : option CT_NODE_T :=
  if node_parent nd =? NULL_NODE then None else Some (node_parent nd).

(** [u32 parent_index (sentinel 0xFFFFFFFF = no parent / root)]. *)
Definition parent_index (nd : node) : Z :=
  match parent_of nd with
  | None => 4294967295
  | Some p => Z.of_N p
  end.

Definition label_bytes (nd : node) : list Z :=
  map (fun c => Z.of_N (N_of_ascii c)) (list_ascii_of_string (node_label nd)).

(** One record: parent index, child count, child indices, label length,
    label bytes, edge length. *)
Definition record (nd : node) : option (list Z) :=
  p ← u32 (parent_index nd);
  nc ← u32 (Z.of_nat (length (node_children nd)));
  cs ← mapM (fun c => u32 (Z.of_N c)) (node_children nd);
  ll ← u32 (Z.of_nat (length (label_bytes nd)));
  e ← f32 (node_length nd);
  Some (p ++ nc ++ concat cs ++ ll ++ label_bytes nd ++ e).

(** Header, then one record per node in node-id order. *)
Definition encode (tree : compact_tree) : option (list Z) :=
  n ← u32 (Z.of_nat (length (ct_nodes tree)));
  l ← u32 (Z.of_N (ct_num_leaves tree));
  rs ← mapM record (ct_nodes tree);
  Some (n ++ l ++ concat rs).

End Layout.

(** ** Paths, counted nodes and sums: the vocabulary of the statements *)

(** [chain tree mrca c l]: following parents from [c] reaches [mrca], and [l]
    lists the nodes met strictly below [mrca], [c] first. *)
Inductive chain (tree : compact_tree) (mrca : CT_NODE_T) : CT_NODE_T -> list CT_NODE_T -> Prop :=
| chain_here : chain tree mrca mrca []
| chain_step c p l :
    c ≠ mrca -> get_parent tree c = Some p -> chain tree mrca p l ->
    chain tree mrca c (c :: l).

(** The same path, computed with a budget of [fuel] parent steps. *)
Fixpoint path_to (fuel : nat) (tree : compact_tree) (mrca current : CT_NODE_T)
  : outcome (list CT_NODE_T) :=
  if current =? mrca then Done [] else
  match fuel with
  | O => Timeout
  | S fuel' =>
    p ← of_option (get_parent tree current);
    l ← path_to fuel' tree mrca p;
    Done (current :: l)
  end.

(** [a] is an ancestor of, or equal to, [c]. *)
Definition reaches (tree : compact_tree) (a c : CT_NODE_T) : bool :=
  match path_to (length (ct_nodes tree)) tree a c with
  | Done _ => true
  | _ => false
  end.

Definition common_ancestor (tree : compact_tree) (a : CT_NODE_T) (l : list CT_NODE_T) : bool :=
  forallb (reaches tree a) l.

Definition node_ids (tree : compact_tree) : list CT_NODE_T :=
  map N.of_nat (seq 0 (length (ct_nodes tree))).

(** [a] is a most recent common ancestor of [l]: a common ancestor no proper
    descendant of which is one. *)
Definition is_mrca (tree : compact_tree) (a : CT_NODE_T) (l : list CT_NODE_T) : bool :=
  common_ancestor tree a l &&
  forallb (fun b => negb (negb (b =? a) && reaches tree a b && common_ancestor tree b l))
          (node_ids tree).

(** The edge length of a node as a double. *)
Definition edge_value (tree : compact_tree) (n : CT_NODE_T) : PrimFloat.float :=
  match get_edge_length tree n with
  | Some e => F32.to_double e
  | None => PrimFloat.zero
  end.

(** Nodes in the order of their first visit. *)
Definition first_visit (counted : list CT_NODE_T) (n : CT_NODE_T) : list CT_NODE_T :=
  if bool_decide (n ∈ counted) then counted else counted ++ [n].

Definition first_visits (counted : list CT_NODE_T) (l : list CT_NODE_T) : list CT_NODE_T :=
  foldl first_visit counted l.

(** A list without its repeated entries, first occurrences kept. *)
Definition dedup_first (l : list CT_NODE_T) : list CT_NODE_T := first_visits [] l.

(** The running total after adding the edge lengths of [l] to [acc], in
    double precision and from left to right. *)
Definition edge_sum (tree : compact_tree) (acc : PrimFloat.float) (l : list CT_NODE_T)
  : PrimFloat.float :=
  foldl (fun acc n => PrimFloat.add acc (edge_value tree n)) acc l.

(** The body of the walk at one node, on the byte-array marker. *)
Definition absorb (tree : compact_tree) (st : list Z * PrimFloat.float) (n : CT_NODE_T)
  : list Z * PrimFloat.float :=
  match vec_at st.1 n with
  | Some v =>
    if (v =? 0)%Z then (vec_set st.1 n 1%Z, PrimFloat.add st.2 (edge_value tree n)) else st
  | None => st
  end.

(** The marker array in which exactly the nodes of [counted] are set. *)
Definition marks_exactly (tree : compact_tree) (visited : list Z) (counted : list CT_NODE_T)
  : Prop :=
  length visited = length (ct_nodes tree) /\
  forall i, (N.to_nat i < length (ct_nodes tree))%nat ->
    vec_at visited i = Some (if bool_decide (i ∈ counted) then 1%Z else 0%Z).

(** What [calculate_faiths_pd_optimized] computes, read off the paths: the
    left-to-right double sum of the edge lengths of the nodes on the leaves'
    paths to the MRCA, in the order of their first visit. *)
Definition pd_of_paths (fuel : nat) (tree : compact_tree) (leaf_nodes : list CT_NODE_T)
  : outcome PrimFloat.float :=
  if (length leaf_nodes <? 2)%nat then Done PrimFloat.zero else
  mrca ← of_option (find_mrca tree (leaf_set_of leaf_nodes));
  ls ← mapM (path_to fuel tree mrca) leaf_nodes;
  Done (edge_sum tree PrimFloat.zero (first_visits [] (concat ls))).

(** Order on doubles: IEEE 754 [<=]. *)
Definition fle (a b : PrimFloat.float) : Prop := PrimFloat.leb a b = true.

(** Every stored edge length is a non-negative number (spec section 3). *)
Definition nonneg_edges (tree : compact_tree) : Prop :=
  Forall (fun nd => fle PrimFloat.zero (F32.to_double (node_length nd))) (ct_nodes tree).

(** ** Trees used in the examples *)

Module Scenario.

(** The tree of the specification's concrete scenario: root R, children A
    (edge 2.0) and B (leaf, edge 3.0); A's children are the leaves X and Y
    (edge 1.0 each).  Ids follow a pre-order numbering. *)
Definition R : CT_NODE_T := 0.
Definition A : CT_NODE_T := 1.
Definition X : CT_NODE_T := 2.
Definition Y : CT_NODE_T := 3.
Definition B : CT_NODE_T := 4.

Definition f32_1 : Z := 1065353216.   (* 0x3F800000 = 1.0f *)
Definition f32_2 : Z := 1073741824.   (* 0x40000000 = 2.0f *)
Definition f32_3 : Z := 1077936128.   (* 0x40400000 = 3.0f *)

Definition tree : compact_tree := {|
  ct_nodes := [
    {| node_parent := NULL_NODE; node_children := [A; B]; node_label := "R"; node_length := 0 |};
    {| node_parent := R; node_children := [X; Y]; node_label := "A"; node_length := f32_2 |};
    {| node_parent := A; node_children := []; node_label := "X"; node_length := f32_1 |};
    {| node_parent := A; node_children := []; node_label := "Y"; node_length := f32_1 |};
    {| node_parent := R; node_children := []; node_label := "B"; node_length := f32_3 |} ];
  ct_num_leaves := 3
|}.

End Scenario.

Module Rounding.

(** A root with three leaf children whose edge lengths are 2^53, 1 and 1. *)
Definition f32_2p53 : Z := 1509949440.   (* 0x5A000000 = 9007199254740992.0f *)

Definition tree : compact_tree := {|
  ct_nodes := [
    {| node_parent := NULL_NODE; node_children := [1; 2; 3]; node_label := "R"; node_length := 0 |};
    {| node_parent := 0; node_children := []; node_label := "X"; node_length := f32_2p53 |};
    {| node_parent := 0; node_children := []; node_label := "Y"; node_length := Scenario.f32_1 |};
    {| node_parent := 0; node_children := []; node_label := "Z"; node_length := Scenario.f32_1 |} ];
  ct_num_leaves := 3
|}.

End Rounding.

(** ** Relating the three marker structures *)

(** A byte of the [vector<uint8_t>] read as a condition. *)
Definition as_bool (v : Z) : bool := negb (v =? 0)%Z.

Definition as_bools (visited : list Z) : list bool := fmap (M := list) as_bool visited.

(** The byte array and the hash set mark the same nodes. *)
Definition same_marks (tree : compact_tree) (visited : list Z) (seen : gset CT_NODE_T) : Prop :=
  length visited = length (ct_nodes tree) /\
  forall i v, vec_at visited i = Some v -> (as_bool v = true <-> i ∈ seen).

(** Two runs end alike: both return, with related markers and the same
    total, or both fail in the same way. *)
Definition alike {V W} (R : V -> W -> Prop)
    (o1 : outcome (V * float)) (o2 : outcome (W * float)) : Prop :=
  match o1, o2 with
  | Done (v, t1), Done (w, t2) => R v w /\ t1 = t2
  | Fault, Fault => True
  | Timeout, Timeout => True
  | _, _ => False
  end.

(** ** Trees whose fields fit the 32-bit types of the program *)

Definition u32_range (v : Z) : Prop := (0 <= v < 4294967296)%Z.

Definition node_fits (nd : node) : Prop :=
  u32_range (Z.of_N (node_parent nd)) /\
  u32_range (Z.of_nat (length (node_children nd))) /\
  Forall (fun c => u32_range (Z.of_N c)) (node_children nd) /\
  u32_range (Z.of_nat (String.length (node_label nd))) /\
  u32_range (node_length nd).

(** [CT_NODE_T] ids and counts are 32-bit, edge lengths are binary32
    patterns, labels are shorter than 2^32 bytes. *)
Definition tree_fits (tree : compact_tree) : Prop :=
  u32_range (Z.of_nat (length (ct_nodes tree))) /\
  u32_range (Z.of_N (ct_num_leaves tree)) /\
  Forall node_fits (ct_nodes tree).

(** ** Binary64 arithmetic on integers

    A non-negative double is an integer multiple of 2^-1074; the definitions
    below describe IEEE 754 addition (round to nearest, ties to even, overflow
    to +infinity) on these integers. *)

Module Binary64.

Local Open Scope Z_scope.

(** Number of binary digits of a positive integer. *)
Definition digits (n : Z) : Z := Z.log2 n + 1.

(** Bits dropped when [n] (in units of 2^-1074) is rounded to 53 bits. *)
Definition shift_of (n : Z) : Z := Z.max (digits n - 53) 0.

Definition round_up (q r k : Z) : Z :=
  if 2 * r <? 2 ^ k then 0
  else if 2 ^ k <? 2 * r then 1
  else if Z.even q then 0 else 1.

(** Round to nearest, ties to even, on integers counted in units of 2^-1074. *)
Definition round_even (n : Z) : Z :=
  let k := shift_of n in
  (n / 2 ^ k + round_up (n / 2 ^ k) (n mod 2 ^ k) k) * 2 ^ k.

Definition INF : Z := 2 ^ 2100.
Definition OVERFLOW : Z := 2 ^ 2098.

Definition clamp (v : Z) : Z := if v <? OVERFLOW then v else INF.

(** The value of a non-negative double in units of 2^-1074, [INF] for
    +infinity, [-1] for what is negative or not a number. *)
Definition scaled (x : SpecFloat.spec_float) : Z :=
  match x with
  | SpecFloat.S754_zero _ => 0
  | SpecFloat.S754_finite false m e => Zpos m * 2 ^ (e + 1074)
  | SpecFloat.S754_infinity false => INF
  | _ => -1
  end.

Definition add_scaled (u v : Z) : Z :=
  if (INF <=? u) || (INF <=? v) then INF else clamp (round_even (u + v)).

(** The record after [j] one-bit shifts of [m0]. *)
Definition shifted (m0 : Z) (j : nat) : SpecFloat.shr_record :=
  SpecFloat.Build_shr_record (m0 / 2 ^ Z.of_nat j)
    (match j with O => false | S j' => Z.odd (m0 / 2 ^ Z.of_nat j') end)
    (match j with O => false | S j' => negb (m0 mod 2 ^ Z.of_nat j' =? 0) end).

(** The scaled value of a double of the kernel. *)
Definition val (a : float) : Z := scaled (FloatOps.Prim2SF a).

End Binary64.

(** [find_mrca] meets its guarantee on [l] (spec section 4.2): on two or
    more leaves it returns a most recent common ancestor of them. *)
Definition mrca_found (tree : compact_tree) (l : list CT_NODE_T) : Prop :=
  (2 <= length l)%nat ->
  exists mrca, find_mrca tree (leaf_set_of l) = Some mrca /\ is_mrca tree mrca l = true.

Module Monotone.

(** Pre-order ids: root 0; leaf a = 1 (edge 1.0); internal n = 2 (edge 2^53)
    with the leaves x = 3 (edge 0.0) and b = 4 (edge 1.0). *)
Definition tree : compact_tree := {|
  ct_nodes := [
    {| node_parent := NULL_NODE; node_children := [1; 2]; node_label := "R"; node_length := 0 |};
    {| node_parent := 0; node_children := []; node_label := "a"; node_length := Scenario.f32_1 |};
    {| node_parent := 0; node_children := [3; 4]; node_label := "n";
       node_length := Rounding.f32_2p53 |};
    {| node_parent := 2; node_children := []; node_label := "x"; node_length := 0 |};
    {| node_parent := 2; node_children := []; node_label := "b"; node_length := Scenario.f32_1 |} ];
  ct_num_leaves := 3
|}.

End Monotone.

(** ** Sums without rounding *)

(** The sum of the edge lengths of [l] as an integer, in units of 2^-1074. *)
Definition exact_sum (tree : compact_tree) (l : list N) : Z :=
  foldr (fun n s => (Binary64.val (edge_value tree n) + s)%Z) 0%Z l.

(** No addition of edge lengths of the tree can round: the edge lengths are
    non-negative multiples of [2^k] units, and all of them together stay below
    [2^(k+53)] units, within the range of finite doubles. *)
Definition no_rounding (tree : compact_tree) (k : Z) : Prop :=
  (0 <= k <= 2045)%Z /\
  Forall (fun nd =>
            (0 <= Binary64.val (F32.to_double (node_length nd)))%Z /\
            (Binary64.val (F32.to_double (node_length nd)) mod 2 ^ k = 0)%Z)
         (ct_nodes tree) /\
  (exact_sum tree (node_ids tree) < 2 ^ (k + 53))%Z.

(** A double that is non-negative and not the negative zero. *)
Definition nonneg_double (a : PrimFloat.float) : Prop :=
  (0 <= Binary64.val a)%Z /\ FloatOps.Prim2SF a <> SpecFloat.S754_zero true.

(** ** Vocabulary of the further properties *)

(** The label of a leaf, [None] for what is not a leaf of the tree. *)
Definition leaf_label (tree : compact_tree) (i : CT_NODE_T) : option string :=
  if is_leaf tree i then get_label tree i else None.

(** Leaf [i] of the tree carries one of the [labels]. *)
Definition carries (tree : compact_tree) (labels : list string) (i : CT_NODE_T) : Prop :=
  is_leaf tree i = true /\ exists label, get_label tree i = Some label /\ label ∈ labels.

(** Every stored edge length is a finite, non-negative [float]: its pattern
    lies between that of [+0.0f] and that of [FLT_MAX]. *)
Definition finite_edges (tree : compact_tree) : Prop :=
  Forall (fun nd => (0 <= node_length nd < 2139095040)%Z) (ct_nodes tree).

(** The character [c] occurs in [s]. *)
Fixpoint has_char (c : ascii) (s : string) : bool :=
  match s with
  | EmptyString => false
  | String c' rest => Ascii.eqb c' c || has_char c rest
  end.

(** How often the character [c] occurs in [s]. *)
Fixpoint count_char (c : ascii) (s : string) : nat :=
  match s with
  | EmptyString => 0
  | String c' rest => (if Ascii.eqb c' c then 1 else 0) + count_char c rest
  end.

(** The line feed that ends a line. *)
Definition LF : ascii := "010".

(** A field of a row: no comma and no line feed in it. *)
Definition plain (field : string) : Prop :=
  has_char "," field = false /\ has_char LF field = false.

(** What one line does to the table: the body of the loop of [load_mapping]. *)
Definition add_row (line : string) (wfo_to_tip : gmap string string) : gmap string string :=
  let '(wfo_id, ss) := Bench.csv_field line in
  let '(_, ss) := Bench.csv_field ss in
  let '(_, ss) := Bench.csv_field ss in
  let '(_, ss) := Bench.csv_field ss in
  let '(_, ss) := Bench.csv_field ss in
  let '(tree_tip, _) := Bench.csv_field ss in
  if negb (String.eqb tree_tip EmptyString) then <[wfo_id := tree_tip]> wfo_to_tip
  else wfo_to_tip.

(** A text made of complete lines, each ended by a line feed. *)
Inductive terminated : string -> Prop :=
| terminated_nil : terminated EmptyString
| terminated_line line rest :
    has_char LF line = false -> terminated rest ->
    terminated (line +:+ String LF rest).

(** Leaf [i] of the tree has the label [label]. *)
Definition labelled (tree : compact_tree) (label : string) (i : CT_NODE_T) : Prop :=
  is_leaf tree i = true /\ get_label tree i = Some label.

(** The guild line that lists [names], separated by [;;]. *)
Fixpoint guild_line (names : list string) : string :=
  match names with
  | [] => EmptyString
  | [name] => name
  | name :: rest => name +:+ ";;" +:+ guild_line rest
  end.

(** A species name as the guild file has them: not empty, no [;] in it. *)
Definition species_name (name : string) : Prop :=
  name <> EmptyString /\ has_char ";" name = false.

(** * Proofs *)

(** ** Vectors *)

Lemma vec_at_lookup {A} (v : list A) (i : N) : vec_at v i = v !! N.to_nat i.
Proof.
  unfold vec_at. destruct (N.ltb_spec i (N.of_nat (length v))) as [Hlt|Hge]; [done|].
  symmetry. apply lookup_ge_None. lia.
Qed.

Lemma vec_at_is_Some {A} (v : list A) (i : N) :
  is_Some (vec_at v i) <-> (N.to_nat i < length v)%nat.
Proof. rewrite vec_at_lookup. apply lookup_lt_is_Some. Qed.

Lemma vec_at_None {A} (v : list A) (i : N) :
  vec_at v i = None <-> (length v <= N.to_nat i)%nat.
Proof. rewrite vec_at_lookup. apply lookup_ge_None. Qed.

Lemma length_vec_set {A} (v : list A) (i : N) (x : A) : length (vec_set v i x) = length v.
Proof. apply length_insert. Qed.

Lemma vec_at_vec_set_eq {A} (v : list A) (i : N) (x : A) :
  is_Some (vec_at v i) -> vec_at (vec_set v i x) i = Some x.
Proof.
  rewrite vec_at_is_Some. intros Hlt. rewrite vec_at_lookup.
  unfold vec_set. by apply list_lookup_insert_eq.
Qed.

Lemma vec_at_vec_set_ne {A} (v : list A) (i j : N) (x : A) :
  i ≠ j -> vec_at (vec_set v i x) j = vec_at v j.
Proof.
  intros Hne. rewrite !vec_at_lookup. unfold vec_set.
  apply list_lookup_insert_ne. lia.
Qed.

(** ** Accessors *)

Lemma get_parent_is_Some tree n :
  is_Some (get_parent tree n) <-> (N.to_nat n < length (ct_nodes tree))%nat.
Proof. unfold get_parent. rewrite fmap_is_Some. apply vec_at_is_Some. Qed.

Lemma get_edge_length_is_Some tree n :
  is_Some (get_edge_length tree n) <-> (N.to_nat n < length (ct_nodes tree))%nat.
Proof. unfold get_edge_length. rewrite fmap_is_Some. apply vec_at_is_Some. Qed.

Lemma edge_value_Some tree n e :
  get_edge_length tree n = Some e -> edge_value tree n = F32.to_double e.
Proof. unfold edge_value. by intros ->. Qed.

(** ** The walk is a fold of [absorb] over the path *)

Lemma absorb_length tree st n : length (absorb tree st n).1 = length st.1.
Proof.
  unfold absorb. destruct (vec_at st.1 n) as [v|]; [|done].
  destruct (v =? 0)%Z; [|done]. simpl. apply length_vec_set.
Qed.

Lemma foldl_absorb_length tree l st : length (foldl (absorb tree) st l).1 = length st.1.
Proof.
  revert st. induction l as [|n l IH]; intros st; [done|].
  simpl. rewrite IH. apply absorb_length.
Qed.

Lemma walk_uint8_path fuel tree mrca c visited total_pd :
  length visited = length (ct_nodes tree) ->
  walk_uint8 fuel tree mrca c visited total_pd =
  (l ← path_to fuel tree mrca c; Done (foldl (absorb tree) (visited, total_pd) l)).
Proof.
  revert c visited total_pd.
  induction fuel as [|fuel IH]; intros c visited total_pd Hlen; simpl;
    destruct (c =? mrca); try done.
  destruct (vec_at visited c) as [v|] eqn:Hv; simpl.
  - assert (Hin : (N.to_nat c < length (ct_nodes tree))%nat).
    { rewrite <- Hlen. apply vec_at_is_Some. by rewrite Hv. }
    destruct (proj2 (get_parent_is_Some tree c) Hin) as [p Hp].
    destruct (proj2 (get_edge_length_is_Some tree c) Hin) as [e He].
    rewrite He, Hp. simpl.
    destruct (v =? 0)%Z eqn:Hz; simpl.
    + rewrite IH by (by rewrite length_vec_set).
      destruct (path_to fuel tree mrca p) as [l| |]; simpl; try done.
      do 2 f_equal. unfold absorb. simpl. rewrite Hv, Hz.
      by rewrite (edge_value_Some _ _ _ He).
    + rewrite IH by done.
      destruct (path_to fuel tree mrca p) as [l| |]; simpl; try done.
      do 2 f_equal. unfold absorb. simpl. by rewrite Hv, Hz.
  - assert (Hp : get_parent tree c = None).
    { apply eq_None_not_Some. rewrite get_parent_is_Some.
      apply vec_at_None in Hv. lia. }
    by rewrite Hp.
Qed.

Lemma for_leaves_paths fuel tree mrca leaves visited total_pd :
  length visited = length (ct_nodes tree) ->
  for_leaves (walk_uint8 fuel tree mrca) leaves visited total_pd =
  (ls ← mapM (path_to fuel tree mrca) leaves;
   Done (foldl (absorb tree) (visited, total_pd) (concat ls))).
Proof.
  revert visited total_pd.
  induction leaves as [|leaf leaves IH]; intros visited total_pd Hlen; simpl; [done|].
  rewrite walk_uint8_path by done.
  destruct (path_to fuel tree mrca leaf) as [l| |]; simpl; try done.
  destruct (foldl (absorb tree) (visited, total_pd) l) as [visited' total'] eqn:Hst.
  rewrite IH.
  - destruct (mapM (path_to fuel tree mrca) leaves) as [ls| |]; simpl; try done.
    by rewrite foldl_app, Hst.
  - change visited' with (visited', total').1. rewrite <- Hst.
    by rewrite foldl_absorb_length.
Qed.

(** ** Paths and chains *)

Lemma path_to_chain fuel tree mrca c l :
  path_to fuel tree mrca c = Done l -> chain tree mrca c l /\ (length l <= fuel)%nat.
Proof.
  revert c l. induction fuel as [|fuel IH]; intros c l; simpl;
    destruct (N.eqb_spec c mrca) as [->|Hne]; try done.
  - intros [= <-]. split; [constructor | simpl; lia].
  - intros [= <-]. split; [constructor | simpl; lia].
  - destruct (get_parent tree c) as [p|] eqn:Hp; simpl; [|done].
    destruct (path_to fuel tree mrca p) as [l'| |] eqn:Hl; simpl; try done.
    intros [= <-]. destruct (IH _ _ Hl) as [Hc Hlen].
    split; [by econstructor | simpl; lia].
Qed.

Lemma chain_path_to tree mrca c l fuel :
  chain tree mrca c l -> (length l <= fuel)%nat -> path_to fuel tree mrca c = Done l.
Proof.
  intros Hc. revert fuel. induction Hc as [|c p l Hne Hp Hc IH]; intros fuel Hlen.
  - destruct fuel; simpl; by rewrite N.eqb_refl.
  - destruct fuel as [|fuel]; simpl in Hlen; [lia|]. simpl.
    destruct (N.eqb_spec c mrca) as [?|_]; [done|].
    rewrite Hp. simpl. rewrite IH by lia. done.
Qed.

Lemma chain_unique tree mrca c l1 l2 :
  chain tree mrca c l1 -> chain tree mrca c l2 -> l1 = l2.
Proof.
  intros H1. revert l2. induction H1 as [|c p l Hne Hp Hc IH]; intros l2 H2.
  - inversion H2; congruence.
  - inversion H2 as [|c' p' l' Hne' Hp' Hc']; subst; [done|].
    assert (p' = p) by congruence. subst. f_equal. by apply IH.
Qed.

Lemma chain_in_range tree mrca c l n :
  chain tree mrca c l -> n ∈ l -> (N.to_nat n < length (ct_nodes tree))%nat.
Proof.
  induction 1 as [|c p l Hne Hp Hc IH]; intros Hin.
  - by apply elem_of_nil in Hin.
  - apply elem_of_cons in Hin as [->|Hin]; [|by apply IH].
    apply get_parent_is_Some. by rewrite Hp.
Qed.

Lemma path_to_mono fuel fuel' tree mrca c l :
  path_to fuel tree mrca c = Done l -> (fuel <= fuel')%nat ->
  path_to fuel' tree mrca c = Done l.
Proof.
  intros H Hle. apply path_to_chain in H as [Hc Hlen].
  apply chain_path_to; [done | lia].
Qed.

(** ** Sequencing over lists *)

Lemma mapM_Done_Forall2 {A B} (f : A -> outcome B) l ls :
  mapM f l = Done ls <-> Forall2 (fun x y => f x = Done y) l ls.
Proof.
  revert ls. induction l as [|x l IH]; intros ls; simpl.
  - split; [intros [= <-]; constructor | by inversion 1].
  - split.
    + destruct (f x) as [y| |] eqn:Hy; simpl; try done.
      destruct (mapM f l) as [ys| |] eqn:Hys; simpl; try done.
      intros [= <-]. constructor; [done | by apply IH].
    + inversion 1 as [|? y ? ys Hy Hys]; subst. rewrite Hy. simpl.
      apply IH in Hys. rewrite Hys. done.
Qed.

Lemma mapM_outcome_app {A B} (f : A -> outcome B) l1 l2 :
  mapM f (l1 ++ l2) = (ys1 ← mapM f l1; ys2 ← mapM f l2; Done (ys1 ++ ys2)).
Proof.
  induction l1 as [|x l1 IH]; simpl.
  - by destruct (mapM f l2).
  - destruct (f x) as [y| |]; simpl; try done. rewrite IH.
    destruct (mapM f l1) as [ys1| |]; simpl; try done.
    by destruct (mapM f l2).
Qed.

(** ** Markers and counted nodes *)

Lemma first_visit_elem counted n x :
  x ∈ first_visit counted n <-> x ∈ counted \/ x = n.
Proof.
  unfold first_visit. case_bool_decide as Hin.
  - split; [by left | intros [?| ->]; done].
  - rewrite elem_of_app, list_elem_of_singleton. done.
Qed.

Lemma first_visit_NoDup counted n : NoDup counted -> NoDup (first_visit counted n).
Proof.
  intros Hnd. unfold first_visit. case_bool_decide as Hin; [done|].
  apply NoDup_app. split; [done|]. split; [|apply NoDup_singleton].
  intros x Hx ->%list_elem_of_singleton. done.
Qed.

Lemma first_visits_elem l counted x :
  x ∈ first_visits counted l <-> x ∈ counted \/ x ∈ l.
Proof.
  revert counted. unfold first_visits.
  induction l as [|n l IH]; intros counted; simpl.
  - rewrite elem_of_nil. tauto.
  - rewrite IH, first_visit_elem, elem_of_cons. tauto.
Qed.

Lemma first_visits_NoDup l counted : NoDup counted -> NoDup (first_visits counted l).
Proof.
  revert counted. unfold first_visits.
  induction l as [|n l IH]; intros counted Hnd; simpl; [done|].
  by apply IH, first_visit_NoDup.
Qed.

Lemma first_visits_app counted l1 l2 :
  first_visits counted (l1 ++ l2) = first_visits (first_visits counted l1) l2.
Proof. unfold first_visits. apply foldl_app. Qed.

Lemma edge_sum_snoc tree acc l n :
  edge_sum tree acc (l ++ [n]) = PrimFloat.add (edge_sum tree acc l) (edge_value tree n).
Proof. unfold edge_sum. by rewrite foldl_app. Qed.

Lemma marks_exactly_fresh tree : marks_exactly tree (fresh_visited tree 0%Z) [].
Proof.
  unfold fresh_visited. split; [apply length_replicate|].
  intros i Hi. rewrite vec_at_lookup.
  rewrite bool_decide_eq_false_2 by apply not_elem_of_nil.
  by apply lookup_replicate_2.
Qed.

Lemma absorb_marks tree visited counted n :
  marks_exactly tree visited counted ->
  (N.to_nat n < length (ct_nodes tree))%nat ->
  exists visited',
    absorb tree (visited, edge_sum tree PrimFloat.zero counted) n =
      (visited', edge_sum tree PrimFloat.zero (first_visit counted n)) /\
    marks_exactly tree visited' (first_visit counted n).
Proof.
  intros [Hlen Hm] Hn. unfold absorb, first_visit. simpl. rewrite (Hm n Hn).
  destruct (decide (n ∈ counted)) as [Hin|Hin];
    [rewrite !bool_decide_eq_true_2 by done | rewrite !bool_decide_eq_false_2 by done];
    simpl.
  - exists visited. by split.
  - exists (vec_set visited n 1%Z). split; [by rewrite edge_sum_snoc|].
    split; [by rewrite length_vec_set|].
    intros i Hi. destruct (decide (i = n)) as [->|Hne].
    + rewrite vec_at_vec_set_eq by (apply vec_at_is_Some; lia).
      rewrite bool_decide_eq_true_2; [done|]. apply elem_of_app. right.
      by apply list_elem_of_singleton.
    + rewrite vec_at_vec_set_ne by done. rewrite (Hm i Hi).
      f_equal. rewrite (bool_decide_ext (i ∈ counted ++ [n]) (i ∈ counted)); [done|].
      rewrite elem_of_app, list_elem_of_singleton. intuition.
Qed.

Lemma foldl_absorb_marks tree l visited counted :
  marks_exactly tree visited counted ->
  Forall (fun n => (N.to_nat n < length (ct_nodes tree))%nat) l ->
  exists visited',
    foldl (absorb tree) (visited, edge_sum tree PrimFloat.zero counted) l =
      (visited', edge_sum tree PrimFloat.zero (first_visits counted l)) /\
    marks_exactly tree visited' (first_visits counted l).
Proof.
  revert visited counted.
  induction l as [|n l IH]; intros visited counted Hm Hl; simpl.
  - by exists visited.
  - inversion Hl as [|? ? Hn Hl']; subst.
    destruct (absorb_marks _ _ _ n Hm Hn) as (visited1 & -> & Hm1).
    by apply IH.
Qed.

Lemma paths_in_range fuel tree mrca leaves ls :
  mapM (path_to fuel tree mrca) leaves = Done ls ->
  Forall (fun n => (N.to_nat n < length (ct_nodes tree))%nat) (concat ls).
Proof.
  rewrite mapM_Done_Forall2. induction 1 as [|leaf l leaves ls Hl _ IH]; simpl.
  - constructor.
  - apply Forall_app. split; [|done].
    apply path_to_chain in Hl as [Hc _]. apply Forall_forall.
    intros n Hn. by eapply chain_in_range.
Qed.

(** The byte-array walk from a fresh marker computes [pd_of_paths]. *)
Lemma for_leaves_fresh fuel tree mrca leaves :
  (st ← for_leaves (walk_uint8 fuel tree mrca) leaves (fresh_visited tree 0%Z) PrimFloat.zero;
   Done st.2) =
  (ls ← mapM (path_to fuel tree mrca) leaves;
   Done (edge_sum tree PrimFloat.zero (first_visits [] (concat ls)))).
Proof.
  rewrite for_leaves_paths by apply length_replicate.
  destruct (mapM (path_to fuel tree mrca) leaves) as [ls| |] eqn:Hls; simpl; try done.
  destruct (foldl_absorb_marks tree (concat ls) _ [] (marks_exactly_fresh tree)
              (paths_in_range _ _ _ _ _ Hls)) as (visited' & Heq & _).
  simpl in Heq. unfold edge_sum at 1 in Heq. simpl in Heq. by rewrite Heq.
Qed.

Lemma pd_optimized_paths fuel tree leaf_nodes :
  calculate_faiths_pd_optimized fuel tree leaf_nodes = pd_of_paths fuel tree leaf_nodes.
Proof.
  unfold calculate_faiths_pd_optimized, pd_of_paths.
  destruct (Nat.ltb_spec (length leaf_nodes) 2) as [Hlt|Hge].
  - by destruct leaf_nodes as [|a [|b l]]; simpl in *; try lia.
  - destruct (Nat.eqb_spec (length leaf_nodes) 0) as [?|_]; [lia|].
    destruct (Nat.eqb_spec (length leaf_nodes) 1) as [?|_]; [lia|].
    destruct (find_mrca tree (leaf_set_of leaf_nodes)) as [mrca|]; simpl; [|done].
    rewrite <- for_leaves_fresh.
    destruct (for_leaves _ _ _ _) as [[v t]| |]; done.
Qed.

(** ** The batch loop *)

Lemma fill_zero tree (visited : list Z) :
  length visited = length (ct_nodes tree) ->
  map (fun _ => 0%Z) visited = fresh_visited tree 0%Z.
Proof.
  unfold fresh_visited. intros <-.
  induction visited as [|v visited IH]; simpl; [done | by f_equal].
Qed.

Lemma for_leaves_length fuel tree mrca leaves visited total_pd visited' total' :
  length visited = length (ct_nodes tree) ->
  for_leaves (walk_uint8 fuel tree mrca) leaves visited total_pd = Done (visited', total') ->
  length visited' = length (ct_nodes tree).
Proof.
  intros Hlen. rewrite for_leaves_paths by done.
  destruct (mapM (path_to fuel tree mrca) leaves) as [ls| |]; simpl; try done.
  intros [= Heq]. rewrite <- Hlen.
  change visited' with (visited', total').1. rewrite <- Heq.
  apply foldl_absorb_length.
Qed.

Lemma pd_optimized_small fuel tree leaf_nodes :
  (length leaf_nodes < 2)%nat ->
  calculate_faiths_pd_optimized fuel tree leaf_nodes = Done PrimFloat.zero.
Proof.
  intros Hlt. unfold calculate_faiths_pd_optimized.
  by destruct leaf_nodes as [|a [|b l]]; simpl in *; try lia.
Qed.

Lemma pd_optimized_large fuel tree leaf_nodes :
  (2 <= length leaf_nodes)%nat ->
  calculate_faiths_pd_optimized fuel tree leaf_nodes =
  (mrca ← of_option (find_mrca tree (leaf_set_of leaf_nodes));
   st ← for_leaves (walk_uint8 fuel tree mrca) leaf_nodes (fresh_visited tree 0%Z)
          PrimFloat.zero;
   Done st.2).
Proof.
  intros Hge. unfold calculate_faiths_pd_optimized.
  destruct (Nat.eqb_spec (length leaf_nodes) 0) as [?|_]; [lia|].
  destruct (Nat.eqb_spec (length leaf_nodes) 1) as [?|_]; [lia|].
  destruct (find_mrca tree (leaf_set_of leaf_nodes)) as [mrca|]; simpl; [|done].
  destruct (for_leaves _ _ _ _) as [[v t]| |]; done.
Qed.

(** Whatever the shared buffer holds on entry, the loop produces the results
    of the single-guild function, guild by guild. *)
Lemma batch_loop_mapM fuel tree guilds visited results :
  length visited = length (ct_nodes tree) ->
  batch_loop fuel tree guilds visited results =
  (rs ← mapM (calculate_faiths_pd_optimized fuel tree) guilds; Done (results ++ rs)).
Proof.
  revert visited results.
  induction guilds as [|g guilds IH]; intros visited results Hlen; simpl.
  - by rewrite app_nil_r.
  - destruct (Nat.ltb_spec (length g) 2) as [Hlt|Hge].
    + rewrite pd_optimized_small by done. simpl. rewrite IH by done.
      destruct (mapM _ guilds) as [rs| |]; simpl; try done.
      by rewrite <- app_assoc.
    + rewrite pd_optimized_large by done.
      destruct (find_mrca tree (leaf_set_of g)) as [mrca|]; simpl; [|done].
      rewrite (fill_zero tree) by done.
      destruct (for_leaves _ g _ _) as [[visited' total']| |] eqn:Hfor; simpl; try done.
      rewrite IH.
      * destruct (mapM _ guilds) as [rs| |]; simpl; try done.
        by rewrite <- app_assoc.
      * eapply for_leaves_length; [|exact Hfor]. apply length_replicate.
Qed.

Lemma batch_mapM fuel tree guilds :
  calculate_faiths_pd_batch fuel tree guilds =
  mapM (calculate_faiths_pd_optimized fuel tree) guilds.
Proof.
  unfold calculate_faiths_pd_batch.
  rewrite batch_loop_mapM by apply length_replicate.
  by destruct (mapM _ guilds).
Qed.

Lemma mapM_Done_lookup {A B} (f : A -> outcome B) l ys i x :
  mapM f l = Done ys -> l !! i = Some x -> exists y, ys !! i = Some y /\ f x = Done y.
Proof.
  rewrite mapM_Done_Forall2. intros HF Hx.
  destruct (Forall2_lookup_l _ _ _ _ _ HF Hx) as (y & Hy & Hxy). eauto.
Qed.

(** C3. The i-th result of the batch function is the result of the
    single-guild function on the i-th guild, whatever the other guilds are:
    the batch is the left-to-right sequence of the single-guild calls, so it
    returns exactly when all of them do, and the reuse of the marker buffer
    leaves no trace. *)
Theorem batch_consistency (fuel : nat) (tree : compact_tree)
    (guilds : list (list CT_NODE_T)) :
  calculate_faiths_pd_batch fuel tree guilds =
    mapM (calculate_faiths_pd_optimized fuel tree) guilds /\
  forall results, calculate_faiths_pd_batch fuel tree guilds = Done results ->
    length results = length guilds /\
    forall i guild, guilds !! i = Some guild ->
      exists r, results !! i = Some r /\
                calculate_faiths_pd_optimized fuel tree guild = Done r.
Proof.
  split; [apply batch_mapM|].
  intros results. rewrite batch_mapM. intros Hres. split.
  - apply mapM_Done_Forall2 in Hres. symmetry. by eapply Forall2_length.
  - intros i guild Hi. by eapply mapM_Done_lookup.
Qed.

Lemma batch_consistency_witness :
  calculate_faiths_pd_batch 5 Scenario.tree
      [[Scenario.X; Scenario.Y]; [Scenario.X]; [Scenario.X; Scenario.B]] =
    Done [2%float; 0%float; 6%float] /\
  calculate_faiths_pd_optimized 5 Scenario.tree [Scenario.X; Scenario.B] = Done 6%float.
Proof.
  destruct (batch_consistency 5 Scenario.tree
              [[Scenario.X; Scenario.Y]; [Scenario.X]; [Scenario.X; Scenario.B]])
    as [_ Hidx].
  assert (Hrun : calculate_faiths_pd_batch 5 Scenario.tree
      [[Scenario.X; Scenario.Y]; [Scenario.X]; [Scenario.X; Scenario.B]] =
      Done [2%float; 0%float; 6%float]) by (vm_compute; reflexivity).
  split; [exact Hrun|].
  destruct (Hidx _ Hrun) as [_ Hi].
  destruct (Hi 2%nat [Scenario.X; Scenario.B] eq_refl) as (r & Hr & Hpd).
  simpl in Hr. injection Hr as <-. exact Hpd.
Defined.

(** C4. On a guild with fewer than two leaves the single-guild function
    returns exactly 0.0, on every tree and with no iteration budget at all (it
    reads nothing of the tree); the batch function records 0.0 for such a
    guild, wherever it stands, and evaluates the guilds before and after it
    as usual. *)
Theorem insufficient_taxa (fuel : nat) (tree : compact_tree) (guild : list CT_NODE_T)
    (before after : list (list CT_NODE_T)) :
  (length guild < 2)%nat ->
  calculate_faiths_pd_optimized fuel tree guild = Done PrimFloat.zero /\
  calculate_faiths_pd_optimized 0 {| ct_nodes := []; ct_num_leaves := 0 |} guild =
    Done PrimFloat.zero /\
  calculate_faiths_pd_batch fuel tree (before ++ guild :: after) =
    (rs1 ← mapM (calculate_faiths_pd_optimized fuel tree) before;
     rs2 ← mapM (calculate_faiths_pd_optimized fuel tree) after;
     Done (rs1 ++ PrimFloat.zero :: rs2)).
Proof.
  intros Hlt. split; [by apply pd_optimized_small|].
  split; [by apply pd_optimized_small|].
  rewrite batch_mapM, mapM_outcome_app. simpl.
  rewrite pd_optimized_small by done. simpl.
  destruct (mapM _ before) as [rs1| |]; simpl; try done.
  by destruct (mapM _ after).
Qed.

Lemma insufficient_taxa_witness :
  calculate_faiths_pd_optimized 0 Scenario.tree [Scenario.X] = Done 0%float /\
  calculate_faiths_pd_batch 5 Scenario.tree
      ([[Scenario.X; Scenario.Y]] ++ [Scenario.X] :: [[Scenario.X; Scenario.B]]) =
    Done [2%float; 0%float; 6%float].
Proof.
  destruct (insufficient_taxa 0 Scenario.tree [Scenario.X] [] []) as (H1 & _ & _);
    [simpl; lia|].
  destruct (insufficient_taxa 5 Scenario.tree [Scenario.X]
              [[Scenario.X; Scenario.Y]] [[Scenario.X; Scenario.B]]) as (_ & _ & H3);
    [simpl; lia|].
  split; [exact H1|]. rewrite H3. vm_compute. reflexivity.
Defined.

(** ** The marker structure does not matter *)

Lemma vec_at_fmap {A B} (f : A -> B) (v : list A) (i : N) :
  vec_at (f <$> v) i = f <$> vec_at v i.
Proof. rewrite !vec_at_lookup. apply list_lookup_fmap. Qed.

Lemma vec_set_fmap {A B} (f : A -> B) (v : list A) (i : N) (x : A) :
  vec_set (f <$> v) i (f x) = f <$> vec_set v i x.
Proof. unfold vec_set. symmetry. apply list_fmap_insert. Qed.

Lemma vec_at_as_bools (v : list Z) (i : N) : vec_at (as_bools v) i = as_bool <$> vec_at v i.
Proof. apply vec_at_fmap. Qed.

Lemma vec_set_as_bools (v : list Z) (i : N) :
  vec_set (as_bools v) i true = as_bools (vec_set v i 1%Z).
Proof. apply (vec_set_fmap as_bool v i 1%Z). Qed.

Lemma walk_bool_uint8 fuel tree mrca c (visited : list Z) (total_pd : float) :
  walk_bool fuel tree mrca c (as_bools visited) total_pd =
  (st ← walk_uint8 fuel tree mrca c visited total_pd; Done (as_bools st.1, st.2)).
Proof.
  revert c visited total_pd.
  induction fuel as [|fuel IH]; intros c visited total_pd; simpl;
    destruct (c =? mrca); try done.
  rewrite vec_at_as_bools.
  destruct (vec_at visited c) as [v|]; simpl; [|done].
  unfold as_bool at 1. rewrite negb_involutive.
  destruct (v =? 0)%Z; simpl.
  - destruct (get_edge_length tree c) as [e|]; simpl; [|done].
    destruct (get_parent tree c) as [p|]; simpl; [|done].
    rewrite vec_set_as_bools. apply IH.
  - destruct (get_parent tree c) as [p|]; simpl; [|done]. apply IH.
Qed.

Lemma for_leaves_bool_uint8 fuel tree mrca leaves (visited : list Z) (total_pd : float) :
  for_leaves (walk_bool fuel tree mrca) leaves (as_bools visited) total_pd =
  (st ← for_leaves (walk_uint8 fuel tree mrca) leaves visited total_pd;
   Done (as_bools st.1, st.2)).
Proof.
  revert visited total_pd.
  induction leaves as [|leaf leaves IH]; intros visited total_pd; simpl; [done|].
  rewrite walk_bool_uint8.
  destruct (walk_uint8 fuel tree mrca leaf visited total_pd) as [[v t]| |]; simpl;
    [apply IH | done | done].
Qed.

Lemma same_marks_fresh tree : same_marks tree (fresh_visited tree 0%Z) ∅.
Proof.
  split; [apply length_replicate|].
  intros i v. rewrite vec_at_lookup. unfold fresh_visited.
  intros [-> _]%lookup_replicate. split; [done | intros []%not_elem_of_empty].
Qed.

Lemma same_marks_insert tree visited seen c :
  same_marks tree visited seen ->
  same_marks tree (vec_set visited c 1%Z) ({[c]} ∪ seen).
Proof.
  intros [Hlen Hm]. split; [by rewrite length_vec_set|].
  intros i v. destruct (decide (c = i)) as [->|Hne].
  - intros Hv. assert (is_Some (vec_at visited i)) as Hs.
    { apply vec_at_is_Some. rewrite <- (length_vec_set visited i 1%Z).
      apply vec_at_is_Some. by rewrite Hv. }
    rewrite vec_at_vec_set_eq in Hv by done. injection Hv as <-.
    split; [intros _ | done]. apply elem_of_union. left. by apply elem_of_singleton.
  - rewrite vec_at_vec_set_ne by done. intros Hv.
    rewrite (Hm i v Hv), elem_of_union, elem_of_singleton.
    split; [by right | intros [?|?]; [congruence | done]].
Qed.

Lemma walk_set_uint8 fuel tree mrca c visited seen total_pd :
  same_marks tree visited seen ->
  alike (same_marks tree)
    (walk_uint8 fuel tree mrca c visited total_pd)
    (walk_set fuel tree mrca c seen total_pd).
Proof.
  revert c visited seen total_pd.
  induction fuel as [|fuel IH]; intros c visited seen total_pd Hm; simpl;
    destruct (c =? mrca); try done.
  destruct (vec_at visited c) as [v|] eqn:Hv; simpl.
  - assert (Hin : (N.to_nat c < length (ct_nodes tree))%nat).
    { destruct Hm as [<- _]. apply vec_at_is_Some. by rewrite Hv. }
    destruct (proj2 (get_parent_is_Some tree c) Hin) as [p Hp].
    destruct (proj2 (get_edge_length_is_Some tree c) Hin) as [e He].
    pose proof (proj2 Hm c v Hv) as Hcv. unfold as_bool in Hcv.
    destruct (v =? 0)%Z; simpl in *.
    + rewrite bool_decide_eq_false_2 by (intros Hc; by apply Hcv in Hc).
      rewrite He, Hp. simpl. apply IH. by apply same_marks_insert.
    + rewrite bool_decide_eq_true_2 by (by apply Hcv).
      rewrite Hp. simpl. by apply IH.
  - assert (Hout : (length (ct_nodes tree) <= N.to_nat c)%nat).
    { destruct Hm as [<- _]. by apply vec_at_None. }
    assert (Hp : get_parent tree c = None).
    { apply eq_None_not_Some. rewrite get_parent_is_Some. lia. }
    assert (He : get_edge_length tree c = None).
    { apply eq_None_not_Some. rewrite get_edge_length_is_Some. lia. }
    rewrite He, Hp. by case_bool_decide.
Qed.

Lemma for_leaves_set_uint8 fuel tree mrca leaves visited seen total_pd :
  same_marks tree visited seen ->
  alike (same_marks tree)
    (for_leaves (walk_uint8 fuel tree mrca) leaves visited total_pd)
    (for_leaves (walk_set fuel tree mrca) leaves seen total_pd).
Proof.
  revert visited seen total_pd.
  induction leaves as [|leaf leaves IH]; intros visited seen total_pd Hm; simpl; [done|].
  pose proof (walk_set_uint8 fuel tree mrca leaf visited seen total_pd Hm) as Hw.
  destruct (walk_uint8 fuel tree mrca leaf visited total_pd) as [[v t]| |],
           (walk_set fuel tree mrca leaf seen total_pd) as [[w t']| |];
    simpl in *; try done.
  destruct Hw as [Hm' <-]. by apply IH.
Qed.

Lemma pd_uint8_optimized fuel tree leaf_nodes :
  CalcOnly.calculate_faiths_pd_vectoruint8 fuel tree leaf_nodes =
  calculate_faiths_pd_optimized fuel tree leaf_nodes.
Proof.
  unfold CalcOnly.calculate_faiths_pd_vectoruint8.
  destruct (Nat.ltb_spec (length leaf_nodes) 2) as [Hlt|Hge].
  - by rewrite pd_optimized_small.
  - rewrite pd_optimized_large by done.
    destruct (find_mrca tree (leaf_set_of leaf_nodes)) as [mrca|]; simpl; [|done].
    destruct (for_leaves _ _ _ _) as [[v t]| |]; done.
Qed.

Lemma pd_bool_optimized fuel tree leaf_nodes :
  CalcOnly.calculate_faiths_pd_vectorbool fuel tree leaf_nodes =
  calculate_faiths_pd_optimized fuel tree leaf_nodes.
Proof.
  unfold CalcOnly.calculate_faiths_pd_vectorbool.
  destruct (Nat.ltb_spec (length leaf_nodes) 2) as [Hlt|Hge].
  - by rewrite pd_optimized_small.
  - rewrite pd_optimized_large by done.
    destruct (find_mrca tree (leaf_set_of leaf_nodes)) as [mrca|]; simpl; [|done].
    replace (fresh_visited tree false) with (as_bools (fresh_visited tree 0%Z))
      by (unfold as_bools, fresh_visited; by rewrite fmap_replicate).
    rewrite for_leaves_bool_uint8.
    destruct (for_leaves _ _ _ _) as [[v t]| |]; done.
Qed.

Lemma pd_set_optimized fuel tree leaf_nodes :
  CalcOnly.calculate_faiths_pd_original fuel tree leaf_nodes =
  calculate_faiths_pd_optimized fuel tree leaf_nodes.
Proof.
  unfold CalcOnly.calculate_faiths_pd_original.
  destruct (Nat.ltb_spec (length leaf_nodes) 2) as [Hlt|Hge].
  - by rewrite pd_optimized_small.
  - rewrite pd_optimized_large by done.
    destruct (find_mrca tree (leaf_set_of leaf_nodes)) as [mrca|]; simpl; [|done].
    pose proof (for_leaves_set_uint8 fuel tree mrca leaf_nodes _ _ 0%float
                  (same_marks_fresh tree)) as Hf.
    destruct (for_leaves (walk_uint8 fuel tree mrca) _ _ _) as [[v t]| |],
             (for_leaves (walk_set fuel tree mrca) _ _ _) as [[w t']| |];
      simpl in *; try done.
    by destruct Hf as [_ <-].
Qed.

Lemma pd_bench_optimized fuel tree leaf_nodes :
  Bench.calculate_faiths_pd fuel tree leaf_nodes =
  calculate_faiths_pd_optimized fuel tree leaf_nodes.
Proof.
  rewrite <- pd_set_optimized.
  unfold Bench.calculate_faiths_pd, CalcOnly.calculate_faiths_pd_original.
  by destruct leaf_nodes as [|a [|b l]].
Qed.

(** C8. The four implementations return the same result on every tree and
    every leaf list: the same double, bit for bit, when they return, and the
    same failure otherwise; the marker structure never changes the value. *)
Theorem marker_structure_irrelevant (fuel : nat) (tree : compact_tree)
    (leaf_nodes : list CT_NODE_T) :
  CalcOnly.calculate_faiths_pd_original fuel tree leaf_nodes =
    calculate_faiths_pd_optimized fuel tree leaf_nodes /\
  CalcOnly.calculate_faiths_pd_vectorbool fuel tree leaf_nodes =
    calculate_faiths_pd_optimized fuel tree leaf_nodes /\
  CalcOnly.calculate_faiths_pd_vectoruint8 fuel tree leaf_nodes =
    calculate_faiths_pd_optimized fuel tree leaf_nodes.
Proof.
  split; [apply pd_set_optimized|].
  split; [apply pd_bool_optimized | apply pd_uint8_optimized].
Qed.

(** ** A chain never repeats a node, so it fits in [num_nodes] steps *)

Lemma chain_suffix tree mrca c l x :
  chain tree mrca c l -> x ∈ l ->
  exists l1 l2, l = l1 ++ l2 /\ chain tree mrca x l2.
Proof.
  induction 1 as [|c p l Hne Hp Hc IH]; intros Hx.
  - by apply elem_of_nil in Hx.
  - apply elem_of_cons in Hx as [->|Hx].
    + exists [], (c :: l). split; [done | by econstructor].
    + destruct (IH Hx) as (l1 & l2 & -> & Hc2).
      exists (c :: l1), l2. by split.
Qed.

Lemma chain_NoDup tree mrca c l : chain tree mrca c l -> NoDup l.
Proof.
  induction 1 as [|c p l Hne Hp Hc IH]; [constructor|].
  constructor; [|done]. intros Hin.
  destruct (chain_suffix _ _ _ _ _ Hc Hin) as (l1 & l2 & -> & Hc2).
  assert (Heq : l2 = c :: l1 ++ l2).
  { eapply chain_unique; [exact Hc2 | by econstructor]. }
  apply (f_equal length) in Heq. simpl in Heq. rewrite length_app in Heq. lia.
Qed.

Lemma elem_of_node_ids tree n :
  n ∈ node_ids tree <-> (N.to_nat n < length (ct_nodes tree))%nat.
Proof.
  unfold node_ids. rewrite list_elem_of_fmap. split.
  - intros (i & -> & Hi). apply elem_of_seq in Hi. lia.
  - intros Hn. exists (N.to_nat n). split; [lia|]. apply elem_of_seq. lia.
Qed.

Lemma chain_length tree mrca c l :
  chain tree mrca c l -> (length l <= length (ct_nodes tree))%nat.
Proof.
  intros Hc.
  replace (length (ct_nodes tree)) with (length (node_ids tree))
    by (unfold node_ids; by rewrite length_fmap, length_seq).
  apply submseteq_length, NoDup_submseteq; [by eapply chain_NoDup|].
  intros n Hn. apply elem_of_node_ids. by eapply chain_in_range.
Qed.

Lemma reaches_chain tree a c :
  reaches tree a c = true <-> exists l, chain tree a c l.
Proof.
  unfold reaches. split.
  - destruct (path_to _ tree a c) as [l| |] eqn:Hp; try done.
    intros _. exists l. by apply path_to_chain in Hp as [? _].
  - intros [l Hc]. by rewrite (chain_path_to _ _ _ _ _ Hc (chain_length _ _ _ _ Hc)).
Qed.

Lemma common_ancestor_chain tree a l :
  common_ancestor tree a l = true <-> forall leaf, leaf ∈ l -> exists p, chain tree a leaf p.
Proof.
  unfold common_ancestor. rewrite forallb_forall. split.
  - intros H leaf Hin. apply reaches_chain, H. by apply list_elem_of_In.
  - intros H leaf Hin. apply reaches_chain, H. by apply list_elem_of_In.
Qed.

(** The paths of all the leaves, when the MRCA is an ancestor of each. *)
Lemma chains_exist tree mrca leaves :
  (forall leaf, leaf ∈ leaves -> exists p, chain tree mrca leaf p) ->
  exists ls, Forall2 (chain tree mrca) leaves ls.
Proof.
  induction leaves as [|leaf leaves IH]; intros H.
  - exists []. constructor.
  - destruct (H leaf) as [p Hp]; [by left|].
    destruct IH as [ls Hls]; [intros x Hx; apply H; by right|].
    exists (p :: ls). by constructor.
Qed.

Lemma chains_mapM fuel tree mrca leaves ls :
  Forall2 (chain tree mrca) leaves ls ->
  (length (ct_nodes tree) <= fuel)%nat ->
  mapM (path_to fuel tree mrca) leaves = Done ls.
Proof.
  intros HF Hfuel. apply mapM_Done_Forall2.
  eapply Forall2_impl; [exact HF|]. intros leaf p Hc. simpl.
  apply chain_path_to; [done|]. pose proof (chain_length _ _ _ _ Hc). lia.
Qed.

Lemma elem_of_concat {A} (x : A) (ls : list (list A)) :
  x ∈ concat ls <-> exists l, x ∈ l /\ l ∈ ls.
Proof.
  induction ls as [|l ls IH]; simpl.
  - split; [intros []%elem_of_nil | intros (l & _ & []%elem_of_nil)].
  - rewrite elem_of_app, IH. split.
    + intros [Hx|(l' & Hx & Hl')]; [exists l | exists l']; split; try done;
        [by left | by right].
    + intros (l' & Hx & [->|Hl']%elem_of_cons); [by left | right; eauto].
Qed.

Lemma elem_of_chains tree mrca leaves ls n :
  Forall2 (chain tree mrca) leaves ls ->
  n ∈ concat ls <->
  exists leaf p, leaf ∈ leaves /\ chain tree mrca leaf p /\ n ∈ p.
Proof.
  intros HF. rewrite elem_of_concat. split.
  - intros (p & Hn & Hp). apply list_elem_of_lookup in Hp as [i Hi].
    destruct (Forall2_lookup_r _ _ _ _ _ HF Hi) as (leaf & Hleaf & Hc).
    exists leaf, p. split; [|done]. apply list_elem_of_lookup. eauto.
  - intros (leaf & p & Hleaf & Hc & Hn). apply list_elem_of_lookup in Hleaf as [i Hi].
    destruct (Forall2_lookup_l _ _ _ _ _ HF Hi) as (p' & Hp' & Hc').
    rewrite (chain_unique _ _ _ _ _ Hc Hc') in Hn.
    exists p'. split; [done|]. apply list_elem_of_lookup. eauto.
Qed.

(** ** The modelled [find_mrca] returns a common ancestor *)

Lemma ancestors_chain tree fuel n x :
  x ∈ ancestors tree fuel n -> exists p, chain tree x n p.
Proof.
  revert n. induction fuel as [|fuel IH]; intros n; simpl.
  - by intros ?%elem_of_nil.
  - destruct (get_parent tree n) as [p|] eqn:Hp; [|by intros ?%elem_of_nil].
    destruct (decide (n = x)) as [->|Hne]; [intros _; exists []; constructor|].
    intros [?|Hin]%elem_of_cons; [congruence|].
    destruct (IH p Hin) as [q Hq]. exists (n :: q). by econstructor.
Qed.

Lemma chain_trans tree a b c p q :
  chain tree a b p -> chain tree b c q -> exists r, chain tree a c r.
Proof.
  intros Hab Hbc. induction Hbc as [|c c' q Hne Hp Hc IH]; [by exists p|].
  destruct IH as [r Hr].
  destruct (decide (c = a)) as [->|Hca]; [exists []; constructor|].
  exists (c :: r). by econstructor.
Qed.

Lemma pair_mrca_chain tree a b c :
  pair_mrca tree a b = Some c ->
  (exists p, chain tree c a p) /\ (exists q, chain tree c b q).
Proof.
  unfold pair_mrca. intros [Hin Hrec]%find_some.
  apply bool_decide_eq_true in Hrec. split.
  - by eapply ancestors_chain.
  - eapply ancestors_chain. by apply list_elem_of_In.
Qed.

Lemma fold_mrca_chain tree rest : forall current mrca,
  fold_mrca tree current rest = Some mrca ->
  forall x, x ∈ current :: rest -> exists p, chain tree mrca x p.
Proof.
  induction rest as [|l rest IH]; intros current mrca; simpl.
  - intros [= ->] x ->%list_elem_of_singleton. exists []. constructor.
  - destruct (pair_mrca tree current l) as [c|] eqn:Hc; [|done].
    intros Hfold x Hx.
    destruct (pair_mrca_chain _ _ _ _ Hc) as [[p Hp] [q Hq]].
    destruct (IH c mrca Hfold c ltac:(by left)) as [r Hr].
    apply elem_of_cons in Hx as [->|[->|Hx]%elem_of_cons].
    + by eapply chain_trans.
    + by eapply chain_trans.
    + apply (IH c mrca Hfold). by right.
Qed.

Lemma find_mrca_common_ancestor tree leaf_ids mrca :
  find_mrca tree leaf_ids = Some mrca ->
  forall x, x ∈ leaf_ids -> exists p, chain tree mrca x p.
Proof.
  unfold find_mrca. intros Hfind x Hx. apply elem_of_elements in Hx.
  destruct (elements leaf_ids) as [|first rest]; [done|].
  destruct (forallb (is_leaf tree) (first :: rest)); [|done].
  by eapply fold_mrca_chain.
Qed.

(** C1. On two or more leaves for which [find_mrca] returns a node, the
    function returns the double sum of the edge lengths over a duplicate-free
    enumeration of exactly the nodes that lie strictly below the MRCA on some
    leaf's path to it: each such edge is added once, however many paths share
    it.  The hash-set version of benchmark_faiths_pd_compacttree.cpp returns
    the same. *)
Theorem faiths_pd_counts_each_edge_once (tree : compact_tree)
    (leaf_nodes : list CT_NODE_T) (mrca : CT_NODE_T) :
  (2 <= length leaf_nodes)%nat ->
  find_mrca tree (leaf_set_of leaf_nodes) = Some mrca ->
  exists counted,
    NoDup counted /\
    (forall n, n ∈ counted <->
       exists leaf p, leaf ∈ leaf_nodes /\ chain tree mrca leaf p /\ n ∈ p) /\
    forall fuel, (length (ct_nodes tree) <= fuel)%nat ->
      calculate_faiths_pd_optimized fuel tree leaf_nodes =
        Done (edge_sum tree 0%float counted) /\
      Bench.calculate_faiths_pd fuel tree leaf_nodes =
        Done (edge_sum tree 0%float counted).
Proof.
  intros Hlen Hm.
  assert (Hanc : forall leaf, leaf ∈ leaf_nodes -> exists p, chain tree mrca leaf p).
  { intros leaf Hleaf. apply (find_mrca_common_ancestor _ _ _ Hm).
    by apply elem_of_list_to_set. }
  destruct (chains_exist _ _ _ Hanc) as [ls Hls].
  exists (first_visits [] (concat ls)). split; [apply first_visits_NoDup; constructor|].
  split.
  - intros n. rewrite first_visits_elem, <- (elem_of_chains _ _ _ _ _ Hls).
    rewrite elem_of_nil. tauto.
  - intros fuel Hfuel. rewrite pd_bench_optimized.
    assert (calculate_faiths_pd_optimized fuel tree leaf_nodes =
            Done (edge_sum tree 0%float (first_visits [] (concat ls)))) as ->; [|done].
    rewrite pd_optimized_paths. unfold pd_of_paths.
    destruct (Nat.ltb_spec (length leaf_nodes) 2) as [?|_]; [lia|].
    rewrite Hm. simpl. by rewrite (chains_mapM _ _ _ _ _ Hls Hfuel).
Qed.

Lemma faiths_pd_counts_each_edge_once_witness :
  exists counted,
    NoDup counted /\
    (forall n, n ∈ counted <->
       exists leaf p, leaf ∈ [Scenario.X; Scenario.B] /\
                      chain Scenario.tree Scenario.R leaf p /\ n ∈ p) /\
    forall fuel, (length (ct_nodes Scenario.tree) <= fuel)%nat ->
      calculate_faiths_pd_optimized fuel Scenario.tree [Scenario.X; Scenario.B] =
        Done (edge_sum Scenario.tree 0%float counted) /\
      Bench.calculate_faiths_pd fuel Scenario.tree [Scenario.X; Scenario.B] =
        Done (edge_sum Scenario.tree 0%float counted).
Proof.
  apply (faiths_pd_counts_each_edge_once Scenario.tree [Scenario.X; Scenario.B] Scenario.R).
  - simpl. lia.
  - vm_compute. reflexivity.
Defined.

(** ** The concrete scenario, in any tree that contains it *)

Lemma path_one_step fuel tree mrca c :
  c ≠ mrca -> get_parent tree c = Some mrca ->
  path_to (S fuel) tree mrca c = Done [c].
Proof.
  intros Hne Hp. apply chain_path_to; [|simpl; lia].
  econstructor; [done | exact Hp | constructor].
Qed.

Lemma path_two_steps fuel tree mrca c p :
  c ≠ mrca -> p ≠ mrca -> get_parent tree c = Some p -> get_parent tree p = Some mrca ->
  path_to (S (S fuel)) tree mrca c = Done [c; p].
Proof.
  intros Hc Hp Hcp Hpm. apply chain_path_to; [|simpl; lia].
  econstructor; [done | exact Hcp |]. econstructor; [done | exact Hpm | constructor].
Qed.

Lemma first_visits_distinct l counted :
  NoDup (counted ++ l) -> first_visits counted l = counted ++ l.
Proof.
  revert counted. induction l as [|n l IH]; intros counted Hnd.
  - by rewrite app_nil_r.
  - change (first_visits counted (n :: l)) with (first_visits (first_visit counted n) l).
    unfold first_visit. rewrite bool_decide_eq_false_2.
    + rewrite IH; rewrite <- app_assoc; done.
    + apply NoDup_app in Hnd as (_ & Hdis & _). intros Hin.
      apply (Hdis n Hin). by left.
Qed.

Ltac not_in_list :=
  repeat (apply not_elem_of_cons; split; [congruence|]); apply not_elem_of_nil.

Ltac no_dup := repeat (apply NoDup_cons_2; [not_in_list|]); apply NoDup_nil_2.

(** C2. In every tree that contains the concrete scenario (distinct nodes R,
    A, B, X, Y; A, edge 2.0, and B, edge 3.0, below R; X and Y, edge 1.0
    each, below A), whatever its size and numbering, the function returns 2.0
    for the guild X, Y, whose MRCA is A, 6.0 for the guild X, B, whose MRCA is
    R, and 0.0 for the guild X alone, as soon as a walk may take two steps. *)
Theorem concrete_scenario (fuel : nat) (tree : compact_tree) (R A B X Y : CT_NODE_T) :
  NoDup [R; A; B; X; Y] ->
  get_parent tree A = Some R -> get_parent tree B = Some R ->
  get_parent tree X = Some A -> get_parent tree Y = Some A ->
  get_edge_length tree A = Some Scenario.f32_2 ->
  get_edge_length tree B = Some Scenario.f32_3 ->
  get_edge_length tree X = Some Scenario.f32_1 ->
  get_edge_length tree Y = Some Scenario.f32_1 ->
  find_mrca tree (leaf_set_of [X; Y]) = Some A ->
  find_mrca tree (leaf_set_of [X; B]) = Some R ->
  calculate_faiths_pd_optimized (2 + fuel) tree [X; Y] = Done 2%float /\
  calculate_faiths_pd_optimized (2 + fuel) tree [X; B] = Done 6%float /\
  calculate_faiths_pd_optimized fuel tree [X] = Done 0%float.
Proof.
  intros Hnd HA HB HX HY EA EB EX EY MA MR.
  assert (Hne : R ≠ A /\ R ≠ B /\ R ≠ X /\ R ≠ Y /\ A ≠ B /\ A ≠ X /\ A ≠ Y /\
                B ≠ X /\ B ≠ Y /\ X ≠ Y).
  { repeat match goal with
           | H : NoDup (_ :: _) |- _ => apply NoDup_cons in H as [? H]
           end.
    repeat match goal with
           | H : _ ∉ _ :: _ |- _ => apply not_elem_of_cons in H as [? H]
           end.
    repeat split; congruence. }
  destruct Hne as (? & ? & ? & ? & ? & ? & ? & ? & ? & ?).
  split; [|split; [|reflexivity]].
  - rewrite pd_optimized_paths. unfold pd_of_paths.
    change (length [X; Y] <? 2)%nat with false. cbv iota. rewrite MA.
    cbn [of_option mbind outcome_bind mapM mret outcome_ret].
    change (2 + fuel)%nat with (S (S fuel)).
    rewrite !path_one_step by (done || congruence).
    cbn [mbind outcome_bind mret outcome_ret concat app].
    rewrite (first_visits_distinct [X; Y] [])
      by (cbn [app]; no_dup).
    unfold edge_sum, edge_value. cbn [app foldl]. rewrite EX, EY.
    vm_compute. reflexivity.
  - rewrite pd_optimized_paths. unfold pd_of_paths.
    change (length [X; B] <? 2)%nat with false. cbv iota. rewrite MR.
    cbn [of_option mbind outcome_bind mapM mret outcome_ret].
    change (2 + fuel)%nat with (S (S fuel)).
    rewrite (path_two_steps fuel tree R X A) by (done || congruence).
    rewrite (path_one_step (S fuel) tree R B) by (done || congruence).
    cbn [mbind outcome_bind mret outcome_ret concat app].
    rewrite (first_visits_distinct [X; A; B] [])
      by (cbn [app]; no_dup).
    unfold edge_sum, edge_value. cbn [app foldl]. rewrite EX, EA, EB.
    vm_compute. reflexivity.
Qed.

Lemma concrete_scenario_witness :
  find_mrca Scenario.tree (leaf_set_of [Scenario.X; Scenario.Y]) = Some Scenario.A /\
  find_mrca Scenario.tree (leaf_set_of [Scenario.X; Scenario.B]) = Some Scenario.R /\
  calculate_faiths_pd_optimized 5 Scenario.tree [Scenario.X; Scenario.Y] = Done 2%float /\
  calculate_faiths_pd_optimized 5 Scenario.tree [Scenario.X; Scenario.B] = Done 6%float /\
  calculate_faiths_pd_optimized 3 Scenario.tree [Scenario.X] = Done 0%float.
Proof.
  split; [vm_compute; reflexivity|]. split; [vm_compute; reflexivity|].
  apply (concrete_scenario 3 Scenario.tree
           Scenario.R Scenario.A Scenario.B Scenario.X Scenario.Y);
    try (vm_compute; reflexivity).
  unfold Scenario.R, Scenario.A, Scenario.B, Scenario.X, Scenario.Y. no_dup.
Defined.

(** ** Termination *)

Lemma walk_Done_iff fuel tree mrca leaf visited total_pd :
  length visited = length (ct_nodes tree) ->
  (exists st, walk_uint8 fuel tree mrca leaf visited total_pd = Done st) <->
  (exists p, chain tree mrca leaf p /\ (length p <= fuel)%nat).
Proof.
  intros Hlen. rewrite walk_uint8_path by done. split.
  - intros [st Hst]. destruct (path_to fuel tree mrca leaf) as [p| |] eqn:Hp; try done.
    exists p. by apply path_to_chain.
  - intros (p & Hc & Hp). rewrite (chain_path_to _ _ _ _ _ Hc Hp). simpl. eauto.
Qed.

Lemma mapM_path_Done_iff fuel tree mrca leaves :
  (exists ls, mapM (path_to fuel tree mrca) leaves = Done ls) <->
  (forall leaf, leaf ∈ leaves -> exists p, chain tree mrca leaf p /\ (length p <= fuel)%nat).
Proof.
  split.
  - intros [ls Hls] leaf Hleaf. apply mapM_Done_Forall2 in Hls.
    apply list_elem_of_lookup in Hleaf as [i Hi].
    destruct (Forall2_lookup_l _ _ _ _ _ Hls Hi) as (p & _ & Hp).
    exists p. by apply path_to_chain.
  - induction leaves as [|leaf leaves IH]; intros H; simpl; [by eexists|].
    destruct (H leaf) as (p & Hc & Hp); [by left|].
    rewrite (chain_path_to _ _ _ _ _ Hc Hp). simpl.
    destruct IH as [ls ->]; [intros x Hx; apply H; by right|]. simpl. by eexists.
Qed.

Lemma pd_Done_iff fuel tree leaf_nodes mrca :
  (2 <= length leaf_nodes)%nat ->
  find_mrca tree (leaf_set_of leaf_nodes) = Some mrca ->
  (exists v, calculate_faiths_pd_optimized fuel tree leaf_nodes = Done v) <->
  (forall leaf, leaf ∈ leaf_nodes ->
     exists p, chain tree mrca leaf p /\ (length p <= fuel)%nat).
Proof.
  intros Hlen Hm. rewrite <- mapM_path_Done_iff, pd_optimized_paths. unfold pd_of_paths.
  destruct (Nat.ltb_spec (length leaf_nodes) 2) as [?|_]; [lia|].
  rewrite Hm. simpl.
  destruct (mapM (path_to fuel tree mrca) leaf_nodes) as [ls| |]; simpl.
  - split; intros _; by eexists.
  - split; by intros [? ?].
  - split; by intros [? ?].
Qed.

Lemma mapM_Done_iff {A B} (f : A -> outcome B) (l : list A) :
  (exists ys, mapM f l = Done ys) <-> (forall x, x ∈ l -> exists y, f x = Done y).
Proof.
  split.
  - intros [ys Hys] x Hx. apply list_elem_of_lookup in Hx as [i Hi].
    destruct (mapM_Done_lookup _ _ _ _ _ Hys Hi) as (y & _ & Hy). eauto.
  - induction l as [|x l IH]; intros H; simpl; [by eexists|].
    destruct (H x) as [y ->]; [by left|]. simpl.
    destruct IH as [ys ->]; [intros z Hz; apply H; by right|]. simpl. by eexists.
Qed.

(** C9. Each per-leaf walk returns exactly when the MRCA handed to it is an
    ancestor of (or equal to) the leaf, that is when a finite parent chain
    leads from the leaf to it, and then [num_nodes] iterations suffice;
    otherwise no number of iterations makes the exit test succeed.  Hence
    [calculate_faiths_pd_optimized] returns on a guild of two or more leaves
    exactly when the node returned by [find_mrca] is an ancestor of every
    listed leaf, and [calculate_faiths_pd_batch] exactly when this holds of
    each of its guilds of two or more leaves. *)
Theorem termination_depends_on_ancestry (tree : compact_tree) :
  (forall mrca leaf visited total_pd,
     length visited = length (ct_nodes tree) ->
     ((exists p, chain tree mrca leaf p) <->
      (exists fuel st, walk_uint8 fuel tree mrca leaf visited total_pd = Done st)) /\
     ((exists p, chain tree mrca leaf p) ->
      forall fuel, (length (ct_nodes tree) <= fuel)%nat ->
        exists st, walk_uint8 fuel tree mrca leaf visited total_pd = Done st)) /\
  (forall leaf_nodes mrca,
     (2 <= length leaf_nodes)%nat ->
     find_mrca tree (leaf_set_of leaf_nodes) = Some mrca ->
     ((forall leaf, leaf ∈ leaf_nodes -> exists p, chain tree mrca leaf p) <->
      (exists fuel v, calculate_faiths_pd_optimized fuel tree leaf_nodes = Done v)) /\
     ((forall leaf, leaf ∈ leaf_nodes -> exists p, chain tree mrca leaf p) ->
      forall fuel, (length (ct_nodes tree) <= fuel)%nat ->
        exists v, calculate_faiths_pd_optimized fuel tree leaf_nodes = Done v)) /\
  (forall guilds,
     (forall g, g ∈ guilds -> (2 <= length g)%nat ->
        exists mrca, find_mrca tree (leaf_set_of g) = Some mrca) ->
     ((forall g mrca leaf, g ∈ guilds -> (2 <= length g)%nat ->
         find_mrca tree (leaf_set_of g) = Some mrca -> leaf ∈ g ->
         exists p, chain tree mrca leaf p) <->
      (exists fuel rs, calculate_faiths_pd_batch fuel tree guilds = Done rs)) /\
     ((forall g mrca leaf, g ∈ guilds -> (2 <= length g)%nat ->
         find_mrca tree (leaf_set_of g) = Some mrca -> leaf ∈ g ->
         exists p, chain tree mrca leaf p) ->
      forall fuel, (length (ct_nodes tree) <= fuel)%nat ->
        exists rs, calculate_faiths_pd_batch fuel tree guilds = Done rs)).
Proof.
  assert (Hwalk : forall mrca leaf visited total_pd,
     length visited = length (ct_nodes tree) ->
     (exists p, chain tree mrca leaf p) ->
      forall fuel, (length (ct_nodes tree) <= fuel)%nat ->
        exists st, walk_uint8 fuel tree mrca leaf visited total_pd = Done st).
  { intros mrca leaf visited total_pd Hlen [p Hc] fuel Hfuel.
    apply walk_Done_iff; [done|]. exists p. split; [done|].
    pose proof (chain_length _ _ _ _ Hc). lia. }
  assert (Hpd : forall leaf_nodes mrca,
     (2 <= length leaf_nodes)%nat ->
     find_mrca tree (leaf_set_of leaf_nodes) = Some mrca ->
     (forall leaf, leaf ∈ leaf_nodes -> exists p, chain tree mrca leaf p) ->
      forall fuel, (length (ct_nodes tree) <= fuel)%nat ->
        exists v, calculate_faiths_pd_optimized fuel tree leaf_nodes = Done v).
  { intros leaf_nodes mrca Hlen Hm Hanc fuel Hfuel.
    apply (pd_Done_iff _ _ _ _ Hlen Hm). intros leaf Hleaf.
    destruct (Hanc leaf Hleaf) as [p Hc]. exists p. split; [done|].
    pose proof (chain_length _ _ _ _ Hc). lia. }
  assert (Hbatch : forall guilds,
     (forall g mrca leaf, g ∈ guilds -> (2 <= length g)%nat ->
         find_mrca tree (leaf_set_of g) = Some mrca -> leaf ∈ g ->
         exists p, chain tree mrca leaf p) ->
     (forall g, g ∈ guilds -> (2 <= length g)%nat ->
        exists mrca, find_mrca tree (leaf_set_of g) = Some mrca) ->
      forall fuel, (length (ct_nodes tree) <= fuel)%nat ->
        exists rs, calculate_faiths_pd_batch fuel tree guilds = Done rs).
  { intros guilds Hanc Hfind fuel Hfuel. rewrite batch_mapM.
    apply mapM_Done_iff. intros g Hg.
    destruct (Nat.ltb_spec (length g) 2) as [Hlt|Hge].
    - rewrite pd_optimized_small by done. by eexists.
    - destruct (Hfind g Hg Hge) as [mrca Hm].
      apply (Hpd g mrca Hge Hm); [|done]. intros leaf Hleaf. by eapply Hanc. }
  split; [|split].
  - intros mrca leaf visited total_pd Hlen. split; [|by apply Hwalk]. split.
    + intros Hc. exists (length (ct_nodes tree)). by apply Hwalk.
    + intros (fuel & st & Hst).
      destruct (proj1 (walk_Done_iff fuel tree mrca leaf visited total_pd Hlen))
        as (p & Hc & _); eauto.
  - intros leaf_nodes mrca Hlen Hm. split; [|by apply Hpd]. split.
    + intros Hanc. exists (length (ct_nodes tree)). by eapply Hpd.
    + intros (fuel & v & Hv) leaf Hleaf.
      destruct (proj1 (pd_Done_iff fuel tree leaf_nodes mrca Hlen Hm)) with leaf
        as (p & Hc & _); eauto.
  - intros guilds Hfind. split; [|intros; by apply Hbatch]. split.
    + intros Hanc. exists (length (ct_nodes tree)). by apply Hbatch.
    + intros (fuel & rs & Hrs) g mrca leaf Hg Hlen Hm Hleaf.
      rewrite batch_mapM in Hrs.
      destruct (proj1 (mapM_Done_iff _ _) (ex_intro _ rs Hrs) g Hg) as [v Hv].
      destruct (proj1 (pd_Done_iff fuel tree g mrca Hlen Hm)) with leaf
        as (p & Hc & _); eauto.
Qed.

Lemma termination_depends_on_ancestry_witness :
  (exists st, walk_uint8 5 Scenario.tree Scenario.R Scenario.X
               (fresh_visited Scenario.tree 0%Z) 0%float = Done st) /\
  ~ (exists p, chain Scenario.tree Scenario.A Scenario.B p) /\
  walk_uint8 5 Scenario.tree Scenario.A Scenario.B
    (fresh_visited Scenario.tree 0%Z) 0%float = Fault /\
  (exists v, calculate_faiths_pd_optimized 5 Scenario.tree [Scenario.X; Scenario.B] = Done v).
Proof.
  destruct (termination_depends_on_ancestry Scenario.tree) as (Hwalk & Hpd & _).
  split; [|split; [|split]].
  - apply (Hwalk Scenario.R Scenario.X); [reflexivity | | simpl; lia].
    apply reaches_chain. vm_compute. reflexivity.
  - intros Hc.
    apply (Hwalk Scenario.A Scenario.B (fresh_visited Scenario.tree 0%Z) 0%float eq_refl)
      in Hc as (fuel & st & Hst).
    rewrite walk_uint8_path in Hst by reflexivity.
    destruct fuel as [|[|[|fuel]]]; vm_compute in Hst; discriminate.
  - vm_compute. reflexivity.
  - apply (Hpd [Scenario.X; Scenario.B] Scenario.R); [simpl; lia | vm_compute; reflexivity | | simpl; lia].
    apply common_ancestor_chain. vm_compute. reflexivity.
Defined.

(** ** Repeated leaves *)

Lemma first_visits_absorbed counted l :
  (forall n, n ∈ l -> n ∈ counted) -> first_visits counted l = counted.
Proof.
  unfold first_visits. induction l as [|n l IH]; intros H; simpl; [done|].
  unfold first_visit at 2. rewrite bool_decide_eq_true_2 by (apply H; by left).
  apply IH. intros x Hx. apply H. by right.
Qed.

Lemma leaf_set_of_dedup l : leaf_set_of (dedup_first l) = leaf_set_of l.
Proof.
  unfold leaf_set_of, dedup_first. apply set_eq. intros x.
  rewrite !elem_of_list_to_set, first_visits_elem, elem_of_nil. tauto.
Qed.

(** A leaf listed again after its first occurrence changes nothing. *)
Lemma repeated_leaf {A} (f : CT_NODE_T -> outcome (list CT_NODE_T))
    (h : list CT_NODE_T -> A) seen x l :
  x ∈ seen ->
  (ls ← mapM f (seen ++ x :: l); Done (h (first_visits [] (concat ls)))) =
  (ls ← mapM f (seen ++ l); Done (h (first_visits [] (concat ls)))).
Proof.
  intros Hx. rewrite !mapM_outcome_app. simpl.
  destruct (mapM f seen) as [ls1| |] eqn:Hseen; simpl; try done.
  apply list_elem_of_lookup in Hx as [i Hi].
  destruct (mapM_Done_lookup _ _ _ _ _ Hseen Hi) as (p & Hp & ->). simpl.
  destruct (mapM f l) as [ls2| |]; simpl; try done.
  do 2 f_equal. rewrite !concat_app. simpl. rewrite !first_visits_app.
  f_equal. apply first_visits_absorbed. intros n Hn.
  apply first_visits_elem. right. apply elem_of_concat. exists p. split; [done|].
  apply list_elem_of_lookup. eauto.
Qed.

Lemma dedup_paths {A} (f : CT_NODE_T -> outcome (list CT_NODE_T))
    (h : list CT_NODE_T -> A) l seen :
  (ls ← mapM f (first_visits seen l); Done (h (first_visits [] (concat ls)))) =
  (ls ← mapM f (seen ++ l); Done (h (first_visits [] (concat ls)))).
Proof.
  revert seen. induction l as [|x l IH]; intros seen.
  - by rewrite app_nil_r.
  - change (first_visits seen (x :: l)) with (first_visits (first_visit seen x) l).
    rewrite IH. unfold first_visit. case_bool_decide as Hx.
    + symmetry. by apply repeated_leaf.
    + by rewrite <- app_assoc.
Qed.

Lemma find_mrca_singleton tree x :
  is_leaf tree x = true -> find_mrca tree {[x]} = Some x.
Proof.
  intros Hx. unfold find_mrca. rewrite elements_singleton. simpl. by rewrite Hx.
Qed.

Lemma first_visits_keeps_head x k l : exists l', first_visits (x :: k) l = x :: l'.
Proof.
  revert k. induction l as [|y l IH]; intros k; [by eexists|].
  change (first_visits (x :: k) (y :: l)) with (first_visits (first_visit (x :: k) y) l).
  unfold first_visit. case_bool_decide; [apply IH|]. apply (IH (k ++ [y])).
Qed.

Lemma dedup_first_head x l : exists l', dedup_first (x :: l) = x :: l'.
Proof.
  unfold dedup_first.
  change (first_visits [] (x :: l)) with (first_visits (first_visit [] x) l).
  unfold first_visit. rewrite bool_decide_eq_false_2 by apply not_elem_of_nil.
  apply first_visits_keeps_head.
Qed.

(** C10. On leaf ids that are leaves of the tree, the function returns on a
    list with repeated entries exactly what it returns on the list with the
    repetitions removed (first occurrences kept): same double, or same
    failure. *)
Theorem duplicates_do_not_inflate (fuel : nat) (tree : compact_tree)
    (leaf_nodes : list CT_NODE_T) :
  (forall leaf, leaf ∈ leaf_nodes -> is_leaf tree leaf = true) ->
  calculate_faiths_pd_optimized fuel tree leaf_nodes =
  calculate_faiths_pd_optimized fuel tree (dedup_first leaf_nodes).
Proof.
  intros Hleaves. rewrite !pd_optimized_paths. unfold pd_of_paths.
  destruct leaf_nodes as [|x [|y l]]; [done | done |].
  change (length (x :: y :: l) <? 2)%nat with false. cbv iota.
  rewrite <- (leaf_set_of_dedup (x :: y :: l)).
  destruct (dedup_first_head x (y :: l)) as [l' Hd].
  assert (Hx : is_leaf tree x = true) by (apply Hleaves; by left).
  remember (x :: y :: l) as leaves eqn:Hl. clear Hl Hleaves.
  destruct l' as [|z l'].
  - rewrite Hd. unfold leaf_set_of.
    change (list_to_set [x] : gset CT_NODE_T) with (({[x]} : gset CT_NODE_T) ∪ ∅).
    rewrite (right_id_L ∅ (∪)), find_mrca_singleton by done.
    change (length [x] <? 2)%nat with true. cbv iota.
    pose proof (dedup_paths (path_to fuel tree x) (edge_sum tree PrimFloat.zero) leaves [])
      as Heq.
    fold (dedup_first leaves) in Heq. rewrite Hd in Heq.
    change ([] ++ leaves) with leaves in Heq.
    change (of_option (Some x) ≫= ?k) with (k x). cbv beta. rewrite <- Heq.
    simpl. destruct fuel; simpl; by rewrite N.eqb_refl.
  - rewrite Hd at 2. change (length (x :: z :: l') <? 2)%nat with false. cbv iota.
    destruct (find_mrca tree (leaf_set_of (dedup_first leaves))) as [mrca|];
      [|done].
    change (of_option (Some mrca) ≫= ?k) with (k mrca). cbv beta.
    symmetry. apply (dedup_paths (path_to fuel tree mrca) (edge_sum tree PrimFloat.zero)
                       leaves []).
Qed.

Lemma duplicates_do_not_inflate_witness :
  calculate_faiths_pd_optimized 5 Scenario.tree
    [Scenario.X; Scenario.B; Scenario.X; Scenario.B; Scenario.X] = Done 6%float.
Proof.
  rewrite (duplicates_do_not_inflate 5 Scenario.tree
             [Scenario.X; Scenario.B; Scenario.X; Scenario.B; Scenario.X]).
  - vm_compute. reflexivity.
  - intros leaf Hleaf. repeat (apply elem_of_cons in Hleaf as [->|Hleaf]; [reflexivity|]).
    by apply elem_of_nil in Hleaf.
Defined.

(** ** The dump and the interchange layout *)

Arguments Dump.low_to_high : simpl never.

Lemma u32_low_to_high v :
  u32_range v -> Layout.u32 v = Some (Dump.low_to_high v) /\ Dump.to_uint32 v = v.
Proof.
  unfold u32_range, Layout.u32, Dump.low_to_high, Dump.to_uint32. intros Hv.
  destruct (Z.leb_spec 0 v) as [_|?]; [|lia].
  destruct (Z.ltb_spec v 4294967296) as [_|?]; [|lia]. simpl.
  split; [|by apply Z.mod_small].
  change 255%Z with (Z.ones 8). rewrite !Z.land_ones, !Z.shiftr_div_pow2 by lia.
  reflexivity.
Qed.

Lemma write_u32_le out v :
  u32_range v ->
  Dump.write_u32 Dump.LittleEndian out v = out ++ Dump.low_to_high v.
Proof.
  intros Hv. unfold Dump.write_u32. simpl.
  by rewrite (proj2 (u32_low_to_high v Hv)).
Qed.

Lemma write_children_le (out : Dump.ofstream) (children : list CT_NODE_T) :
  Forall (fun c => u32_range (Z.of_N c)) children ->
  exists cs,
    mapM (fun c => Layout.u32 (Z.of_N c)) children = Some cs /\
    foldl (fun (out : Dump.ofstream) child =>
             Dump.write_u32 Dump.LittleEndian out (Z.of_N child))
          out children = out ++ concat cs.
Proof.
  intros H. revert out. induction H as [|c children Hc _ IH]; intros out; simpl.
  - exists []. by rewrite app_nil_r.
  - rewrite (proj1 (u32_low_to_high _ Hc)). simpl.
    destruct (IH (Dump.write_u32 Dump.LittleEndian out (Z.of_N c))) as (cs & -> & ->).
    simpl. eexists. split; [done|]. rewrite write_u32_le by done.
    by rewrite <- app_assoc.
Qed.

Lemma string_bytes_length str : length (Dump.string_bytes str) = String.length str.
Proof.
  unfold Dump.string_bytes. rewrite length_map.
  induction str as [|c str IH]; simpl; [done | by rewrite IH].
Qed.

Lemma parent_index_raw nd : Layout.parent_index nd = Z.of_N (node_parent nd).
Proof.
  unfold Layout.parent_index, Layout.parent_of.
  destruct (N.eqb_spec (node_parent nd) NULL_NODE) as [->|_]; reflexivity.
Qed.

Lemma write_node_le tree out i nd :
  ct_nodes tree !! N.to_nat i = Some nd ->
  node_fits nd ->
  exists rec,
    Layout.record nd = Some rec /\
    Dump.write_node Dump.LittleEndian tree out i = Done (out ++ rec).
Proof.
  intros Hnd (Hp & Hn & Hcs & Hl & He).
  unfold Dump.write_node, get_parent, get_children, get_label, get_edge_length.
  rewrite vec_at_lookup, Hnd. simpl.
  unfold Layout.record. rewrite parent_index_raw.
  rewrite (proj1 (u32_low_to_high _ Hp)), (proj1 (u32_low_to_high _ Hn)). simpl.
  destruct (write_children_le
              (Dump.write_u32 Dump.LittleEndian
                 (Dump.write_u32 Dump.LittleEndian out (Z.of_N (node_parent nd)))
                 (Z.of_nat (length (node_children nd))))
              (node_children nd) Hcs) as (cs & -> & ->).
  simpl. unfold Layout.label_bytes. fold (Dump.string_bytes (node_label nd)).
  rewrite string_bytes_length.
  rewrite (proj1 (u32_low_to_high _ Hl)). simpl.
  unfold Layout.f32. rewrite (proj1 (u32_low_to_high _ He)). simpl.
  eexists. split; [done|]. f_equal.
  unfold Dump.write_f32, Dump.write_string. simpl.
  rewrite (proj2 (u32_low_to_high _ Hl)), Nat2Z.id.
  rewrite take_ge by (by rewrite string_bytes_length).
  rewrite !write_u32_le by done.
  by rewrite <- !app_assoc.
Qed.

Lemma node_loop_le tree rest : forall before out,
  ct_nodes tree = before ++ rest ->
  Forall node_fits rest ->
  exists recs,
    mapM Layout.record rest = Some recs /\
    Dump.node_loop Dump.LittleEndian tree (length rest) (N.of_nat (length before)) out =
      Done (out ++ concat recs).
Proof.
  induction rest as [|nd rest IH]; intros before out Hnodes Hfits; simpl.
  - exists []. by rewrite app_nil_r.
  - inversion Hfits as [|? ? Hnd Hrest]; subst.
    destruct (write_node_le tree out (N.of_nat (length before)) nd) as (rec & Hrec & ->);
      [|done|].
    { rewrite Nat2N.id, Hnodes. by apply list_lookup_middle. }
    rewrite Hrec. simpl.
    destruct (IH (before ++ [nd]) (out ++ rec)) as (recs & -> & Hloop); [|done|].
    { by rewrite <- app_assoc. }
    simpl. exists (rec :: recs). split; [done|].
    rewrite length_app in Hloop. simpl in Hloop.
    replace (N.of_nat (length before) + 1) with (N.of_nat (length before + 1)) by lia.
    rewrite Hloop. simpl. by rewrite <- app_assoc.
Qed.

(** C7 as the code has it. On a little-endian host, and for a tree whose
    fields fit the 32-bit types of the program, the bytes written by [main]
    are exactly the interchange layout of the specification: the header
    [u32 num_nodes], [u32 num_leaves], then per node in ascending id order
    the parent index
    (0xFFFFFFFF for the root), the child count, the child indices, the label
    length, the label bytes without terminator, and the [f32] edge length. *)
Theorem dump_matches_layout (tree : compact_tree) :
  tree_fits tree ->
  exists bytes,
    Dump.main Dump.LittleEndian tree = Done bytes /\
    Layout.encode tree = Some bytes.
Proof.
  intros (Hn & Hl & Hnodes).
  destruct (node_loop_le tree (ct_nodes tree) []
              (Dump.write_u32 Dump.LittleEndian
                 (Dump.write_u32 Dump.LittleEndian [] (Z.of_nat (length (ct_nodes tree))))
                 (Z.of_N (ct_num_leaves tree))) eq_refl Hnodes) as (recs & Hrecs & Hloop).
  change (N.of_nat (length [])) with 0 in Hloop.
  unfold Dump.main, Layout.encode, get_num_nodes, get_num_leaves.
  rewrite nat_N_Z, Hrecs.
  rewrite (proj1 (u32_low_to_high _ Hn)), (proj1 (u32_low_to_high _ Hl)).
  rewrite !(proj2 (u32_low_to_high _ Hn)), !(proj2 (u32_low_to_high _ Hl)).
  rewrite Nat2Z.id. cbv zeta. rewrite Hloop.
  eexists. split; [done|]. cbn [mbind option_bind]. f_equal.
  rewrite !write_u32_le by done. cbn [app]. by rewrite <- !app_assoc.
Qed.

Lemma scenario_tree_fits : tree_fits Scenario.tree.
Proof.
  unfold tree_fits, u32_range. simpl.
  split; [lia|]. split; [lia|].
  repeat (apply Forall_cons; split);
    try apply Forall_nil; unfold node_fits, u32_range; simpl;
    repeat (split; try lia);
    repeat (apply Forall_cons; split); try apply Forall_nil; vm_compute; try done.
Qed.

Lemma dump_matches_layout_witness :
  exists bytes,
    Dump.main Dump.LittleEndian Scenario.tree = Done bytes /\
    Layout.encode Scenario.tree = Some bytes.
Proof. apply (dump_matches_layout Scenario.tree). exact scenario_tree_fits. Defined.

(** The byte order is the host's: the same program run on a big-endian host
    writes another file. *)
Lemma dump_follows_host_byte_order :
  Dump.main Dump.BigEndian Scenario.tree <> Dump.main Dump.LittleEndian Scenario.tree.
Proof. intros H. vm_compute in H. discriminate. Qed.

(** The claim of C7 itself fails, since [write_u32] and [write_f32] write
    the bytes of the object as the host stores them and swap nothing: on a
    big-endian host the dump of the five-node scenario tree begins with the
    node count as 00 00 00 05, where the little-endian layout has
    05 00 00 00, and the file is not the layout. *)
Lemma big_endian_dump_is_not_the_layout :
  tree_fits Scenario.tree /\
  exists bytes layout,
    Dump.main Dump.BigEndian Scenario.tree = Done bytes /\
    Layout.encode Scenario.tree = Some layout /\
    take 4 bytes = [0; 0; 0; 5]%Z /\
    take 4 layout = [5; 0; 0; 0]%Z /\
    bytes <> layout.
Proof.
  split; [exact scenario_tree_fits|].
  destruct (Dump.main Dump.BigEndian Scenario.tree) as [bytes| |] eqn:Hdump;
    [|vm_compute in Hdump; discriminate..].
  destruct (Layout.encode Scenario.tree) as [layout|] eqn:Hlayout;
    [|vm_compute in Hlayout; discriminate].
  exists bytes, layout.
  assert (Hb : take 4 bytes = [0; 0; 0; 5]%Z).
  { vm_compute in Hdump. injection Hdump as <-. reflexivity. }
  assert (Hl : take 4 layout = [5; 0; 0; 0]%Z).
  { vm_compute in Hlayout. injection Hlayout as <-. reflexivity. }
  repeat (split; [done|]). intros ->. rewrite Hb in Hl. discriminate.
Qed.

(** ** IEEE 754 addition is monotone on non-negative doubles *)

Section Binary64Facts.

Import Binary64.
Local Open Scope Z_scope.

Lemma digits_bounds n : 0 < n -> 2 ^ (digits n - 1) <= n < 2 ^ digits n.
Proof.
  intros Hn. unfold digits. replace (Z.log2 n + 1 - 1) with (Z.log2 n) by lia.
  destruct (Z.log2_spec n Hn) as [H1 H2]. split; [done|].
  by replace (Z.log2 n + 1) with (Z.succ (Z.log2 n)) by lia.
Qed.

Lemma digits_pos n : 1 <= digits n.
Proof. unfold digits. pose proof (Z.log2_nonneg n). lia. Qed.

Lemma digits_mono n1 n2 : n1 <= n2 -> digits n1 <= digits n2.
Proof. intros H. unfold digits. pose proof (Z.log2_le_mono n1 n2 H). lia. Qed.

Lemma digits_shift m j : 0 < m -> 0 <= j -> digits (m * 2 ^ j) = digits m + j.
Proof. intros Hm Hj. unfold digits. rewrite Z.log2_mul_pow2 by lia. lia. Qed.

Lemma shift_of_nonneg n : 0 <= shift_of n.
Proof. unfold shift_of. lia. Qed.

Lemma round_up_range q r k : 0 <= round_up q r k <= 1.
Proof. unfold round_up. repeat case_match; lia. Qed.

Lemma round_up_mono q r1 r2 k : r1 <= r2 -> round_up q r1 k <= round_up q r2 k.
Proof.
  intros H. unfold round_up.
  destruct (Z.ltb_spec (2 * r1) (2 ^ k)), (Z.ltb_spec (2 * r2) (2 ^ k)),
    (Z.ltb_spec (2 ^ k) (2 * r1)), (Z.ltb_spec (2 ^ k) (2 * r2)),
    (Z.even q); lia.
Qed.

Lemma round_even_lower n : 0 <= n -> n / 2 ^ shift_of n * 2 ^ shift_of n <= round_even n.
Proof.
  intros Hn. unfold round_even. cbv zeta.
  pose proof (round_up_range (n / 2 ^ shift_of n) (n mod 2 ^ shift_of n) (shift_of n)).
  assert (0 < 2 ^ shift_of n) by (apply Z.pow_pos_nonneg; [lia | apply shift_of_nonneg]).
  nia.
Qed.

Lemma round_even_upper n :
  0 <= n -> round_even n <= (n / 2 ^ shift_of n + 1) * 2 ^ shift_of n.
Proof.
  intros Hn. unfold round_even. cbv zeta.
  pose proof (round_up_range (n / 2 ^ shift_of n) (n mod 2 ^ shift_of n) (shift_of n)).
  assert (0 < 2 ^ shift_of n) by (apply Z.pow_pos_nonneg; [lia | apply shift_of_nonneg]).
  nia.
Qed.

Lemma round_even_mono n1 n2 : 0 < n1 -> n1 <= n2 -> round_even n1 <= round_even n2.
Proof.
  intros Hpos Hle.
  pose proof (digits_mono _ _ Hle) as Hd.
  destruct (Z.eq_dec (shift_of n1) (shift_of n2)) as [Hk|Hk].
  - unfold round_even. cbv zeta. rewrite <- Hk.
    set (k := shift_of n1).
    assert (Hk0 : 0 < 2 ^ k) by (apply Z.pow_pos_nonneg; [lia | apply shift_of_nonneg]).
    pose proof (Z.div_le_mono n1 n2 (2 ^ k) Hk0 Hle) as Hq.
    pose proof (Z.div_mod n1 (2 ^ k) ltac:(lia)) as E1.
    pose proof (Z.div_mod n2 (2 ^ k) ltac:(lia)) as E2.
    pose proof (Z.mod_pos_bound n1 (2 ^ k) Hk0) as B1.
    pose proof (Z.mod_pos_bound n2 (2 ^ k) Hk0) as B2.
    pose proof (round_up_range (n1 / 2 ^ k) (n1 mod 2 ^ k) k) as R1.
    pose proof (round_up_range (n2 / 2 ^ k) (n2 mod 2 ^ k) k) as R2.
    destruct (Z.eq_dec (n1 / 2 ^ k) (n2 / 2 ^ k)) as [Hqe|Hqne].
    + rewrite <- Hqe in *.
      assert (n1 mod 2 ^ k <= n2 mod 2 ^ k) as Hr by nia.
      pose proof (round_up_mono (n1 / 2 ^ k) _ _ k Hr). nia.
    + nia.
  - assert (Hlt : shift_of n1 < shift_of n2) by (unfold shift_of in *; lia).
    assert (Hd2 : shift_of n2 = digits n2 - 53) by (unfold shift_of in *; lia).
    assert (Hd1 : digits n1 - 53 <= shift_of n1) by (unfold shift_of; lia).
    pose proof (shift_of_nonneg n1) as Hk1.
    pose proof (digits_pos n1) as Hp1.
    destruct (digits_bounds n1 Hpos) as [_ Hu1].
    destruct (digits_bounds n2 ltac:(lia)) as [Hl2 _].
    eapply Z.le_trans; [apply round_even_upper; lia|].
    eapply Z.le_trans; [|apply round_even_lower; lia].
    (* (q1 + 1) 2^k1 <= 2^d1 <= 2^(d2-1) <= q2 2^k2 *)
    assert (Hk10 : 0 < 2 ^ shift_of n1) by (apply Z.pow_pos_nonneg; lia).
    assert (Hk20 : 0 < 2 ^ shift_of n2) by (apply Z.pow_pos_nonneg; lia).
    assert (Hk1d : shift_of n1 <= digits n1) by (unfold shift_of; lia).
    assert (A : (n1 / 2 ^ shift_of n1 + 1) * 2 ^ shift_of n1 <= 2 ^ digits n1).
    { replace (digits n1) with ((digits n1 - shift_of n1) + shift_of n1) by lia.
      rewrite Z.pow_add_r by lia.
      apply Z.mul_le_mono_nonneg_r; [lia|].
      assert (n1 / 2 ^ shift_of n1 < 2 ^ (digits n1 - shift_of n1)); [|lia].
      apply Z.div_lt_upper_bound; [lia|].
      rewrite <- Z.pow_add_r by lia.
      by replace (shift_of n1 + (digits n1 - shift_of n1)) with (digits n1) by lia. }
    assert (B : 2 ^ (digits n2 - 1) <= n2 / 2 ^ shift_of n2 * 2 ^ shift_of n2).
    { replace (digits n2 - 1) with (52 + shift_of n2) by lia.
      rewrite Z.pow_add_r by lia.
      apply Z.mul_le_mono_nonneg_r; [lia|].
      apply Z.div_le_lower_bound; [lia|].
      rewrite <- Z.pow_add_r by lia.
      by replace (shift_of n2 + 52) with (digits n2 - 1) by lia. }
    assert (C : 2 ^ digits n1 <= 2 ^ (digits n2 - 1))
      by (apply Z.pow_le_mono_r; lia).
    lia.
Qed.

Lemma round_even_exact n :
  0 <= n -> n mod 2 ^ shift_of n = 0 -> round_even n = n.
Proof.
  intros Hn Hr. unfold round_even. cbv zeta. rewrite Hr.
  assert (0 < 2 ^ shift_of n) by (apply Z.pow_pos_nonneg; [lia | apply shift_of_nonneg]).
  unfold round_up. destruct (Z.ltb_spec (2 * 0) (2 ^ shift_of n)); [|lia].
  pose proof (Z.div_mod n (2 ^ shift_of n) ltac:(lia)). lia.
Qed.

Lemma digits2_pos_digits p : Zpos (SpecFloat.digits2_pos p) = digits (Zpos p).
Proof.
  unfold digits. induction p as [p IH|p IH|]; simpl SpecFloat.digits2_pos.
  - rewrite Pos2Z.inj_succ, IH. rewrite Pos2Z.inj_xI.
    rewrite Z.log2_succ_double by lia. lia.
  - rewrite Pos2Z.inj_succ, IH. rewrite Pos2Z.inj_xO.
    rewrite Z.log2_double by lia. lia.
  - reflexivity.
Qed.

Lemma iter_pos_nat {A} (f : A -> A) p x :
  SpecFloat.iter_pos f p x = Nat.iter (Pos.to_nat p) f x.
Proof.
  revert x. induction p as [p IH|p IH|]; intros x; simpl SpecFloat.iter_pos.
  - rewrite !IH, Pos2Nat.inj_xI. simpl Nat.iter.
    rewrite Nat.add_0_r, Nat.iter_add, <- Nat.iter_swap. by rewrite <- Nat.iter_swap.
  - rewrite !IH, Pos2Nat.inj_xO. simpl Nat.mul.
    by rewrite Nat.add_0_r, Nat.iter_add.
  - reflexivity.
Qed.

Lemma pos_iter_xO m d : Zpos (Pos.iter xO m d) = Zpos m * 2 ^ Zpos d.
Proof.
  induction d as [|d IH] using Pos.peano_ind.
  - simpl. lia.
  - rewrite Pos.iter_succ, Pos2Z.inj_xO, IH, Pos2Z.inj_succ, Z.pow_succ_r by lia. lia.
Qed.

Lemma shr_1_nonneg m r s :
  0 <= m ->
  SpecFloat.shr_1 (SpecFloat.Build_shr_record m r s) =
  SpecFloat.Build_shr_record (m / 2) (Z.odd m) (r || s).
Proof.
  intros Hm. destruct m as [|[p|p|]|p]; try lia; simpl SpecFloat.shr_1; f_equal.
  - rewrite Pos2Z.inj_xI. apply Z.div_unique with 1; lia.
  - rewrite Pos2Z.inj_xO. apply Z.div_unique with 0; lia.
Qed.

Lemma mod_pow2_succ m j :
  0 <= j -> m mod 2 ^ (j + 1) = m mod 2 ^ j + 2 ^ j * ((m / 2 ^ j) mod 2).
Proof.
  intros Hj. rewrite Z.pow_add_r by lia. change (2 ^ 1) with 2.
  apply Z.rem_mul_r; [|lia]. apply Z.pow_nonzero; lia.
Qed.

Lemma iter_shr_1 m0 j :
  0 <= m0 ->
  Nat.iter j SpecFloat.shr_1 (SpecFloat.Build_shr_record m0 false false) = shifted m0 j.
Proof.
  intros Hm. induction j as [|j IH].
  - simpl. unfold shifted. simpl. by rewrite Z.div_1_r.
  - simpl Nat.iter. rewrite IH. unfold shifted at 1.
    assert (Hp : 0 < 2 ^ Z.of_nat j) by (apply Z.pow_pos_nonneg; lia).
    rewrite shr_1_nonneg by (apply Z.div_pos; lia).
    unfold shifted. f_equal.
    + rewrite Z.div_div by lia. f_equal.
      rewrite Nat2Z.inj_succ, Z.pow_succ_r by lia. lia.
    + destruct j as [|j]; [simpl; by rewrite Z.mod_1_r|].
      rewrite (Nat2Z.inj_succ j).
      replace (Z.succ (Z.of_nat j)) with (Z.of_nat j + 1) by lia.
      rewrite (mod_pow2_succ m0 (Z.of_nat j)) by lia.
      assert (Hq : 0 < 2 ^ Z.of_nat j) by (apply Z.pow_pos_nonneg; lia).
      pose proof (Z.mod_pos_bound m0 (2 ^ Z.of_nat j) Hq) as Hb.
      rewrite (Zodd_mod (m0 / 2 ^ Z.of_nat j)).
      pose proof (Z.mod_pos_bound (m0 / 2 ^ Z.of_nat j) 2 ltac:(lia)) as Hb2.
      destruct (Z.eqb_spec ((m0 / 2 ^ Z.of_nat j) mod 2) 1) as [E|E],
        (Z.eqb_spec (m0 mod 2 ^ Z.of_nat j) 0) as [E0|E0],
        (Z.eqb_spec (m0 mod 2 ^ Z.of_nat j +
                     2 ^ Z.of_nat j * ((m0 / 2 ^ Z.of_nat j) mod 2)) 0) as [E1|E1];
        simpl; try reflexivity; exfalso; nia.
Qed.

(** Rounding the shifted record is [round_up] on quotient and remainder. *)
Lemma round_shifted m0 j :
  0 <= m0 ->
  SpecFloat.round_nearest_even (SpecFloat.shr_m (shifted m0 j))
    (SpecFloat.loc_of_shr_record (shifted m0 j)) =
  m0 / 2 ^ Z.of_nat j + round_up (m0 / 2 ^ Z.of_nat j) (m0 mod 2 ^ Z.of_nat j) (Z.of_nat j).
Proof.
  intros Hm. destruct j as [|j].
  - simpl. rewrite Z.mod_1_r. unfold round_up. simpl. lia.
  - unfold shifted. cbn [SpecFloat.shr_m SpecFloat.loc_of_shr_record].
    rewrite (Nat2Z.inj_succ j).
    replace (Z.succ (Z.of_nat j)) with (Z.of_nat j + 1) by lia.
    set (q := m0 / 2 ^ (Z.of_nat j + 1)).
    rewrite (mod_pow2_succ m0 (Z.of_nat j)) by lia.
    assert (Hq : 0 < 2 ^ Z.of_nat j) by (apply Z.pow_pos_nonneg; lia).
    pose proof (Z.mod_pos_bound m0 (2 ^ Z.of_nat j) Hq) as Hb.
    rewrite (Zodd_mod (m0 / 2 ^ Z.of_nat j)).
    pose proof (Z.mod_pos_bound (m0 / 2 ^ Z.of_nat j) 2 ltac:(lia)) as Hb2.
    unfold round_up. rewrite (Z.pow_add_r 2 (Z.of_nat j) 1) by lia. change (2 ^ 1) with 2.
    destruct (Z.eqb_spec ((m0 / 2 ^ Z.of_nat j) mod 2) 1) as [E|E];
      destruct (Z.eqb_spec (m0 mod 2 ^ Z.of_nat j) 0) as [E0|E0];
      cbn [negb SpecFloat.round_nearest_even];
      repeat match goal with
             | |- context [Z.ltb ?a ?b] => destruct (Z.ltb_spec a b)
             end; try nia; try (destruct (Z.even q); lia).
Qed.

Lemma fexp64 e : SpecFloat.fexp FloatOps.prec FloatOps.emax e = Z.max (e - 53) (-1074).
Proof. reflexivity. Qed.

Lemma Zdigits2_digits m : 0 < m -> SpecFloat.Zdigits2 m = digits m.
Proof. destruct m as [|p|p]; try lia. intros _. apply digits2_pos_digits. Qed.

Lemma shr_fexp_exact m e :
  0 < m ->
  SpecFloat.shr_fexp FloatOps.prec FloatOps.emax m e SpecFloat.loc_Exact =
  (shifted m (Z.to_nat (Z.max (Z.max (digits m + e - 53) (-1074) - e) 0)),
   e + Z.max (Z.max (digits m + e - 53) (-1074) - e) 0).
Proof.
  intros Hm. unfold SpecFloat.shr_fexp. rewrite fexp64, Zdigits2_digits by done.
  cbn [SpecFloat.shr_record_of_loc].
  destruct (Z.max (digits m + e - 53) (-1074) - e) as [|p|p] eqn:Hn;
    cbn [SpecFloat.shr].
  - rewrite Z.max_id. simpl Z.to_nat. unfold shifted. simpl.
    by rewrite Z.div_1_r, Z.add_0_r.
  - rewrite Z.max_l by lia. rewrite iter_pos_nat, iter_shr_1 by lia.
    by rewrite Z2Nat.inj_pos.
  - rewrite Z.max_r by lia. simpl Z.to_nat. unfold shifted. simpl.
    by rewrite Z.div_1_r, Z.add_0_r.
Qed.

Lemma binary_round_aux_unfold mz ez :
  let n1 := Z.max (Z.max (digits (Zpos mz) + ez - 53) (-1074) - ez) 0 in
  let q1 := Zpos mz / 2 ^ n1 in
  let m2 := q1 + round_up q1 (Zpos mz mod 2 ^ n1) n1 in
  let e1 := ez + n1 in
  let n2 := Z.max (Z.max (digits m2 + e1 - 53) (-1074) - e1) 0 in
  0 < q1 ->
  SpecFloat.binary_round_aux FloatOps.prec FloatOps.emax false (Zpos mz) ez
    SpecFloat.loc_Exact =
  match m2 / 2 ^ n2 with
  | Z0 => SpecFloat.S754_zero false
  | Zpos m =>
    if e1 + n2 <=? 971 then SpecFloat.S754_finite false m (e1 + n2)
    else SpecFloat.S754_infinity false
  | Zneg _ => SpecFloat.S754_nan
  end.
Proof.
  intros n1 q1 m2 e1 n2 Hq.
  unfold SpecFloat.binary_round_aux.
  rewrite shr_fexp_exact by lia. fold n1. fold e1.
  rewrite round_shifted by lia.
  rewrite Z2Nat.id by (unfold n1; lia). fold q1. fold m2.
  assert (0 < m2).
  { unfold m2. pose proof (round_up_range q1 (Z.pos mz mod 2 ^ n1) n1). lia. }
  rewrite shr_fexp_exact by done. fold n2.
  unfold shifted. cbn [SpecFloat.shr_m].
  rewrite Z2Nat.id by (unfold n2; lia).
  reflexivity.
Qed.

Lemma round_up_scale q r k t :
  0 <= k -> 0 <= t -> round_up q (r * 2 ^ t) (k + t) = round_up q r k.
Proof.
  intros Hk Ht. unfold round_up. rewrite Z.pow_add_r by lia.
  assert (0 < 2 ^ t) by (apply Z.pow_pos_nonneg; lia).
  destruct (Z.ltb_spec (2 * (r * 2 ^ t)) (2 ^ k * 2 ^ t)),
    (Z.ltb_spec (2 * r) (2 ^ k)),
    (Z.ltb_spec (2 ^ k * 2 ^ t) (2 * (r * 2 ^ t))),
    (Z.ltb_spec (2 ^ k) (2 * r)); try reflexivity; nia.
Qed.

Lemma binary_round_aux_scaled mz ez :
  -1074 <= ez ->
  ez <= Z.max (digits (Zpos mz) + ez - 53) (-1074) ->
  scaled (SpecFloat.binary_round_aux FloatOps.prec FloatOps.emax false (Zpos mz) ez
            SpecFloat.loc_Exact) =
    clamp (round_even (Zpos mz * 2 ^ (ez + 1074))) /\
  0 <= scaled (SpecFloat.binary_round_aux FloatOps.prec FloatOps.emax false (Zpos mz) ez
            SpecFloat.loc_Exact).
Proof.
  intros He Hfexp.
  set (d := digits (Zpos mz)) in *.
  set (e' := Z.max (d + ez - 53) (-1074)) in *.
  set (n1 := e' - ez).
  assert (Hn1 : 0 <= n1) by (unfold n1; lia).
  destruct (digits_bounds (Zpos mz) ltac:(lia)) as [Hlo Hhi]. fold d in Hlo, Hhi.
  pose proof (digits_pos (Zpos mz)) as Hd1. fold d in Hd1.
  set (q1 := Zpos mz / 2 ^ n1).
  assert (Hp1 : 0 < 2 ^ n1) by (apply Z.pow_pos_nonneg; lia).
  (* the quotient has at most 53 bits, and exactly 53 above the subnormal range *)
  assert (Hq1 : 1 <= q1 < 2 ^ 53 /\ (-1074 < e' -> 2 ^ 52 <= q1)).
  { destruct (Z.max_spec (d + ez - 53) (-1074)) as [[Hlt Hmax]|[Hge Hmax]]; fold e' in Hmax.
    - (* e' = -1074 : n1 = 0 and d <= 53 *)
      assert (n1 = 0) as Hz by (unfold n1; lia).
      unfold q1. rewrite Hz. simpl (2 ^ 0). rewrite Z.div_1_r.
      split; [|lia]. split; [lia|].
      eapply Z.lt_le_trans; [exact Hhi|]. apply Z.pow_le_mono_r; lia.
    - assert (n1 = d - 53) as Hz by (unfold n1; lia).
      assert (2 ^ 52 <= q1 < 2 ^ 53); [|lia].
      unfold q1. rewrite Hz. split.
      + apply Z.div_le_lower_bound; [rewrite <- Hz; lia|].
        rewrite <- Z.pow_add_r by lia.
        by replace (d - 53 + 52) with (d - 1) by lia.
      + apply Z.div_lt_upper_bound; [rewrite <- Hz; lia|].
        rewrite <- Z.pow_add_r by lia.
        by replace (d - 53 + 53) with d by lia. }
  destruct Hq1 as [Hq1 Hq1n].
  pose proof (binary_round_aux_unfold mz ez) as Hunf. cbv zeta in Hunf.
  fold d in Hunf. fold e' in Hunf. fold n1 in Hunf.
  rewrite (Z.max_l n1 0) in Hunf by lia. fold q1 in Hunf.
  replace (ez + n1) with e' in Hunf by (unfold n1; lia).
  set (m2 := q1 + round_up q1 (Zpos mz mod 2 ^ n1) n1) in *.
  rewrite Hunf by lia. clear Hunf.
  pose proof (round_up_range q1 (Zpos mz mod 2 ^ n1) n1) as Hru.
  assert (Hm2 : q1 <= m2 <= 2 ^ 53) by (unfold m2; lia).
  (* the rounded value in units of 2^-1074 *)
  assert (Hre : round_even (Zpos mz * 2 ^ (ez + 1074)) = m2 * 2 ^ (e' + 1074)).
  { unfold round_even. cbv zeta.
    assert (Hk : shift_of (Zpos mz * 2 ^ (ez + 1074)) = n1 + (ez + 1074)).
    { unfold shift_of. rewrite digits_shift by lia. fold d. unfold n1, e'. lia. }
    rewrite Hk. replace (e' + 1074) with (n1 + (ez + 1074)) by (unfold n1; lia).
    assert (Ht : 0 < 2 ^ (ez + 1074)) by (apply Z.pow_pos_nonneg; lia).
    rewrite (Z.pow_add_r 2 n1 (ez + 1074)) by lia.
    rewrite Z.div_mul_cancel_r by lia. fold q1.
    rewrite Z.mul_mod_distr_r by lia.
    rewrite <- (Z.pow_add_r 2 n1 (ez + 1074)) by lia.
    rewrite round_up_scale by lia. reflexivity. }
  rewrite Hre.
  assert (Hpe : 0 < 2 ^ (e' + 1074)) by (apply Z.pow_pos_nonneg; lia).
  destruct (Z.eq_dec m2 (2 ^ 53)) as [Hfull|Hnot].
  - (* the mantissa overflowed to 2^53: one more shift *)
    assert (Hd2 : digits m2 = 54) by (rewrite Hfull; reflexivity).
    rewrite Hd2. replace (Z.max (Z.max (54 + e' - 53) (-1074) - e') 0) with 1 by lia.
    rewrite Hfull. change (2 ^ 53 / 2 ^ 1) with (Zpos (2 ^ 52)).
    unfold clamp, OVERFLOW.
    destruct (Z.leb_spec (e' + 1) 971) as [Hfin|Hinf].
    + cbn [scaled]. replace (e' + 1 + 1074) with (1 + (e' + 1074)) by lia.
      rewrite (Z.pow_add_r 2 1 (e' + 1074)) by lia.
      change (Zpos (2 ^ 52)) with (2 ^ 52). change (2 ^ 1) with 2.
      replace (2 ^ 52 * (2 * 2 ^ (e' + 1074))) with (2 ^ 53 * 2 ^ (e' + 1074)) by lia.
      assert (2 ^ 53 * 2 ^ (e' + 1074) < 2 ^ 2098) as Hlt.
      { rewrite <- Z.pow_add_r by lia. apply Z.pow_lt_mono_r; lia. }
      destruct (Z.ltb_spec (2 ^ 53 * 2 ^ (e' + 1074)) (2 ^ 2098)); [|lia].
      split; [reflexivity | lia].
    + cbn [scaled].
      assert (2 ^ 2098 <= 2 ^ 53 * 2 ^ (e' + 1074)) as Hge.
      { rewrite <- Z.pow_add_r by lia. apply Z.pow_le_mono_r; lia. }
      destruct (Z.ltb_spec (2 ^ 53 * 2 ^ (e' + 1074)) (2 ^ 2098)); [lia|].
      split; [reflexivity | unfold INF; lia].
  - assert (Hm2' : 1 <= m2 < 2 ^ 53) by lia.
    assert (Hd2 : digits m2 <= 53).
    { destruct (digits_bounds m2 ltac:(lia)) as [Hl _].
      destruct (Z.le_gt_cases (digits m2) 53) as [?|Hgt]; [done|].
      assert (2 ^ 53 <= 2 ^ (digits m2 - 1)) by (apply Z.pow_le_mono_r; lia). lia. }
    replace (Z.max (Z.max (digits m2 + e' - 53) (-1074) - e') 0) with 0
      by (unfold e'; lia).
    simpl (2 ^ 0). rewrite Z.div_1_r, Z.add_0_r.
    destruct m2 as [|p2|p2] eqn:Hp2; try lia.
    unfold clamp, OVERFLOW.
    destruct (Z.leb_spec e' 971) as [Hfin|Hinf].
    + cbn [scaled].
      assert (Zpos p2 * 2 ^ (e' + 1074) < 2 ^ 2098) as Hlt.
      { eapply Z.lt_le_trans; [apply Z.mul_lt_mono_pos_r; [lia | apply Hm2']|].
        rewrite <- Z.pow_add_r by lia. apply Z.pow_le_mono_r; lia. }
      destruct (Z.ltb_spec (Zpos p2 * 2 ^ (e' + 1074)) (2 ^ 2098)); [|lia].
      split; [reflexivity | lia].
    + cbn [scaled].
      assert (2 ^ 2098 <= Zpos p2 * 2 ^ (e' + 1074)) as Hge.
      { eapply Z.le_trans; [|apply Z.mul_le_mono_nonneg_r; [lia|]].
        2: { eapply Z.le_trans; [apply Hq1n; lia | apply Hm2]. }
        rewrite <- Z.pow_add_r by lia. apply Z.pow_le_mono_r; lia. }
      destruct (Z.ltb_spec (Zpos p2 * 2 ^ (e' + 1074)) (2 ^ 2098)); [lia|].
      split; [reflexivity | unfold INF; lia].
Qed.

Lemma binary_round_scaled mx ex :
  -1074 <= ex ->
  scaled (SpecFloat.binary_round FloatOps.prec FloatOps.emax false mx ex) =
    clamp (round_even (Zpos mx * 2 ^ (ex + 1074))) /\
  0 <= scaled (SpecFloat.binary_round FloatOps.prec FloatOps.emax false mx ex).
Proof.
  intros He. unfold SpecFloat.binary_round.
  rewrite fexp64, digits2_pos_digits. unfold SpecFloat.shl_align.
  destruct (Z.max (digits (Zpos mx) + ex - 53) (-1074) - ex) as [|p|p] eqn:Hn.
  - apply binary_round_aux_scaled; lia.
  - apply binary_round_aux_scaled; lia.
  - set (e' := Z.max (digits (Zpos mx) + ex - 53) (-1074)) in *.
    assert (Hz : Zpos (Pos.iter xO mx p) = Zpos mx * 2 ^ Zpos p) by apply pos_iter_xO.
    replace (Zpos mx * 2 ^ (ex + 1074)) with (Zpos (Pos.iter xO mx p) * 2 ^ (e' + 1074)).
    + apply binary_round_aux_scaled; [unfold e'; lia|].
      rewrite Hz, digits_shift by lia. unfold e'. lia.
    + rewrite Hz, <- Z.mul_assoc, <- Z.pow_add_r by (unfold e'; lia).
      do 2 f_equal. lia.
Qed.

Lemma shl_align_fst mx ex ez :
  ez <= ex -> Zpos (fst (SpecFloat.shl_align mx ex ez)) = Zpos mx * 2 ^ (ex - ez).
Proof.
  intros Hle. unfold SpecFloat.shl_align.
  destruct (ez - ex) as [|p|p] eqn:Hd; cbn [fst].
  - replace (ex - ez) with 0 by lia. lia.
  - lia.
  - rewrite pos_iter_xO. do 2 f_equal. lia.
Qed.

Lemma SFadd_finite mx ex my ey :
  -1074 <= ex -> -1074 <= ey ->
  scaled (SpecFloat.SFadd FloatOps.prec FloatOps.emax
            (SpecFloat.S754_finite false mx ex) (SpecFloat.S754_finite false my ey)) =
    clamp (round_even (Zpos mx * 2 ^ (ex + 1074) + Zpos my * 2 ^ (ey + 1074))) /\
  0 <= scaled (SpecFloat.SFadd FloatOps.prec FloatOps.emax
            (SpecFloat.S754_finite false mx ex) (SpecFloat.S754_finite false my ey)).
Proof.
  intros Hx Hy. cbn [SpecFloat.SFadd SpecFloat.cond_Zopp].
  set (ez := Z.min ex ey).
  pose proof (shl_align_fst mx ex ez ltac:(unfold ez; lia)) as Ex.
  pose proof (shl_align_fst my ey ez ltac:(unfold ez; lia)) as Ey.
  set (ax := fst (SpecFloat.shl_align mx ex ez)) in *.
  set (ay := fst (SpecFloat.shl_align my ey ez)) in *.
  change (Zpos ax + Zpos ay) with (Zpos (ax + ay)).
  cbn [SpecFloat.binary_normalize].
  replace (Zpos mx * 2 ^ (ex + 1074) + Zpos my * 2 ^ (ey + 1074))
    with (Zpos (ax + ay) * 2 ^ (ez + 1074)).
  - apply binary_round_scaled. unfold ez. lia.
  - rewrite Pos2Z.inj_add, Ex, Ey, Z.mul_add_distr_r.
    rewrite <- !Z.mul_assoc, <- !Z.pow_add_r by (unfold ez; lia).
    do 2 f_equal; f_equal; lia.
Qed.

(** A valid finite double: canonical mantissa, exponent in range. *)
Lemma valid_finite s m e :
  SpecFloat.valid_binary FloatOps.prec FloatOps.emax (SpecFloat.S754_finite s m e) = true ->
  e = Z.max (digits (Zpos m) + e - 53) (-1074) /\ e <= 971.
Proof.
  cbn [SpecFloat.valid_binary]. unfold SpecFloat.bounded, SpecFloat.canonical_mantissa.
  rewrite fexp64, digits2_pos_digits. intros [H1 H2]%andb_true_iff.
  apply Z.eqb_eq in H1. apply Z.leb_le in H2. split; [lia | exact H2].
Qed.

Lemma valid_finite_bounds s m e :
  SpecFloat.valid_binary FloatOps.prec FloatOps.emax (SpecFloat.S754_finite s m e) = true ->
  -1074 <= e <= 971 /\ Zpos m < 2 ^ 53 /\ (-1074 < e -> 2 ^ 52 <= Zpos m).
Proof.
  intros [Hc He]%valid_finite.
  destruct (digits_bounds (Zpos m) ltac:(lia)) as [Hlo Hhi].
  pose proof (digits_pos (Zpos m)).
  split; [lia|]. split.
  - eapply Z.lt_le_trans; [exact Hhi|]. apply Z.pow_le_mono_r; lia.
  - intros Hn. assert (digits (Zpos m) = 53) as Hd by lia.
    by rewrite Hd in Hlo.
Qed.

(** A valid non-negative double is +infinity or a number below the overflow
    threshold on which rounding does nothing. *)
Lemma scaled_representable x :
  SpecFloat.valid_binary FloatOps.prec FloatOps.emax x = true ->
  0 <= scaled x ->
  scaled x = INF \/ (scaled x < OVERFLOW /\ round_even (scaled x) = scaled x).
Proof.
  intros Hv Hn. destruct x as [s|[|]| |[|] m e]; cbn [scaled] in *;
    try (exfalso; lia); try (by left).
  - right. split; reflexivity.
  - right. pose proof (valid_finite _ _ _ Hv) as [Hc _].
    destruct (valid_finite_bounds _ _ _ Hv) as ([He1 He2] & Hm & _).
    assert (0 < 2 ^ (e + 1074)) by (apply Z.pow_pos_nonneg; lia).
    split.
    + unfold OVERFLOW.
      eapply Z.lt_le_trans; [apply Z.mul_lt_mono_pos_r; [lia | exact Hm]|].
      rewrite <- Z.pow_add_r by lia. apply Z.pow_le_mono_r; lia.
    + apply round_even_exact; [lia|].
      assert (Hk : shift_of (Zpos m * 2 ^ (e + 1074)) = e + 1074).
      { unfold shift_of. rewrite digits_shift by lia. lia. }
      rewrite Hk. apply Z.mod_mul. lia.
Qed.

Lemma SFleb_scaled x y :
  SpecFloat.valid_binary FloatOps.prec FloatOps.emax x = true ->
  SpecFloat.valid_binary FloatOps.prec FloatOps.emax y = true ->
  0 <= scaled x -> 0 <= scaled y ->
  SpecFloat.SFleb x y = (scaled x <=? scaled y).
Proof.
  intros Hvx Hvy Hx Hy.
  destruct (scaled_representable x Hvx Hx) as [Hxi|[Hxf _]];
    destruct (scaled_representable y Hvy Hy) as [Hyi|[Hyf _]].
  - destruct x as [s|[|]| |[|] m e], y as [s'|[|]| |[|] m' e'];
      cbn [scaled] in *; try (exfalso; unfold INF, OVERFLOW in *; lia);
      try reflexivity.
    + exfalso. destruct (valid_finite_bounds _ _ _ Hvy) as ([? ?] & Hm & _).
      assert (Zpos m' * 2 ^ (e' + 1074) < 2 ^ 2098).
      { eapply Z.lt_le_trans; [apply Z.mul_lt_mono_pos_r; [|exact Hm]|].
        - apply Z.pow_pos_nonneg; lia.
        - rewrite <- Z.pow_add_r by lia. apply Z.pow_le_mono_r; lia. }
      unfold INF in *. lia.
    + exfalso. destruct (valid_finite_bounds _ _ _ Hvx) as ([? ?] & Hm & _).
      assert (Zpos m * 2 ^ (e + 1074) < 2 ^ 2098).
      { eapply Z.lt_le_trans; [apply Z.mul_lt_mono_pos_r; [|exact Hm]|].
        - apply Z.pow_pos_nonneg; lia.
        - rewrite <- Z.pow_add_r by lia. apply Z.pow_le_mono_r; lia. }
      unfold INF in *. lia.
    + exfalso. destruct (valid_finite_bounds _ _ _ Hvx) as ([? ?] & Hm & _).
      assert (Zpos m * 2 ^ (e + 1074) < 2 ^ 2098).
      { eapply Z.lt_le_trans; [apply Z.mul_lt_mono_pos_r; [|exact Hm]|].
        - apply Z.pow_pos_nonneg; lia.
        - rewrite <- Z.pow_add_r by lia. apply Z.pow_le_mono_r; lia. }
      unfold INF in *. lia.
  - (* x = +inf, y finite *)
    rewrite Hxi. destruct (Z.leb_spec INF (scaled y)) as [H|_];
      [unfold INF, OVERFLOW in *; lia|].
    destruct x as [s|[|]| |[|] m e]; cbn [scaled] in *;
      try (exfalso; unfold INF, OVERFLOW in *; lia).
    + destruct y as [s'|[|]| |[|] m' e']; cbn [scaled] in *;
        try (exfalso; unfold INF, OVERFLOW in *; lia); reflexivity.
    + exfalso. destruct (valid_finite_bounds _ _ _ Hvx) as ([? ?] & Hm & _).
      assert (Zpos m * 2 ^ (e + 1074) < 2 ^ 2098).
      { eapply Z.lt_le_trans; [apply Z.mul_lt_mono_pos_r; [|exact Hm]|].
        - apply Z.pow_pos_nonneg; lia.
        - rewrite <- Z.pow_add_r by lia. apply Z.pow_le_mono_r; lia. }
      unfold INF in *. lia.
  - (* x finite, y = +inf *)
    rewrite Hyi. destruct (Z.leb_spec (scaled x) INF) as [_|H];
      [|unfold INF, OVERFLOW in *; lia].
    destruct y as [s'|[|]| |[|] m' e']; cbn [scaled] in *;
      try (exfalso; unfold INF, OVERFLOW in *; lia).
    + destruct x as [s|[|]| |[|] m e]; cbn [scaled] in *;
        try (exfalso; unfold INF, OVERFLOW in *; lia); reflexivity.
    + exfalso. destruct (valid_finite_bounds _ _ _ Hvy) as ([? ?] & Hm & _).
      assert (Zpos m' * 2 ^ (e' + 1074) < 2 ^ 2098).
      { eapply Z.lt_le_trans; [apply Z.mul_lt_mono_pos_r; [|exact Hm]|].
        - apply Z.pow_pos_nonneg; lia.
        - rewrite <- Z.pow_add_r by lia. apply Z.pow_le_mono_r; lia. }
      unfold INF in *. lia.
  - (* both finite or zero *)
    destruct x as [s|[|]| |[|] m e], y as [s'|[|]| |[|] m' e'];
      cbn [scaled] in *; try (exfalso; unfold INF, OVERFLOW in *; lia).
    + reflexivity.
    + unfold SpecFloat.SFleb. cbn [SpecFloat.SFcompare]. symmetry. apply Z.leb_le.
      assert (0 < 2 ^ (e' + 1074)); [|lia].
      destruct (valid_finite_bounds _ _ _ Hvy) as ([? ?] & _). apply Z.pow_pos_nonneg; lia.
    + unfold SpecFloat.SFleb. cbn [SpecFloat.SFcompare]. symmetry. apply Z.leb_gt.
      assert (0 < 2 ^ (e + 1074)); [|lia].
      destruct (valid_finite_bounds _ _ _ Hvx) as ([? ?] & _). apply Z.pow_pos_nonneg; lia.
    + destruct (valid_finite_bounds _ _ _ Hvx) as ([Hx1 Hx2] & Hmx & Hnx).
      destruct (valid_finite_bounds _ _ _ Hvy) as ([Hy1 Hy2] & Hmy & Hny).
      assert (Hpx : 0 < 2 ^ (e + 1074)) by (apply Z.pow_pos_nonneg; lia).
      assert (Hpy : 0 < 2 ^ (e' + 1074)) by (apply Z.pow_pos_nonneg; lia).
      unfold SpecFloat.SFleb. cbn [SpecFloat.SFcompare].
      destruct (Z.compare_spec e e') as [Heq|Hlt|Hgt].
      * subst e'. rewrite Pos.compare_cont_spec. cbn [Pos.switch_Eq].
        change (Pos.compare m m') with (Z.compare (Zpos m) (Zpos m')).
        destruct (Z.compare_spec (Zpos m) (Zpos m')) as [E|L|G];
          symmetry; [apply Z.leb_le | apply Z.leb_le | apply Z.leb_gt]; nia.
      * symmetry. apply Z.leb_le.
        assert (Zpos m * 2 ^ (e + 1074) < 2 ^ (53 + (e + 1074))).
        { rewrite (Z.pow_add_r 2 53) by lia. nia. }
        assert (2 ^ (52 + (e' + 1074)) <= Zpos m' * 2 ^ (e' + 1074)).
        { rewrite (Z.pow_add_r 2 52) by lia. specialize (Hny ltac:(lia)). nia. }
        assert (2 ^ (53 + (e + 1074)) <= 2 ^ (52 + (e' + 1074)))
          by (apply Z.pow_le_mono_r; lia).
        lia.
      * symmetry. apply Z.leb_gt.
        assert (Zpos m' * 2 ^ (e' + 1074) < 2 ^ (53 + (e' + 1074))).
        { rewrite (Z.pow_add_r 2 53) by lia. nia. }
        assert (2 ^ (52 + (e + 1074)) <= Zpos m * 2 ^ (e + 1074)).
        { rewrite (Z.pow_add_r 2 52) by lia. specialize (Hnx ltac:(lia)). nia. }
        assert (2 ^ (53 + (e' + 1074)) <= 2 ^ (52 + (e + 1074)))
          by (apply Z.pow_le_mono_r; lia).
        lia.
Qed.

Lemma INF_gt_OVERFLOW : OVERFLOW < INF.
Proof. reflexivity. Qed.

Lemma clamp_le_INF v : clamp v <= INF.
Proof.
  unfold clamp. destruct (Z.ltb_spec v OVERFLOW); [|lia].
  pose proof INF_gt_OVERFLOW. lia.
Qed.

Lemma clamp_mono u v : u <= v -> clamp u <= clamp v.
Proof.
  intros H. unfold clamp. pose proof INF_gt_OVERFLOW.
  destruct (Z.ltb_spec u OVERFLOW), (Z.ltb_spec v OVERFLOW); lia.
Qed.

Lemma round_even_0 : round_even 0 = 0.
Proof. reflexivity. Qed.

Lemma round_even_nonneg n : 0 <= n -> 0 <= round_even n.
Proof.
  intros Hn. eapply Z.le_trans; [|by apply round_even_lower].
  assert (0 < 2 ^ shift_of n) by (apply Z.pow_pos_nonneg; [lia | apply shift_of_nonneg]).
  apply Z.mul_nonneg_nonneg; [|lia]. apply Z.div_pos; lia.
Qed.

Lemma round_even_mono0 n1 n2 : 0 <= n1 -> n1 <= n2 -> round_even n1 <= round_even n2.
Proof.
  intros H0 Hle. destruct (Z.eq_dec n1 0) as [->|Hne].
  - rewrite round_even_0. apply round_even_nonneg. lia.
  - apply round_even_mono; lia.
Qed.

Lemma add_scaled_comm u v : add_scaled u v = add_scaled v u.
Proof. unfold add_scaled. by rewrite orb_comm, Z.add_comm. Qed.

Lemma add_scaled_mono u u' v :
  0 <= u -> u <= u' -> 0 <= v -> add_scaled u v <= add_scaled u' v.
Proof.
  intros Hu Hle Hv. unfold add_scaled.
  destruct (Z.leb_spec INF u), (Z.leb_spec INF u'), (Z.leb_spec INF v);
    cbn [orb]; try lia; try apply clamp_le_INF.
  apply clamp_mono, round_even_mono0; lia.
Qed.

Lemma add_scaled_0_r u :
  (u = INF \/ (u < OVERFLOW /\ round_even u = u)) -> add_scaled u 0 = u.
Proof.
  unfold add_scaled. pose proof INF_gt_OVERFLOW. intros [->|[Hlt Hr]].
  - by rewrite Z.leb_refl.
  - destruct (Z.leb_spec INF u); [lia|].
    destruct (Z.leb_spec INF 0) as [Hi0|_]; [unfold INF in Hi0; lia|].
    cbn [orb]. rewrite Z.add_0_r, Hr. unfold clamp.
    by destruct (Z.ltb_spec u OVERFLOW); [|lia].
Qed.

(** Addition of valid non-negative doubles, on their scaled values. *)
Lemma SFadd_scaled x y :
  SpecFloat.valid_binary FloatOps.prec FloatOps.emax x = true ->
  SpecFloat.valid_binary FloatOps.prec FloatOps.emax y = true ->
  0 <= scaled x -> 0 <= scaled y ->
  scaled (SpecFloat.SFadd FloatOps.prec FloatOps.emax x y) =
    add_scaled (scaled x) (scaled y) /\
  0 <= scaled (SpecFloat.SFadd FloatOps.prec FloatOps.emax x y).
Proof.
  intros Hvx Hvy Hx Hy.
  pose proof (scaled_representable x Hvx Hx) as Hrx.
  pose proof (scaled_representable y Hvy Hy) as Hry.
  pose proof INF_gt_OVERFLOW as Hio.
  assert (H0I : 0 < INF) by reflexivity.
  destruct x as [s|[|]| |[|] m e]; cbn [scaled] in Hx; try (exfalso; lia).
  - (* x = 0 *)
    destruct y as [s'|[|]| |[|] m' e']; cbn [scaled] in Hy; try (exfalso; lia).
    + split; [|by destruct s, s'].
      by destruct s, s'.
    + split; [reflexivity | cbn; lia].
    + cbn [SpecFloat.SFadd]. split; [|done].
      change (scaled (SpecFloat.S754_zero s)) with 0.
      rewrite add_scaled_comm. symmetry. by apply add_scaled_0_r.
  - (* x = +inf *)
    destruct y as [s'|[|]| |[|] m' e']; cbn [scaled] in Hy; try (exfalso; lia);
      (split; [|cbn; lia]); cbn [SpecFloat.SFadd scaled]; unfold add_scaled;
      by rewrite Z.leb_refl.
  - (* x finite *)
    destruct y as [s'|[|]| |[|] m' e']; cbn [scaled] in Hy; try (exfalso; lia).
    + cbn [SpecFloat.SFadd]. split; [|done].
      change (scaled (SpecFloat.S754_zero s')) with 0.
      symmetry. by apply add_scaled_0_r.
    + split; [|cbn; lia]. cbn [SpecFloat.SFadd scaled]. unfold add_scaled.
      by rewrite Z.leb_refl, orb_true_r.
    + destruct (valid_finite_bounds _ _ _ Hvx) as ([? ?] & _).
      destruct (valid_finite_bounds _ _ _ Hvy) as ([? ?] & _).
      destruct (SFadd_finite m e m' e') as [Hs Hn]; try lia.
      split; [|done]. rewrite Hs. cbn [scaled]. unfold add_scaled.
      destruct Hrx as [Hrx|[Hrx _]], Hry as [Hry|[Hry _]]; cbn [scaled] in Hrx, Hry.
      * exfalso. destruct (scaled_representable _ Hvx Hx) as [?|[? _]];
          cbn [scaled] in *.
        -- destruct (valid_finite_bounds _ _ _ Hvx) as ([? ?] & Hm & _).
           assert (Zpos m * 2 ^ (e + 1074) < 2 ^ 2098).
           { eapply Z.lt_le_trans; [apply Z.mul_lt_mono_pos_r; [|exact Hm]|].
             - apply Z.pow_pos_nonneg; lia.
             - rewrite <- Z.pow_add_r by lia. apply Z.pow_le_mono_r; lia. }
           unfold INF in *. lia.
        -- lia.
      * exfalso.
        destruct (valid_finite_bounds _ _ _ Hvx) as ([? ?] & Hm & _).
        assert (Zpos m * 2 ^ (e + 1074) < 2 ^ 2098).
        { eapply Z.lt_le_trans; [apply Z.mul_lt_mono_pos_r; [|exact Hm]|].
          - apply Z.pow_pos_nonneg; lia.
          - rewrite <- Z.pow_add_r by lia. apply Z.pow_le_mono_r; lia. }
        unfold INF in *. lia.
      * exfalso.
        destruct (valid_finite_bounds _ _ _ Hvy) as ([? ?] & Hm & _).
        assert (Zpos m' * 2 ^ (e' + 1074) < 2 ^ 2098).
        { eapply Z.lt_le_trans; [apply Z.mul_lt_mono_pos_r; [|exact Hm]|].
          - apply Z.pow_pos_nonneg; lia.
          - rewrite <- Z.pow_add_r by lia. apply Z.pow_le_mono_r; lia. }
        unfold INF in *. lia.
      * destruct (Z.leb_spec INF (Zpos m * 2 ^ (e + 1074))); [lia|].
        destruct (Z.leb_spec INF (Zpos m' * 2 ^ (e' + 1074))); [lia|].
        reflexivity.
Qed.

Lemma Prim2SF_zero : FloatOps.Prim2SF zero = SpecFloat.S754_zero false.
Proof. reflexivity. Qed.

Lemma fle_zero a : fle zero a <-> 0 <= val a.
Proof.
  unfold fle, val. rewrite FloatAxioms.leb_spec, Prim2SF_zero.
  destruct (FloatOps.Prim2SF a) as [s|[|]| |[|] m e]; cbn; split; try done; try lia.
Qed.

Lemma fle_val a b : 0 <= val a -> 0 <= val b -> (fle a b <-> val a <= val b).
Proof.
  intros Ha Hb. unfold fle. rewrite FloatAxioms.leb_spec.
  rewrite SFleb_scaled; try apply FloatAxioms.Prim2SF_valid; try done.
  apply Z.leb_le.
Qed.

Lemma val_add a c :
  0 <= val a -> 0 <= val c ->
  val (a + c)%float = add_scaled (val a) (val c) /\ 0 <= val (a + c)%float.
Proof.
  intros Ha Hc. unfold val. rewrite FloatAxioms.add_spec.
  apply SFadd_scaled; try apply FloatAxioms.Prim2SF_valid; done.
Qed.

Lemma val_representable a :
  0 <= val a -> val a = INF \/ (val a < OVERFLOW /\ round_even (val a) = val a).
Proof. apply scaled_representable, FloatAxioms.Prim2SF_valid. Qed.

(** Adding a non-negative double never yields a negative one or a NaN. *)
Lemma fadd_nonneg a c : fle zero a -> fle zero c -> fle zero (a + c)%float.
Proof. rewrite !fle_zero. intros Ha Hc. by apply val_add. Qed.

(** IEEE addition is monotone in its first operand on non-negative doubles. *)
Lemma fadd_mono a b c :
  fle zero a -> fle a b -> fle zero b -> fle zero c -> fle (a + c)%float (b + c)%float.
Proof.
  intros Ha Hab Hb Hc. apply fle_zero in Ha as Ha', Hb as Hb', Hc as Hc'.
  destruct (val_add a c Ha' Hc') as [Eac Nac].
  destruct (val_add b c Hb' Hc') as [Ebc Nbc].
  apply fle_val; try done. rewrite Eac, Ebc.
  apply add_scaled_mono; try done. by apply fle_val.
Qed.

(** Adding a non-negative double does not decrease a non-negative one. *)
Lemma fadd_increases a c : fle zero a -> fle zero c -> fle a (a + c)%float.
Proof.
  intros Ha Hc. apply fle_zero in Ha as Ha', Hc as Hc'.
  destruct (val_add a c Ha' Hc') as [Eac Nac].
  apply fle_val; try done. rewrite Eac.
  rewrite <- (add_scaled_0_r (val a)) at 1 by (by apply val_representable).
  rewrite (add_scaled_comm (val a) 0), (add_scaled_comm (val a) (val c)).
  apply add_scaled_mono; lia.
Qed.

Lemma fle_trans a b c : fle zero a -> fle a b -> fle zero b -> fle b c -> fle zero c -> fle a c.
Proof.
  intros Ha%fle_zero Hab Hb%fle_zero Hbc Hc%fle_zero.
  apply fle_val in Hab, Hbc; try done. apply fle_val; lia.
Qed.

End Binary64Facts.

(** ** Sums without rounding *)

Section Exact.

Import Binary64.
Local Open Scope Z_scope.

Lemma shift_of_small n k : 0 <= k -> 0 < n < 2 ^ (k + 53) -> shift_of n <= k.
Proof.
  intros Hk [Hn Hlt]. unfold shift_of.
  destruct (digits_bounds n Hn) as [Hlo _].
  destruct (Z.le_gt_cases (digits n) (k + 53)) as [?|Hgt]; [lia|].
  assert (2 ^ (k + 53) <= 2 ^ (digits n - 1)) by (apply Z.pow_le_mono_r; lia). lia.
Qed.

Lemma round_even_on_grid n k :
  0 <= k -> 0 <= n < 2 ^ (k + 53) -> n mod 2 ^ k = 0 -> round_even n = n.
Proof.
  intros Hk [Hn Hlt] Hmod. destruct (Z.eq_dec n 0) as [->|Hne]; [reflexivity|].
  apply round_even_exact; [lia|].
  pose proof (shift_of_small n k Hk ltac:(lia)) as Hs.
  pose proof (shift_of_nonneg n) as Hs0.
  apply Z.mod_divide in Hmod; [|apply Z.pow_nonzero; lia].
  apply Z.mod_divide; [apply Z.pow_nonzero; lia|].
  eapply Z.divide_trans; [|exact Hmod].
  exists (2 ^ (k - shift_of n)). rewrite <- Z.pow_add_r by lia. f_equal. lia.
Qed.

Lemma pow_le_OVERFLOW k : 0 <= k <= 2045 -> 2 ^ (k + 53) <= OVERFLOW.
Proof. intros Hk. unfold OVERFLOW. apply Z.pow_le_mono_r; lia. Qed.

Lemma val_add_exact a c k :
  0 <= k <= 2045 -> 0 <= val a -> 0 <= val c ->
  val a mod 2 ^ k = 0 -> val c mod 2 ^ k = 0 ->
  val a + val c < 2 ^ (k + 53) ->
  val (a + c)%float = val a + val c.
Proof.
  intros Hk Ha Hc Ma Mc Hlt. pose proof (pow_le_OVERFLOW k Hk) as Hov.
  pose proof INF_gt_OVERFLOW as Hio.
  destruct (val_add a c Ha Hc) as [-> _]. unfold add_scaled.
  destruct (Z.leb_spec INF (val a)); [lia|].
  destruct (Z.leb_spec INF (val c)); [lia|]. cbn [orb].
  rewrite (round_even_on_grid _ k); [| lia | lia |].
  - unfold clamp. by destruct (Z.ltb_spec (val a + val c) OVERFLOW); [|lia].
  - rewrite Z.add_mod, Ma, Mc by (apply Z.pow_nonzero; lia). simpl.
    apply Z.mod_0_l. apply Z.pow_nonzero; lia.
Qed.

Lemma nonneg_double_zero : nonneg_double zero.
Proof. split; [reflexivity | discriminate]. Qed.

Lemma nonneg_double_add a c : nonneg_double a -> 0 <= val c -> nonneg_double (a + c)%float.
Proof.
  intros [Ha Hna] Hc. destruct (val_add a c Ha Hc) as [Hv Hn]. split; [done|].
  unfold val in *. rewrite FloatAxioms.add_spec in *.
  pose proof (FloatAxioms.Prim2SF_valid a) as Va.
  pose proof (FloatAxioms.Prim2SF_valid c) as Vc.
  destruct (FloatOps.Prim2SF a) as [[|]|[|]| |[|] m e]; cbn [scaled] in Ha;
    try done; try (exfalso; lia);
    destruct (FloatOps.Prim2SF c) as [[|]|[|]| |[|] m' e']; cbn [scaled] in Hc;
    try done; try (exfalso; lia).
  (* finite + finite: the sum is positive *)
  intros Hz. rewrite Hz in Hv. cbn [scaled] in Hv.
  destruct (valid_finite_bounds _ _ _ Va) as ([? ?] & _).
  destruct (valid_finite_bounds _ _ _ Vc) as ([? ?] & _).
  assert (0 < Zpos m * 2 ^ (e + 1074)) by (apply Z.mul_pos_pos; [lia | apply Z.pow_pos_nonneg; lia]).
  assert (0 < Zpos m' * 2 ^ (e' + 1074)) by (apply Z.mul_pos_pos; [lia | apply Z.pow_pos_nonneg; lia]).
  pose proof INF_gt_OVERFLOW as Hio.
  unfold add_scaled in Hv.
  destruct (INF <=? _), (INF <=? _); cbn [orb] in Hv; try (unfold INF in Hv; lia).
  unfold clamp in Hv.
  pose proof (round_even_lower (Zpos m * 2 ^ (e + 1074) + Zpos m' * 2 ^ (e' + 1074))
                ltac:(lia)) as Hlow.
  set (n := Zpos m * 2 ^ (e + 1074) + Zpos m' * 2 ^ (e' + 1074)) in *.
  destruct (round_even n <? OVERFLOW); [|unfold INF in Hv; lia].
  (* round_even n = 0 with n > 0 is impossible *)
  assert (0 < round_even n); [|lia].
  eapply Z.lt_le_trans; [|exact Hlow].
  pose proof (shift_of_nonneg n).
  assert (0 < 2 ^ shift_of n) by (apply Z.pow_pos_nonneg; lia).
  apply Z.mul_pos_pos; [|done].
  apply Z.div_str_pos. split; [done|].
  (* 2 ^ shift_of n <= n *)
  destruct (digits_bounds n ltac:(lia)) as [Hlo _].
  eapply Z.le_trans; [|exact Hlo]. apply Z.pow_le_mono_r; [lia|].
  unfold shift_of. pose proof (digits_pos n). lia.
Qed.

Lemma scaled_cases x :
  SpecFloat.valid_binary FloatOps.prec FloatOps.emax x = true ->
  0 <= scaled x -> x <> SpecFloat.S754_zero true ->
  (x = SpecFloat.S754_zero false /\ scaled x = 0) \/
  (x = SpecFloat.S754_infinity false /\ scaled x = INF) \/
  (exists m e, x = SpecFloat.S754_finite false m e /\
     0 < scaled x < OVERFLOW /\ shift_of (scaled x) = e + 1074).
Proof.
  intros Hv Hn Hz. destruct x as [[|]|[|]| |[|] m e]; cbn [scaled] in Hn |- *.
  - by destruct Hz.
  - by left.
  - exfalso. lia.
  - right. by left.
  - exfalso. lia.
  - exfalso. lia.
  - right. right. exists m, e. split; [done|].
    destruct (valid_finite _ _ _ Hv) as [Hc _].
    destruct (valid_finite_bounds _ _ _ Hv) as ([? ?] & Hm & _).
    assert (0 < 2 ^ (e + 1074)) by (apply Z.pow_pos_nonneg; lia).
    split; [split; [by apply Z.mul_pos_pos|]|].
    + eapply Z.lt_le_trans; [apply Z.mul_lt_mono_pos_r; [done | exact Hm]|].
      rewrite <- Z.pow_add_r by lia. unfold OVERFLOW. apply Z.pow_le_mono_r; lia.
    + unfold shift_of. rewrite digits_shift by lia. lia.
Qed.

Lemma nonneg_double_val_inj a b :
  nonneg_double a -> nonneg_double b -> val a = val b -> a = b.
Proof.
  intros [Ha Hna] [Hb Hnb] Heq. apply FloatAxioms.Prim2SF_inj. unfold val in *.
  pose proof INF_gt_OVERFLOW as Hio.
  assert (Hpos : 0 < OVERFLOW) by reflexivity.
  destruct (scaled_cases _ (FloatAxioms.Prim2SF_valid a) Ha Hna)
    as [[Ea Sa]|[[Ea Sa]|(m & e & Ea & Sa & Ka)]];
    destruct (scaled_cases _ (FloatAxioms.Prim2SF_valid b) Hb Hnb)
    as [[Eb Sb]|[[Eb Sb]|(m' & e' & Eb & Sb & Kb)]];
    try (exfalso; lia); rewrite Ea, Eb in *; try reflexivity.
  rewrite Heq in Ka. assert (e = e') by lia. subst e'.
  cbn [scaled] in Heq, Sa.
  assert (0 < 2 ^ (e + 1074)) by nia.
  assert (Zpos m = Zpos m') by nia. congruence.
Qed.


Lemma exact_sum_app tree l1 l2 :
  exact_sum tree (l1 ++ l2) = exact_sum tree l1 + exact_sum tree l2.
Proof. induction l1 as [|n l1 IH]; simpl; [done|]. rewrite IH. lia. Qed.

Lemma exact_sum_perm tree l l' : l ≡ₚ l' -> exact_sum tree l = exact_sum tree l'.
Proof. induction 1; simpl; lia. Qed.

Lemma edge_value_outside tree n : n ∉ node_ids tree -> edge_value tree n = zero.
Proof.
  intros Hn. unfold edge_value, get_edge_length. rewrite vec_at_lookup.
  destruct (ct_nodes tree !! N.to_nat n) as [nd|] eqn:Hnd; [|done].
  exfalso. apply Hn, elem_of_node_ids. by eapply lookup_lt_Some.
Qed.

Section Grid.

Variables (tree : compact_tree) (k : Z).
Hypothesis Hgrid : no_rounding tree k.

Lemma edge_value_grid n :
  0 <= val (edge_value tree n) /\ val (edge_value tree n) mod 2 ^ k = 0.
Proof.
  destruct Hgrid as (Hk & Hall & _).
  unfold edge_value, get_edge_length. rewrite vec_at_lookup.
  destruct (ct_nodes tree !! N.to_nat n) as [nd|] eqn:Hnd; simpl.
  - rewrite Forall_forall in Hall. apply Hall. by eapply list_elem_of_lookup_2.
  - change (val zero) with 0. split; [done|]. apply Z.mod_0_l, Z.pow_nonzero; lia.
Qed.

Lemma exact_sum_nonneg l : 0 <= exact_sum tree l.
Proof.
  induction l as [|n l IH]; simpl; [done|]. pose proof (edge_value_grid n). lia.
Qed.

Lemma exact_sum_submseteq l l' : l ⊆+ l' -> exact_sum tree l <= exact_sum tree l'.
Proof.
  induction 1 as [|n l l' _ IH|n m l|n l l' _ IH|l l' l'' _ IH1 _ IH2]; simpl; try lia.
  pose proof (edge_value_grid n). lia.
Qed.

(** Nodes counted once never exceed the total over the tree. *)
Lemma exact_sum_bounded l : NoDup l -> exact_sum tree l < 2 ^ (k + 53).
Proof.
  intros Hnd. destruct Hgrid as (_ & _ & Hlt).
  eapply Z.le_lt_trans; [|exact Hlt].
  transitivity (exact_sum tree (filter (fun n => n ∈ node_ids tree) l)).
  - clear Hnd. induction l as [|n l IH]; simpl; [done|].
    rewrite filter_cons. destruct (decide (n ∈ node_ids tree)) as [Hin|Hout]; simpl; [lia|].
    rewrite (edge_value_outside tree n Hout). change (val zero) with 0. lia.
  - apply exact_sum_submseteq, NoDup_submseteq; [by apply NoDup_filter|].
    by intros n [? _]%list_elem_of_filter.
Qed.

Lemma exact_sum_mod l : exact_sum tree l mod 2 ^ k = 0.
Proof.
  destruct Hgrid as (Hk & _).
  induction l as [|n l IH]; simpl; [apply Z.mod_0_l, Z.pow_nonzero; lia|].
  rewrite Z.add_mod, IH, (proj2 (edge_value_grid n)) by (apply Z.pow_nonzero; lia).
  simpl. apply Z.mod_0_l, Z.pow_nonzero; lia.
Qed.

(** Without rounding the double sum is the exact sum. *)
Lemma edge_sum_exact l acc :
  nonneg_double acc -> val acc mod 2 ^ k = 0 ->
  val acc + exact_sum tree l < 2 ^ (k + 53) ->
  nonneg_double (edge_sum tree acc l) /\ val (edge_sum tree acc l) = val acc + exact_sum tree l.
Proof.
  pose proof Hgrid as (Hk & _).
  revert acc. induction l as [|n l IH]; intros acc Hp Hm Hlt; simpl in *.
  - split; [done | lia].
  - destruct (edge_value_grid n) as [Hn Hnm]. pose proof (exact_sum_nonneg l).
    assert (Hv : val (acc + edge_value tree n)%float = val acc + val (edge_value tree n)).
    { apply (val_add_exact _ _ k); try done; [apply Hp | lia]. }
    destruct (IH (acc + edge_value tree n)%float) as [Hp' Hv'].
    + by apply nonneg_double_add.
    + rewrite Hv, Z.add_mod, Hm, Hnm by (apply Z.pow_nonzero; lia).
      simpl. apply Z.mod_0_l, Z.pow_nonzero; lia.
    + rewrite Hv. lia.
    + split; [done|]. unfold edge_sum in *. rewrite Hv'. lia.
Qed.

Lemma total_exact l :
  NoDup l ->
  nonneg_double (edge_sum tree zero l) /\ val (edge_sum tree zero l) = exact_sum tree l.
Proof.
  intros Hnd. pose proof Hgrid as (Hk & _).
  destruct (edge_sum_exact l zero) as [Hp Hv].
  - apply nonneg_double_zero.
  - apply Z.mod_0_l, Z.pow_nonzero; lia.
  - change (val zero) with 0. pose proof (exact_sum_bounded l Hnd). lia.
  - split; [done|]. rewrite Hv. change (val zero) with 0. lia.
Qed.

(** Without rounding the order of the nodes does not matter. *)
Lemma total_perm l l' :
  NoDup l -> l ≡ₚ l' -> edge_sum tree zero l = edge_sum tree zero l'.
Proof.
  intros Hnd Hp. assert (NoDup l') as Hnd' by (by rewrite <- Hp).
  destruct (total_exact l Hnd) as [Hpl Hvl].
  destruct (total_exact l' Hnd') as [Hpl' Hvl'].
  apply nonneg_double_val_inj; [done | done |].
  rewrite Hvl, Hvl'. by apply exact_sum_perm.
Qed.

(** Without rounding more nodes give a larger total. *)
Lemma total_mono l l' :
  NoDup l -> NoDup l' -> (forall n, n ∈ l -> n ∈ l') ->
  fle (edge_sum tree zero l) (edge_sum tree zero l').
Proof.
  intros Hnd Hnd' Hsub.
  destruct (total_exact l Hnd) as [[Hpl _] Hvl].
  destruct (total_exact l' Hnd') as [[Hpl' _] Hvl'].
  apply fle_val; [done | done |]. rewrite Hvl, Hvl'.
  by apply exact_sum_submseteq, NoDup_submseteq.
Qed.

End Grid.

End Exact.

(** ** Reordering the leaves *)

Lemma mapM_perm {A B} (f : A -> outcome B) (l l' : list A) :
  l ≡ₚ l' -> forall ys, mapM f l = Done ys ->
  exists ys', mapM f l' = Done ys' /\ ys ≡ₚ ys'.
Proof.
  induction 1 as [|x l l' Hp IH|x y l|l l' l'' Hp1 IH1 Hp2 IH2]; intros ys; simpl.
  - intros [= <-]. by exists [].
  - destruct (f x) as [b| |]; simpl; try done.
    destruct (mapM f l) as [bs| |]; simpl; try done.
    intros [= <-]. destruct (IH bs eq_refl) as (bs' & -> & Hbs). simpl.
    exists (b :: bs'). split; [done | by constructor].
  - destruct (f y) as [b| |]; simpl; try done.
    destruct (f x) as [a| |]; simpl; try done.
    destruct (mapM f l) as [bs| |]; simpl; try done.
    intros [= <-]. exists (a :: b :: bs). split; [done | constructor].
  - intros Hys. destruct (IH1 ys Hys) as (ys' & Hys' & Hp).
    destruct (IH2 ys' Hys') as (ys'' & Hys'' & Hp').
    exists ys''. split; [done | by etrans].
Qed.

Lemma elem_of_concat_perm {A} (ls ls' : list (list A)) x :
  ls ≡ₚ ls' -> x ∈ concat ls -> x ∈ concat ls'.
Proof.
  intros Hp. rewrite !elem_of_concat. intros (l & Hx & Hl).
  exists l. split; [done|]. by rewrite <- Hp.
Qed.

(** C5 as the code has it. If the function returns on a leaf list, it
    returns on every reordering of it, and the two results are the
    left-to-right double sums of the edge lengths of the same nodes, each
    counted once, taken in two orders. The two doubles are equal when no
    addition can round ([no_rounding]); otherwise they may differ by
    rounding. *)
Theorem permutation_same_edges (fuel : nat) (tree : compact_tree)
    (leaf_nodes leaf_nodes' : list CT_NODE_T) (v : float) :
  leaf_nodes ≡ₚ leaf_nodes' ->
  calculate_faiths_pd_optimized fuel tree leaf_nodes = Done v ->
  exists v' counted counted',
    calculate_faiths_pd_optimized fuel tree leaf_nodes' = Done v' /\
    Guilds1000.calculate_faiths_pd_optimized fuel tree leaf_nodes' = Done v' /\
    NoDup counted /\ counted ≡ₚ counted' /\
    v = edge_sum tree 0%float counted /\
    v' = edge_sum tree 0%float counted' /\
    (forall k, no_rounding tree k -> v = v').
Proof.
  intros Hperm. change Guilds1000.calculate_faiths_pd_optimized
    with CalcOnly.calculate_faiths_pd_vectoruint8.
  rewrite pd_uint8_optimized, !pd_optimized_paths. unfold pd_of_paths.
  rewrite <- (Permutation_length Hperm).
  destruct (length leaf_nodes <? 2)%nat.
  - intros [= <-]. exists zero, [], []. repeat split; try done. constructor.
  - unfold leaf_set_of. rewrite <- (list_to_set_perm_L _ _ Hperm).
    destruct (find_mrca tree (list_to_set leaf_nodes)) as [mrca|]; [|done].
    change (of_option (Some mrca) ≫= ?k) with (k mrca). cbv beta.
    destruct (mapM (path_to fuel tree mrca) leaf_nodes) as [ls| |] eqn:Hls; try done.
    destruct (mapM_perm _ _ _ Hperm ls Hls) as (ls' & -> & Hp).
    intros [= <-]. simpl.
    exists (edge_sum tree zero (first_visits [] (concat ls'))),
           (first_visits [] (concat ls)), (first_visits [] (concat ls')).
    assert (Hnd : NoDup (first_visits [] (concat ls)))
      by (apply first_visits_NoDup; constructor).
    assert (Hsame : first_visits [] (concat ls) ≡ₚ first_visits [] (concat ls')).
    { apply NoDup_Permutation; [done | apply first_visits_NoDup; constructor |].
      intros x. rewrite !first_visits_elem.
      split; (intros [?|Hx]; [by left | right]);
        [by apply (elem_of_concat_perm ls ls') | by apply (elem_of_concat_perm ls' ls)]. }
    split; [done|]. split; [done|]. split; [done|]. split; [done|].
    split; [done|]. split; [done|].
    intros k Hk. by apply (total_perm tree k Hk).
Qed.

Lemma permutation_same_edges_witness :
  no_rounding Scenario.tree 1074 /\
  calculate_faiths_pd_optimized 5 Scenario.tree [Scenario.X; Scenario.Y; Scenario.B] =
    Done 7%float /\
  calculate_faiths_pd_optimized 5 Scenario.tree [Scenario.B; Scenario.X; Scenario.Y] =
    Done 7%float.
Proof.
  assert (Hgrid : no_rounding Scenario.tree 1074).
  { split; [lia|]. split; [|vm_compute; reflexivity].
    repeat (constructor; [split; [vm_compute; discriminate | vm_compute; reflexivity]|]).
    constructor. }
  assert (Hpd : calculate_faiths_pd_optimized 5 Scenario.tree
                  [Scenario.X; Scenario.Y; Scenario.B] = Done 7%float)
    by (vm_compute; reflexivity).
  split; [done|]. split; [done|].
  destruct (permutation_same_edges 5 Scenario.tree
              [Scenario.X; Scenario.Y; Scenario.B] [Scenario.B; Scenario.X; Scenario.Y]
              7%float) as (v' & counted & counted' & -> & _ & _ & _ & _ & _ & Hsame).
  - change [Scenario.X; Scenario.Y; Scenario.B] with ([Scenario.X; Scenario.Y] ++ [Scenario.B]).
    symmetry. apply (Permutation_cons_append [Scenario.X; Scenario.Y] Scenario.B).
  - exact Hpd.
  - f_equal. symmetry. by apply (Hsame 1074%Z).
Defined.

(** The claim of C5 itself fails: with edge lengths 2^53, 1 and 1 below the
    root, the leaves in the order X, Y, Z give 2^53 (each 1 is lost to
    rounding), in the order Y, Z, X they give 2^53 + 2. *)
Lemma permutation_changes_value :
  [1; 2; 3] ≡ₚ [2; 3; 1] /\
  calculate_faiths_pd_optimized 4 Rounding.tree [1; 2; 3] = Done 9007199254740992%float /\
  calculate_faiths_pd_optimized 4 Rounding.tree [2; 3; 1] = Done 9007199254740994%float /\
  calculate_faiths_pd_optimized 4 Rounding.tree [1; 2; 3] <>
  calculate_faiths_pd_optimized 4 Rounding.tree [2; 3; 1].
Proof.
  split; [|split; [|split]].
  - change [2; 3; 1] with ([2; 3] ++ [1]). apply (Permutation_cons_append [2; 3] 1).
  - vm_compute. reflexivity.
  - vm_compute. reflexivity.
  - intros H. vm_compute in H. discriminate.
Qed.

(** ** Adding a leaf *)

Lemma fle_zero_zero : fle zero zero.
Proof. reflexivity. Qed.

Lemma edge_value_nonneg tree n : nonneg_edges tree -> fle zero (edge_value tree n).
Proof.
  intros Hnn. unfold edge_value, get_edge_length. rewrite vec_at_lookup.
  destruct (ct_nodes tree !! N.to_nat n) as [nd|] eqn:Hnd; simpl; [|apply fle_zero_zero].
  unfold nonneg_edges in Hnn. rewrite Forall_forall in Hnn.
  apply Hnn. by eapply list_elem_of_lookup_2.
Qed.

Lemma edge_sum_nonneg tree acc l :
  nonneg_edges tree -> fle zero acc -> fle zero (edge_sum tree acc l).
Proof.
  intros Hnn. revert acc. unfold edge_sum.
  induction l as [|n l IH]; intros acc Hacc; simpl; [done|].
  apply IH, fadd_nonneg; [done | by apply edge_value_nonneg].
Qed.

Section AddedLeaf.

Variable tree : compact_tree.
Hypothesis Hnn : nonneg_edges tree.

(** The total over the nodes counted so far. *)
Let total (counted : list CT_NODE_T) : float := edge_sum tree zero counted.

Lemma total_nonneg counted : fle zero (total counted).
Proof. apply edge_sum_nonneg; [done | apply fle_zero_zero]. Qed.

Lemma total_first_visit_new counted n :
  n ∉ counted -> total (first_visit counted n) = (total counted + edge_value tree n)%float.
Proof.
  intros Hn. unfold first_visit. rewrite bool_decide_eq_false_2 by done.
  apply edge_sum_snoc.
Qed.

(** Nodes visited on one side only never lower that side. *)
Lemma extra_nodes_increase q counted counted' :
  fle (total counted) (total counted') ->
  fle (total counted) (total (first_visits counted' q)).
Proof.
  revert counted'. induction q as [|n q IH]; intros counted' Hle; [done|].
  change (first_visits counted' (n :: q)) with (first_visits (first_visit counted' n) q).
  apply IH. destruct (decide (n ∈ counted')) as [Hin|Hin].
  - unfold first_visit. by rewrite bool_decide_eq_true_2.
  - rewrite total_first_visit_new by done.
    eapply fle_trans; [apply total_nonneg | exact Hle | apply total_nonneg | |].
    + apply fadd_increases; [apply total_nonneg | by apply edge_value_nonneg].
    + apply fadd_nonneg; [apply total_nonneg | by apply edge_value_nonneg].
Qed.

Variable ext : list CT_NODE_T.

(** Both sides have counted the same nodes outside [ext]. *)
Let agree (counted counted' : list CT_NODE_T) : Prop :=
  forall n, n ∉ ext -> (n ∈ counted <-> n ∈ counted').

Lemma common_nodes_keep_order p counted counted' :
  (forall n, n ∈ p -> n ∉ ext) ->
  agree counted counted' ->
  fle (total counted) (total counted') ->
  agree (first_visits counted p) (first_visits counted' p) /\
  fle (total (first_visits counted p)) (total (first_visits counted' p)).
Proof.
  revert counted counted'. induction p as [|n p IH]; intros counted counted' Hp Hag Hle;
    [done|].
  change (first_visits counted (n :: p)) with (first_visits (first_visit counted n) p).
  change (first_visits counted' (n :: p)) with (first_visits (first_visit counted' n) p).
  assert (Hn : n ∉ ext) by (apply Hp; by left).
  apply IH; [intros m Hm; apply Hp; by right | |].
  - intros m Hm. rewrite !first_visit_elem, (Hag m Hm). done.
  - destruct (decide (n ∈ counted)) as [Hin|Hin].
    + unfold first_visit. rewrite !bool_decide_eq_true_2; [done | by apply Hag | done].
    + assert (n ∉ counted') as Hin' by (by rewrite <- (Hag n Hn)).
      rewrite !total_first_visit_new by done.
      apply fadd_mono; try apply total_nonneg; [done | by apply edge_value_nonneg].
Qed.

Lemma extra_nodes_agree q counted counted' :
  (forall n, n ∈ q -> n ∈ ext) ->
  agree counted counted' ->
  agree counted (first_visits counted' q).
Proof.
  intros Hq Hag n Hn. rewrite first_visits_elem, (Hag n Hn).
  split; [by left | intros [?|Hin]; [done|]]. by apply Hq in Hin.
Qed.

(** Walking every path on to a higher MRCA never lowers the total. *)
Lemma extended_paths ps counted counted' :
  (forall n, n ∈ concat ps -> n ∉ ext) ->
  agree counted counted' ->
  fle (total counted) (total counted') ->
  agree (first_visits counted (concat ps))
        (first_visits counted' (concat (map (fun p => p ++ ext) ps))) /\
  fle (total (first_visits counted (concat ps)))
      (total (first_visits counted' (concat (map (fun p => p ++ ext) ps)))).
Proof.
  revert counted counted'. induction ps as [|p ps IH]; intros counted counted' Hd Hag Hle;
    [done|].
  simpl. rewrite !first_visits_app.
  destruct (common_nodes_keep_order p counted counted') as [Hag1 Hle1]; try done.
  { intros n Hn. apply Hd. simpl. apply elem_of_app. by left. }
  apply IH.
  - intros n Hn. apply Hd. simpl. apply elem_of_app. by right.
  - by apply extra_nodes_agree.
  - by apply extra_nodes_increase.
Qed.

End AddedLeaf.

Lemma chain_compare tree a b c p :
  chain tree a c p -> forall q, chain tree b c q ->
  (exists ext, chain tree b a ext /\ q = p ++ ext) \/
  (exists ext, chain tree a b ext /\ p = q ++ ext /\ ext ≠ []).
Proof.
  induction 1 as [|c c' p Hne Hp Hc IH]; intros q Hq.
  - left. by exists q.
  - inversion Hq as [|? c'' q' Hne' Hp' Hc']; subst.
    + right. eexists. split; [|split; [simpl; reflexivity | done]]. by econstructor.
    + assert (c'' = c') by congruence. subst c''.
      destruct (IH q' Hc') as [(ext & He & ->)|(ext & He & -> & Hn)].
      * left. by exists ext.
      * right. by exists ext.
Qed.

Lemma is_mrca_minimal tree a l :
  is_mrca tree a l = true ->
  common_ancestor tree a l = true /\
  forall b, (N.to_nat b < length (ct_nodes tree))%nat -> b ≠ a ->
    reaches tree a b = true -> common_ancestor tree b l = false.
Proof.
  unfold is_mrca. intros [Hc Hmin]%andb_true_iff. split; [done|].
  intros b Hb Hne Hr. rewrite forallb_forall in Hmin.
  specialize (Hmin b). rewrite <- list_elem_of_In, elem_of_node_ids in Hmin.
  specialize (Hmin Hb). rewrite Hr in Hmin.
  destruct (N.eqb_spec b a) as [?|_]; [done|]. simpl in Hmin.
  by destruct (common_ancestor tree b l).
Qed.

(** When the MRCA of a larger guild is an ancestor [M] of all of [l], the
    path of every leaf of [l] to [M] is its path to the MRCA [m] of [l],
    followed by the path from [m] to [M]. *)
Lemma paths_extend tree m M l leaf0 :
  is_mrca tree m l = true ->
  common_ancestor tree M l = true ->
  leaf0 ∈ l ->
  exists ext, chain tree M m ext /\
    forall leaf p, leaf ∈ l -> chain tree m leaf p -> chain tree M leaf (p ++ ext).
Proof.
  intros [Hm Hmin]%is_mrca_minimal HM H0.
  rewrite common_ancestor_chain in Hm, HM.
  assert (Hleaf : forall leaf p, leaf ∈ l -> chain tree m leaf p ->
            exists ext, chain tree M m ext /\ chain tree M leaf (p ++ ext)).
  { intros leaf p Hl Hp. destruct (HM leaf Hl) as [q Hq].
    destruct (chain_compare _ _ _ _ _ Hp q Hq) as [(ext & He & ->)|(ext & He & -> & Hn)].
    - by exists ext.
    - exfalso. inversion He as [|? c' ext' Hne Hpar Hc']; subst; [done|].
      assert (common_ancestor tree M l = false) as Hf.
      { apply Hmin; [|done|].
        - apply get_parent_is_Some. by rewrite Hpar.
        - apply reaches_chain. eauto. }
      assert (common_ancestor tree M l = true) as Ht by (by apply common_ancestor_chain).
      congruence. }
  destruct (Hm leaf0 H0) as [p0 Hp0].
  destruct (Hleaf leaf0 p0 H0 Hp0) as (ext & He & _).
  exists ext. split; [done|]. intros leaf p Hl Hp.
  destruct (Hleaf leaf p Hl Hp) as (ext' & He' & Hc).
  by rewrite (chain_unique _ _ _ _ _ He He').
Qed.

Lemma pd_returns fuel tree l mrca :
  (2 <= length l)%nat ->
  find_mrca tree (leaf_set_of l) = Some mrca ->
  (length (ct_nodes tree) <= fuel)%nat ->
  forall ls, Forall2 (chain tree mrca) l ls ->
  calculate_faiths_pd_optimized fuel tree l =
    Done (edge_sum tree zero (first_visits [] (concat ls))).
Proof.
  intros Hlen Hm Hfuel ls Hls. rewrite pd_optimized_paths. unfold pd_of_paths.
  destruct (Nat.ltb_spec (length l) 2) as [?|_]; [lia|].
  rewrite Hm. simpl. by rewrite (chains_mapM _ _ _ _ _ Hls Hfuel).
Qed.

Lemma common_ancestor_sub tree a l l' :
  (forall x, x ∈ l -> x ∈ l') ->
  common_ancestor tree a l' = true -> common_ancestor tree a l = true.
Proof.
  intros Hsub. rewrite !common_ancestor_chain. intros H leaf Hleaf. by apply H, Hsub.
Qed.

Lemma Forall2_chain_extend tree m M ext l ls :
  (forall leaf p, leaf ∈ l -> chain tree m leaf p -> chain tree M leaf (p ++ ext)) ->
  Forall2 (chain tree m) l ls ->
  Forall2 (chain tree M) l (map (fun p => p ++ ext) ls).
Proof.
  intros Hext HF. induction HF as [|leaf p l ls Hp HF IH]; simpl; [constructor|].
  constructor.
  - apply Hext; [by left | done].
  - apply IH. intros leaf' p' Hl. apply Hext. by right.
Qed.




(** * Further properties of the programs *)

(** ** Scanning the leaves *)


Lemma is_leaf_in_range tree i :
  is_leaf tree i = true -> (N.to_nat i < length (ct_nodes tree))%nat.
Proof.
  unfold is_leaf, get_children. rewrite vec_at_lookup.
  destruct (ct_nodes tree !! N.to_nat i) as [nd|] eqn:Hnd; [|done].
  intros _. by eapply lookup_lt_Some.
Qed.

Lemma leaf_label_Some tree i label :
  leaf_label tree i = Some label <->
  is_leaf tree i = true /\ get_label tree i = Some label.
Proof.
  unfold leaf_label. destruct (is_leaf tree i); split; try done.
  - by intros [_ ?].
  - by intros [? _].
Qed.

Lemma leaf_has_label tree i : is_leaf tree i = true -> is_Some (leaf_label tree i).
Proof.
  intros Hleaf. unfold leaf_label. rewrite Hleaf.
  apply is_leaf_in_range in Hleaf. unfold get_label. rewrite vec_at_lookup.
  apply fmap_is_Some. by apply lookup_lt_is_Some.
Qed.

Lemma leaves_loop_ext {St} tree (body body' : CT_NODE_T -> string -> St -> St) count :
  (forall i label st, body i label st = body' i label st) ->
  forall i st, leaves_loop tree body count i st = leaves_loop tree body' count i st.
Proof.
  intros Hext. induction count as [|count IH]; intros i st; simpl; [done|].
  destruct (is_leaf tree i); [|apply IH].
  destruct (get_label tree i) as [label|]; simpl; [|done]. rewrite Hext. apply IH.
Qed.

(** The scan is a left fold over the ids it visits. *)
Lemma leaves_loop_fold {St} tree (body : CT_NODE_T -> string -> St -> St) count : forall i st,
  (N.to_nat i + count <= length (ct_nodes tree))%nat ->
  leaves_loop tree body count i st =
  Done (foldl (fun st j => match leaf_label tree j with
                           | Some label => body j label st
                           | None => st
                           end)
              st (map N.of_nat (seq (N.to_nat i) count))).
Proof.
  induction count as [|count IH]; intros i st Hle; simpl; [done|].
  rewrite N2Nat.id.
  replace (S (N.to_nat i)) with (N.to_nat (i + 1)) by lia.
  unfold leaf_label at 2. destruct (is_leaf tree i) eqn:Hleaf.
  - destruct (leaf_has_label tree i Hleaf) as [label Hlabel].
    apply leaf_label_Some in Hlabel as [_ ->]. simpl. apply IH. lia.
  - apply IH. lia.
Qed.

Lemma foldl_same {A B} (f g : A -> B -> A) l : forall a,
  (forall a b, f a b = g a b) -> foldl f a l = foldl g a l.
Proof. induction l as [|b l IH]; intros a H; simpl; [done|]. rewrite H. by apply IH. Qed.

(** A body that only appends the ids passing a test collects a filter. *)
Lemma foldl_push (test : CT_NODE_T -> bool) ids : forall st : list CT_NODE_T,
  foldl (fun st j => if test j then st ++ [j] else st) st ids =
  st ++ filter (fun j => test j = true) ids.
Proof.
  induction ids as [|j ids IH]; intros st; simpl; [by rewrite app_nil_r|].
  rewrite IH. destruct (test j) eqn:Hj.
  - rewrite filter_cons_True by done. by rewrite <- app_assoc.
  - rewrite filter_cons_False; [done | by rewrite Hj].
Qed.

(** The leaves whose label passes [test], in ascending id order. *)
Lemma leaves_loop_collect tree (test : string -> bool) :
  leaves_loop tree
    (fun i label (leaf_nodes : list CT_NODE_T) =>
       if test label then leaf_nodes ++ [i] else leaf_nodes)
    (N.to_nat (get_num_nodes tree)) 0 [] =
  Done (filter (fun j => from_option test false (leaf_label tree j) = true) (node_ids tree)).
Proof.
  rewrite leaves_loop_fold by (unfold get_num_nodes; lia).
  unfold get_num_nodes. rewrite Nat2N.id. change (N.to_nat 0) with 0%nat.
  fold (node_ids tree). f_equal.
  change (filter (fun j => from_option test false (leaf_label tree j) = true) (node_ids tree))
    with ([] ++ filter (fun j => from_option test false (leaf_label tree j) = true)
                  (node_ids tree)).
  rewrite <- (foldl_push (fun j => from_option test false (leaf_label tree j))).
  apply foldl_same. intros st j. by destruct (leaf_label tree j).
Qed.

Lemma find_leaf_nodes_filter tree species_labels :
  find_leaf_nodes tree species_labels =
  Done (filter (fun j => from_option (fun label => bool_decide (label ∈ species_labels))
                           false (leaf_label tree j) = true) (node_ids tree)).
Proof.
  unfold find_leaf_nodes. cbv zeta.
  rewrite (leaves_loop_collect tree
             (fun label => bool_decide (label ∈ (list_to_set species_labels : gset string)))).
  f_equal. apply list_filter_iff. intros j.
  destruct (leaf_label tree j) as [label|]; simpl; [|done].
  rewrite !bool_decide_eq_true. set_solver.
Qed.

Lemma std_find_found range value :
  negb (std_find range value =? length range)%nat = bool_decide (value ∈ range).
Proof.
  induction range as [|x range IH]; cbn [std_find length].
  - rewrite bool_decide_eq_false_2; [done | by intros ?%elem_of_nil].
  - destruct (String.eqb_spec x value) as [->|Hne].
    + rewrite bool_decide_eq_true_2; [done | by left].
    + change (S (std_find range value) =? S (length range))%nat
        with (std_find range value =? length range)%nat.
      rewrite IH. apply bool_decide_ext. rewrite elem_of_cons.
      split; [by right | by intros [?|?]].
Qed.

Lemma match_species_found species_labels i label (leaf_nodes : list CT_NODE_T) :
  CalcOnly.match_species species_labels i label leaf_nodes =
  if bool_decide (label ∈ species_labels) then leaf_nodes ++ [i] else leaf_nodes.
Proof.
  induction species_labels as [|sp rest IH]; cbn [CalcOnly.match_species].
  - rewrite bool_decide_eq_false_2; [done | by intros ?%elem_of_nil].
  - destruct (String.eqb_spec label sp) as [->|Hne].
    + rewrite bool_decide_eq_true_2; [done | by left].
    + rewrite IH. rewrite (bool_decide_ext (label ∈ rest) (label ∈ sp :: rest)); [done|].
      rewrite elem_of_cons. split; [by right | by intros [?|?]].
Qed.

Lemma node_ids_sorted tree : StronglySorted N.lt (node_ids tree).
Proof.
  unfold node_ids. generalize 0%nat.
  induction (length (ct_nodes tree)) as [|n IH]; intros start; simpl; constructor.
  - apply IH.
  - apply Forall_forall. intros j (k & -> & Hk%elem_of_seq)%list_elem_of_fmap. lia.
Qed.

Lemma StronglySorted_filter {A} (R : A -> A -> Prop) (P : A -> Prop)
    `{forall x, Decision (P x)} l :
  StronglySorted R l -> StronglySorted R (filter P l).
Proof.
  induction 1 as [|x l Hs IH Hx]; [constructor|].
  rewrite filter_cons. destruct (decide (P x)); [|done].
  constructor; [done|]. rewrite Forall_forall in Hx |- *.
  intros y [_ Hy]%list_elem_of_filter. by apply Hx.
Qed.

Lemma elem_of_find_leaf_nodes tree labels i :
  i ∈ filter (fun j => from_option (fun label => bool_decide (label ∈ labels))
                         false (leaf_label tree j) = true) (node_ids tree) <->
  carries tree labels i.
Proof.
  unfold carries. rewrite list_elem_of_filter, elem_of_node_ids. split.
  - intros [Htest _]. destruct (leaf_label tree i) as [label|] eqn:Hlabel; [|done].
    apply leaf_label_Some in Hlabel as [Hleaf Hlabel]. split; [done|].
    exists label. split; [done|]. by apply bool_decide_eq_true in Htest.
  - intros (Hleaf & label & Hlabel & Hin). split; [|by apply is_leaf_in_range].
    rewrite (proj2 (leaf_label_Some tree i label)) by done. simpl.
    by apply bool_decide_eq_true.
Qed.

(** X1. [find_leaf_nodes] returns, on every tree and every list of labels:
    the ids it returns are exactly the leaves of the tree whose label is one
    of the given labels.  A label that no leaf carries is passed over in
    silence, and all the leaves that share a label are returned. *)
Theorem find_leaf_nodes_finds (tree : compact_tree) (species_labels : list string) :
  exists leaf_nodes,
    find_leaf_nodes tree species_labels = Done leaf_nodes /\
    forall i, i ∈ leaf_nodes <->
      is_leaf tree i = true /\
      exists label, get_label tree i = Some label /\ label ∈ species_labels.
Proof.
  eexists. split; [apply find_leaf_nodes_filter|].
  intros i. apply elem_of_find_leaf_nodes.
Qed.

(** X2. The ids returned by [find_leaf_nodes] are strictly ascending, hence
    without repetition, whatever the order of the labels and however often a
    label is repeated. *)
Theorem find_leaf_nodes_ascending (tree : compact_tree) (species_labels : list string) :
  exists leaf_nodes,
    find_leaf_nodes tree species_labels = Done leaf_nodes /\
    StronglySorted N.lt leaf_nodes /\ NoDup leaf_nodes /\
    (length leaf_nodes <= length (ct_nodes tree))%nat.
Proof.
  eexists. split; [apply find_leaf_nodes_filter|].
  assert (Hsorted : StronglySorted N.lt
            (filter (fun j => from_option
                       (fun label => bool_decide (label ∈ species_labels))
                       false (leaf_label tree j) = true) (node_ids tree)))
    by apply StronglySorted_filter, node_ids_sorted.
  split; [done|]. split.
  - apply NoDup_filter. unfold node_ids. apply NoDup_fmap; [apply _ | apply NoDup_seq].
  - etrans; [apply length_filter|]. unfold node_ids. by rewrite length_map, length_seq.
Qed.

(** X3. The three leaf lookups, by hash set (calculate_faiths_pd_optimized.cpp),
    by [std::find] (benchmark_faiths_pd_compacttree.cpp) and by the loop with
    [break] (benchmark_pd_calculation_only.cpp), return the same vector. *)
Theorem leaf_lookups_agree (tree : compact_tree) (species_labels : list string) :
  Bench.find_leaf_nodes tree species_labels = find_leaf_nodes tree species_labels /\
  CalcOnly.main_leaf_nodes tree species_labels = find_leaf_nodes tree species_labels.
Proof.
  rewrite find_leaf_nodes_filter. split.
  - unfold Bench.find_leaf_nodes. cbv zeta.
    rewrite <- (leaves_loop_collect tree (fun label => bool_decide (label ∈ species_labels))).
    apply leaves_loop_ext. intros i label st. by rewrite std_find_found.
  - unfold CalcOnly.main_leaf_nodes. cbv zeta.
    rewrite <- (leaves_loop_collect tree (fun label => bool_decide (label ∈ species_labels))).
    apply leaves_loop_ext. intros i label st. apply match_species_found.
Qed.


Lemma main_args fuel load prog path labels :
  main fuel load (prog :: path :: labels) =
  match labels with
  | [] => Done (1%Z, [])
  | _ :: _ =>
    tree ← load path;
    leaf_nodes ← find_leaf_nodes tree labels;
    if (length leaf_nodes <? 2)%nat then Done (1%Z, []) else
    faiths_pd ← calculate_faiths_pd_optimized fuel tree leaf_nodes;
    Done (0%Z, [faiths_pd])
  end.
Proof. by destruct labels. Qed.

(** X4. The output of [main] does not depend on the order of the species on
    the command line, nor on how often a species is repeated, nor on the
    program name: the leaf list handed to the PD routine is the same vector,
    so that the printed double is the same bit for bit. *)
Theorem main_ignores_label_order (fuel : nat) (load : string -> outcome compact_tree)
    (prog prog' path : string) (labels labels' : list string) :
  (forall s, s ∈ labels <-> s ∈ labels') ->
  main fuel load (prog :: path :: labels) = main fuel load (prog' :: path :: labels').
Proof.
  intros Hsame. rewrite !main_args.
  destruct labels as [|s labels], labels' as [|s' labels']; try done.
  { exfalso. eapply elem_of_nil, Hsame. by left. }
  { exfalso. eapply elem_of_nil, Hsame. by left. }
  destruct (load path) as [tree| | ]; [|reflexivity|reflexivity].
  change (Done tree ≫= ?k) with (k tree). cbv beta.
  rewrite !find_leaf_nodes_filter.
  rewrite (list_filter_iff _
    (fun j => from_option (fun label => bool_decide (label ∈ s' :: labels'))
                false (leaf_label tree j) = true)); [done|].
  intros j. destruct (leaf_label tree j) as [label|]; simpl; [|done].
  by rewrite !bool_decide_eq_true.
Qed.

Lemma short_list_same {A} (l : list A) :
  NoDup l -> ((length l < 2)%nat <-> forall x y, x ∈ l -> y ∈ l -> x = y).
Proof.
  intros Hnd. split.
  - destruct l as [|a [|b l]]; simpl; try lia.
    + by intros _ x y ?%elem_of_nil.
    + by intros _ x y ->%list_elem_of_singleton ->%list_elem_of_singleton.
  - destruct l as [|a [|b l]]; simpl; try lia. intros Hsame. exfalso.
    apply NoDup_cons in Hnd as [Hab _]. apply Hab.
    rewrite (Hsame a b); [by left | by left | right; by left].
Qed.

(** X5. Once the tree is loaded, [main] prints nothing and returns 1 exactly
    when no species is given or at most one leaf of the tree carries one of
    the given labels; species that are unknown, or listed twice, do not count
    towards the two leaves that are needed. *)
Theorem main_needs_two_leaves (fuel : nat) (load : string -> outcome compact_tree)
    (tree : compact_tree) (prog path : string) (labels : list string) :
  load path = Done tree ->
  (main fuel load (prog :: path :: labels) = Done (1%Z, []) <->
   labels = [] \/ forall i j, carries tree labels i -> carries tree labels j -> i = j).
Proof.
  intros Hload. rewrite main_args.
  destruct labels as [|s labels]; [split; [by left | done]|].
  rewrite Hload. change (Done tree ≫= ?k) with (k tree). cbv beta.
  rewrite find_leaf_nodes_filter.
  set (leaf_nodes := filter _ (node_ids tree)).
  change (Done leaf_nodes ≫= ?k) with (k leaf_nodes). cbv beta.
  assert (Hnd : NoDup leaf_nodes).
  { apply NoDup_filter. unfold node_ids. apply NoDup_fmap; [apply _ | apply NoDup_seq]. }
  assert (Hshort : (length leaf_nodes < 2)%nat <->
            forall i j, carries tree (s :: labels) i -> carries tree (s :: labels) j -> i = j).
  { rewrite (short_list_same leaf_nodes Hnd). unfold leaf_nodes.
    split; intros H i j Hi Hj; apply H; by apply elem_of_find_leaf_nodes. }
  destruct (Nat.ltb_spec (length leaf_nodes) 2) as [Hlt|Hge].
  - split; [intros _; right; by apply Hshort | done].
  - split.
    + by destruct (calculate_faiths_pd_optimized fuel tree leaf_nodes).
    + intros [?|Hsame]; [done|]. apply Hshort in Hsame. lia.
Qed.

Lemma main_ignores_label_order_witness :
  main 5 (fun _ => Done Scenario.tree) ["pd"; "tree.nwk"; "B"; "Y"; "X"; "Y"] =
  Done (0%Z, [7%float]).
Proof.
  rewrite (main_ignores_label_order 5 (fun _ => Done Scenario.tree)
             "pd" "pd" "tree.nwk" ["B"; "Y"; "X"; "Y"] ["X"; "Y"; "B"]).
  - vm_compute. reflexivity.
  - intros s. rewrite !elem_of_cons, !elem_of_nil. tauto.
Defined.

Lemma main_needs_two_leaves_witness :
  main 5 (fun _ => Done Scenario.tree) ["pd"; "tree.nwk"; "X"; "Q"; "X"] = Done (1%Z, []).
Proof.
  apply (proj2 (main_needs_two_leaves 5 (fun _ => Done Scenario.tree) Scenario.tree
                  "pd" "tree.nwk" ["X"; "Q"; "X"] eq_refl)).
  right.
  assert (Hone : forall i, carries Scenario.tree ["X"; "Q"; "X"] i -> i = 2).
  { intros i (Hleaf & label & Hlabel & Hin).
    pose proof (is_leaf_in_range _ _ Hleaf) as Hi. simpl in Hi.
    assert (i = 0 \/ i = 1 \/ i = 2 \/ i = 3 \/ i = 4) as Hcases by lia.
    destruct Hcases as [->|[->|[->|[->| ->]]]]; try done;
      injection Hlabel as <-;
      repeat (apply elem_of_cons in Hin as [Hin|Hin]; [discriminate|]);
      by apply elem_of_nil in Hin. }
  intros i j Hi Hj. by rewrite (Hone i Hi), (Hone j Hj).
Defined.

Section Widening.

Import Binary64.
Local Open Scope Z_scope.

Lemma val_SF2Prim_finite m e :
  Zpos m < 2 ^ 53 -> -1022 <= e -> Zpos m * 2 ^ (e + 1074) < OVERFLOW ->
  val (FloatOps.SF2Prim (SpecFloat.S754_finite false m e)) = Zpos m * 2 ^ (e + 1074).
Proof.
  intros Hm He Hov. unfold val. cbn [FloatOps.SF2Prim].
  rewrite FloatLemmas.Z_ldexp_spec.
  pose proof (FloatAxioms.Prim2SF_valid (of_uint63 (Uint63Axioms.of_Z (Zpos m)))) as Hvalid.
  pose proof (FloatAxioms.of_uint63_spec (Uint63Axioms.of_Z (Zpos m))) as Hspec.
  assert (Hto : Uint63Axioms.to_Z (Uint63Axioms.of_Z (Zpos m)) = Zpos m).
  { rewrite Uint63.of_Z_spec. apply Z.mod_small. split; [lia|].
    eapply Z.lt_trans; [exact Hm|]. reflexivity. }
  rewrite Hto in Hspec. cbn [SpecFloat.binary_normalize] in Hspec.
  destruct (binary_round_scaled m 0 ltac:(lia)) as [Hs Hn].
  rewrite <- Hspec in Hs, Hn.
  assert (Hgrid : forall k, 0 <= k -> Zpos m * 2 ^ k < OVERFLOW ->
            clamp (round_even (Zpos m * 2 ^ k)) = Zpos m * 2 ^ k).
  { intros k Hk Hlt. assert (0 < 2 ^ k) by (apply Z.pow_pos_nonneg; lia).
    rewrite (round_even_on_grid _ k); [| lia | |].
    - unfold clamp. by destruct (Z.ltb_spec (Zpos m * 2 ^ k) OVERFLOW); [|lia].
    - split; [lia|]. rewrite Z.pow_add_r by lia. nia.
    - apply Z.mod_mul. lia. }
  change (0 + 1074) with 1074 in Hs.
  rewrite (Hgrid 1074) in Hs; [|lia|].
  2:{ eapply Z.lt_le_trans; [apply Z.mul_lt_mono_pos_r; [|exact Hm]|]; [reflexivity|].
      rewrite <- Z.pow_add_r by lia. unfold OVERFLOW. apply Z.pow_le_mono_r; lia. }
  assert (Hnz : FloatOps.Prim2SF (of_uint63 (Uint63Axioms.of_Z (Zpos m))) <>
                SpecFloat.S754_zero true).
  { intros Hz. rewrite Hz in Hs. cbn [scaled] in Hs.
    assert (0 < Zpos m * 2 ^ 1074) by (apply Z.mul_pos_pos; lia). lia. }
  destruct (scaled_cases _ Hvalid Hn Hnz) as [[_ S0]|[[_ S0]|(m' & e' & Ex & Sx & Kx)]].
  - assert (0 < Zpos m * 2 ^ 1074) by (apply Z.mul_pos_pos; lia). lia.
  - exfalso. rewrite Hs in S0.
    assert (Zpos m * 2 ^ 1074 < 2 ^ 53 * 2 ^ 1074) by (apply Z.mul_lt_mono_pos_r; lia).
    rewrite <- Z.pow_add_r in * by lia. unfold INF in S0.
    assert (2 ^ (53 + 1074) <= 2 ^ 2100) by (apply Z.pow_le_mono_r; lia). lia.
  - rewrite Ex in *. cbn [SpecFloat.SFldexp]. cbn [scaled] in Hs, Kx.
    rewrite Hs in Kx.
    assert (He' : 1022 <= e' + 1074).
    { rewrite <- Kx. unfold shift_of. rewrite digits_shift by lia.
      pose proof (digits_pos (Zpos m)). lia. }
    destruct (binary_round_scaled m' (e' + e) ltac:(lia)) as [-> _].
    assert (Heq : Zpos m' * 2 ^ (e' + e + 1074) = Zpos m * 2 ^ (e + 1074)).
    { destruct (Z.le_gt_cases 0 e) as [Hpos|Hneg].
      - replace (e' + e + 1074) with ((e' + 1074) + e) by lia.
        rewrite Z.pow_add_r by lia. rewrite Z.mul_assoc, Hs.
        rewrite (Z.add_comm e 1074), Z.pow_add_r by lia. lia.
      - assert (0 < 2 ^ (- e)) by (apply Z.pow_pos_nonneg; lia).
        apply (Z.mul_reg_r _ _ (2 ^ (- e))); [lia|].
        rewrite <- !Z.mul_assoc, <- !Z.pow_add_r by lia.
        replace (e' + e + 1074 + - e) with (e' + 1074) by lia.
        replace (e + 1074 + - e) with 1074 by lia. exact Hs. }
    rewrite Heq. apply Hgrid; lia.
Qed.

Lemma binary32_fields w :
  0 <= w < 2139095040 ->
  Z.testbit w 31 = false /\
  0 <= Z.land (Z.shiftr w 23) 255 < 255 /\
  0 <= Z.land w 8388607 < 8388608.
Proof.
  intros [Hlo Hhi]. split; [|split].
  - apply Z.testbit_false; [lia|].
    rewrite Z.div_small; [done|]. split; [lia|]. eapply Z.lt_trans; [exact Hhi | reflexivity].
  - assert (0 <= w / 2 ^ 23 < 255).
    { split; [apply Z.div_pos; lia|]. apply Z.div_lt_upper_bound; [lia|].
      eapply Z.lt_le_trans; [exact Hhi | reflexivity]. }
    assert (Z.land (Z.shiftr w 23) 255 = w / 2 ^ 23) as ->; [|done].
    change 255 with (Z.ones 8). rewrite Z.land_ones, Z.shiftr_div_pow2 by lia.
    apply Z.mod_small. lia.
  - change 8388607 with (Z.ones 23). rewrite Z.land_ones by lia.
    change 8388608 with (2 ^ 23). apply Z.mod_pos_bound. lia.
Qed.

Lemma units_bounds w : 0 <= w < 2139095040 -> 0 <= F32.units w < 2 ^ 1202.
Proof.
  intros Hw. destruct (binary32_fields w Hw) as (_ & He & Hm).
  unfold F32.units. cbv zeta.
  set (e := Z.land (Z.shiftr w 23) 255) in *. set (m := Z.land w 8388607) in *.
  destruct (Z.eqb_spec e 0) as [_|Hne].
  - assert (0 < 2 ^ 925) by (apply Z.pow_pos_nonneg; lia).
    split; [apply Z.mul_nonneg_nonneg; lia|].
    assert (m * 2 ^ 925 < 2 ^ 23 * 2 ^ 925) by (apply Z.mul_lt_mono_pos_r; lia).
    assert (2 ^ 23 * 2 ^ 925 <= 2 ^ 1202)
      by (rewrite <- Z.pow_add_r by lia; apply Z.pow_le_mono_r; lia).
    lia.
  - assert (0 < 2 ^ (e + 924)) by (apply Z.pow_pos_nonneg; lia).
    split; [apply Z.mul_nonneg_nonneg; lia|].
    assert ((m + 8388608) * 2 ^ (e + 924) < 2 ^ 24 * 2 ^ (e + 924))
      by (apply Z.mul_lt_mono_pos_r; lia).
    assert (2 ^ 24 * 2 ^ (e + 924) <= 2 ^ 1202)
      by (rewrite <- Z.pow_add_r by lia; apply Z.pow_le_mono_r; lia).
    lia.
Qed.

Lemma val_to_double w : 0 <= w < 2139095040 -> val (F32.to_double w) = F32.units w.
Proof.
  intros Hw. pose proof (units_bounds w Hw) as Hb.
  destruct (binary32_fields w Hw) as (Hs & He & Hm).
  unfold F32.to_double, F32.decode, F32.units in *. cbv zeta in *. rewrite Hs.
  set (e := Z.land (Z.shiftr w 23) 255) in *. set (m := Z.land w 8388607) in *.
  assert (H1202 : 2 ^ 1202 < OVERFLOW) by reflexivity.
  destruct (Z.eqb_spec e 255) as [?|_]; [lia|].
  destruct (Z.eqb_spec e 0) as [He0|Hne].
  - destruct m as [|p|p] eqn:Em; [reflexivity| |lia].
    rewrite val_SF2Prim_finite; [reflexivity | lia | lia |].
    change (-149 + 1074) with 925. lia.
  - destruct (m + 8388608) as [|p|p] eqn:Em; [lia| |lia].
    replace (e + 924) with (e - 150 + 1074) in * by lia.
    rewrite val_SF2Prim_finite; [reflexivity | lia | lia | lia].
Qed.

End Widening.

Section Finite.

Import Binary64.
Local Open Scope Z_scope.

Lemma finite_below_infinity v : 0 <= val v < INF -> (v <? infinity)%float = true.
Proof.
  unfold val. rewrite FloatAxioms.ltb_spec.
  change (FloatOps.Prim2SF infinity) with (SpecFloat.S754_infinity false).
  destruct (FloatOps.Prim2SF v) as [s|[|]| |[|] m e]; cbn [scaled]; try lia; done.
Qed.

Lemma edge_value_finite tree n :
  finite_edges tree -> 0 <= val (edge_value tree n) < 2 ^ 1202.
Proof.
  intros Hfin. unfold edge_value, get_edge_length. rewrite vec_at_lookup.
  destruct (ct_nodes tree !! N.to_nat n) as [nd|] eqn:Hnd; simpl.
  - unfold finite_edges in Hfin. rewrite Forall_forall in Hfin.
    assert (0 <= node_length nd < 2139095040) as Hw
      by (apply Hfin; by eapply list_elem_of_lookup_2).
    rewrite (val_to_double _ Hw). by apply units_bounds.
  - change (val zero) with 0. split; [done | by apply Z.pow_pos_nonneg].
Qed.

Lemma add_scaled_bound u v k :
  0 <= k -> k + 1 < 2 ^ 53 ->
  0 <= u <= k * 2 ^ 1202 -> 0 <= v < 2 ^ 1202 ->
  add_scaled u v <= (k + 1) * 2 ^ 1202.
Proof.
  intros Hk Hk1 Hu Hv.
  assert (HB : 0 < 2 ^ 1202) by (by apply Z.pow_pos_nonneg).
  etrans; [apply (add_scaled_mono u (k * 2 ^ 1202) v); lia|].
  rewrite add_scaled_comm.
  etrans; [apply (add_scaled_mono v (2 ^ 1202) (k * 2 ^ 1202)); [lia | lia | nia]|].
  unfold add_scaled.
  assert (Hlt : (k + 1) * 2 ^ 1202 < OVERFLOW).
  { eapply Z.lt_le_trans; [apply Z.mul_lt_mono_pos_r; [done | exact Hk1]|].
    rewrite <- Z.pow_add_r by lia. unfold OVERFLOW. apply Z.pow_le_mono_r; lia. }
  pose proof INF_gt_OVERFLOW.
  destruct (Z.leb_spec INF (2 ^ 1202)); [nia|].
  destruct (Z.leb_spec INF (k * 2 ^ 1202)); [nia|]. cbn [orb].
  replace (2 ^ 1202 + k * 2 ^ 1202) with ((k + 1) * 2 ^ 1202) by lia.
  rewrite (round_even_on_grid _ 1202); [| lia | |].
  - unfold clamp. destruct (Z.ltb_spec ((k + 1) * 2 ^ 1202) OVERFLOW); lia.
  - split; [nia|]. rewrite (Z.add_comm 1202 53), Z.pow_add_r by lia.
    apply Z.mul_lt_mono_pos_r; lia.
  - apply Z.mod_mul. lia.
Qed.

Lemma edge_sum_bound tree l : forall acc k,
  finite_edges tree ->
  0 <= k -> k + Z.of_nat (length l) < 2 ^ 53 ->
  0 <= val acc <= k * 2 ^ 1202 ->
  0 <= val (edge_sum tree acc l) <= (k + Z.of_nat (length l)) * 2 ^ 1202.
Proof.
  induction l as [|n l IH]; intros acc k Hfin Hk Hlen Hacc.
  - change (edge_sum tree acc []) with acc.
    change (Z.of_nat (length (@nil N))) with 0. by rewrite Z.add_0_r.
  - cbn [edge_sum foldl]. fold (edge_sum tree (acc + edge_value tree n)%float l).
    rewrite length_cons, Nat2Z.inj_succ in *.
    pose proof (edge_value_finite tree n Hfin) as Hn.
    destruct (val_add acc (edge_value tree n)) as [Hv Hnn]; [lia | lia |].
    replace (k + Z.succ (Z.of_nat (length l))) with ((k + 1) + Z.of_nat (length l)) by lia.
    apply IH; [done | lia | lia |].
    split; [done|]. rewrite Hv. apply add_scaled_bound; lia.
Qed.

Lemma paths_within_tree fuel tree mrca leaves ls :
  mapM (path_to fuel tree mrca) leaves = Done ls ->
  forall n, n ∈ concat ls -> n ∈ node_ids tree.
Proof.
  intros Hls%mapM_Done_Forall2 n (p & Hn & Hp)%elem_of_concat.
  apply list_elem_of_lookup in Hp as [i Hi].
  destruct (Forall2_lookup_r _ _ _ _ _ Hls Hi) as (leaf & _ & Hpath).
  apply path_to_chain in Hpath as [Hc _].
  apply elem_of_node_ids. by eapply chain_in_range.
Qed.

(** X6. With finite, non-negative edge lengths in a tree of fewer than 2^32
    nodes, the PD that is returned is a finite, non-negative double: the sum
    cannot overflow to infinity and is never a NaN. *)
Theorem pd_is_finite (fuel : nat) (tree : compact_tree) (leaf_nodes : list CT_NODE_T)
    (v : float) :
  finite_edges tree ->
  Z.of_nat (length (ct_nodes tree)) < 4294967296 ->
  calculate_faiths_pd_optimized fuel tree leaf_nodes = Done v ->
  fle 0%float v /\ (v <? infinity)%float = true.
Proof.
  intros Hfin Hsize. rewrite pd_optimized_paths. unfold pd_of_paths.
  destruct (length leaf_nodes <? 2)%nat; [by intros [= <-]|].
  destruct (find_mrca tree (leaf_set_of leaf_nodes)) as [mrca|]; [|done].
  change (of_option (Some mrca) ≫= ?k) with (k mrca). cbv beta.
  destruct (mapM (path_to fuel tree mrca) leaf_nodes) as [ls| |] eqn:Hls; try done.
  intros [= <-].
  set (counted := first_visits [] (concat ls)).
  assert (Hlen : (length counted <= length (ct_nodes tree))%nat).
  { replace (length (ct_nodes tree)) with (length (node_ids tree))
      by (unfold node_ids; by rewrite length_map, length_seq).
    apply submseteq_length, NoDup_submseteq; [apply first_visits_NoDup; constructor|].
    intros n [[]%elem_of_nil|Hn]%first_visits_elem. by eapply paths_within_tree. }
  destruct (edge_sum_bound tree counted zero 0 Hfin) as [Hlo Hhi]; [lia | | done |].
  { assert (2 ^ 32 < 2 ^ 53) by (by apply Z.pow_lt_mono_r). lia. }
  split; [by apply fle_zero|]. apply finite_below_infinity. split; [done|].
  eapply Z.le_lt_trans; [exact Hhi|].
  assert (Z.of_nat (length counted) * 2 ^ 1202 < 2 ^ 32 * 2 ^ 1202)
    by (apply Z.mul_lt_mono_pos_r; [by apply Z.pow_pos_nonneg | lia]).
  assert (2 ^ 32 * 2 ^ 1202 <= INF)
    by (rewrite <- Z.pow_add_r by lia; unfold INF; apply Z.pow_le_mono_r; lia).
  lia.
Qed.

Lemma pd_is_finite_witness :
  fle 0%float 6%float /\ (6 <? infinity)%float = true.
Proof.
  apply (pd_is_finite 5 Scenario.tree [Scenario.X; Scenario.B] 6%float).
  - unfold finite_edges. simpl. repeat (constructor; [vm_compute; done|]). constructor.
  - simpl. lia.
  - vm_compute. reflexivity.
Defined.

End Finite.

(** ** The dump on any host *)

Lemma to_uint32_fits v : u32_range v -> Dump.to_uint32 v = v.
Proof. intros Hv. unfold Dump.to_uint32. apply Z.mod_small. exact Hv. Qed.

Lemma object_bytes_length host v : length (Dump.object_bytes host v) = 4%nat.
Proof. by destruct host. Qed.

Lemma low_to_high_inj v v' :
  u32_range v -> u32_range v' -> Dump.low_to_high v = Dump.low_to_high v' -> v = v'.
Proof.
  unfold u32_range, Dump.low_to_high. intros Hv Hv' [= H0 H1 H2 H3].
  assert (Hsplit : forall x, (0 <= x < 4294967296 ->
            x = x mod 256 + 256 * (x / 256 mod 256) + 65536 * (x / 65536 mod 256)
                + 16777216 * (x / 16777216 mod 256))%Z).
  { intros x Hx.
    pose proof (Z.div_mod x 256 ltac:(lia)).
    pose proof (Z.div_mod (x / 256) 256 ltac:(lia)).
    pose proof (Z.div_mod (x / 256 / 256) 256 ltac:(lia)).
    rewrite !Z.div_div in * by lia.
    change (256 * 256 * 256)%Z with 16777216%Z in *.
    change (256 * 256)%Z with 65536%Z in *.
    assert (x / 16777216 < 256)%Z by (apply Z.div_lt_upper_bound; lia).
    assert (0 <= x / 16777216)%Z by (apply Z.div_pos; lia).
    rewrite (Z.mod_small (x / 16777216) 256) by lia. lia. }
  rewrite (Hsplit v Hv), (Hsplit v' Hv'). congruence.
Qed.

Lemma object_bytes_inj host v v' :
  u32_range v -> u32_range v' ->
  Dump.object_bytes host v = Dump.object_bytes host v' -> v = v'.
Proof.
  intros Hv Hv'. destruct host; unfold Dump.object_bytes.
  - by apply low_to_high_inj.
  - intros H. apply low_to_high_inj; [done | done |].
    apply (f_equal (@rev Z)) in H. by rewrite !rev_involutive in H.
Qed.

Lemma write_children_bytes host (children : list CT_NODE_T) : forall out : list Z,
  Forall (fun c => u32_range (Z.of_N c)) children ->
  foldl (fun (out : list Z) child => Dump.write_u32 host out (Z.of_N child)) out children =
  out ++ concat (map (fun c => Dump.object_bytes host (Z.of_N c)) children).
Proof.
  induction children as [|c children IH]; intros out Hfit; simpl.
  - by rewrite app_nil_r.
  - apply Forall_cons in Hfit as [Hc Hfit]. rewrite IH by done.
    unfold Dump.write_u32. rewrite to_uint32_fits by done. by rewrite <- app_assoc.
Qed.

Lemma write_node_bytes host tree out i nd :
  ct_nodes tree !! N.to_nat i = Some nd ->
  node_fits nd ->
  Dump.write_node host tree out i = Done (out ++ Dump.record_bytes host nd).
Proof.
  intros Hnd (Hp & Hn & Hcs & Hl & He).
  unfold Dump.write_node, get_parent, get_children, get_label, get_edge_length.
  rewrite vec_at_lookup, Hnd. simpl.
  rewrite write_children_bytes by done.
  unfold Dump.write_f32, Dump.write_string, Dump.write_u32. cbv zeta.
  rewrite !(to_uint32_fits _ Hp), !(to_uint32_fits _ Hn), !(to_uint32_fits _ Hl).
  rewrite Nat2Z.id.
  rewrite take_ge by (by rewrite string_bytes_length).
  unfold Dump.record_bytes. by rewrite <- !app_assoc.
Qed.

Lemma node_loop_bytes host tree rest : forall before out,
  ct_nodes tree = before ++ rest ->
  Forall node_fits rest ->
  Dump.node_loop host tree (length rest) (N.of_nat (length before)) out =
    Done (out ++ concat (map (Dump.record_bytes host) rest)).
Proof.
  induction rest as [|nd rest IH]; intros before out Hnodes Hfits; simpl.
  - by rewrite app_nil_r.
  - apply Forall_cons in Hfits as [Hnd Hrest].
    rewrite (write_node_bytes host tree out _ nd); [|  |done].
    2:{ rewrite Nat2N.id, Hnodes. by apply list_lookup_middle. }
    simpl.
    replace (N.of_nat (length before) + 1) with (N.of_nat (length (before ++ [nd])))
      by (rewrite length_app; simpl; lia).
    rewrite (IH (before ++ [nd])); [|by rewrite <- app_assoc|done].
    by rewrite <- app_assoc.
Qed.

(** The output of [main] in closed form. *)
Lemma main_bytes host tree :
  tree_fits tree ->
  Dump.main host tree =
  Done (Dump.object_bytes host (Z.of_nat (length (ct_nodes tree))) ++
        Dump.object_bytes host (Z.of_N (ct_num_leaves tree)) ++
        concat (map (Dump.record_bytes host) (ct_nodes tree))).
Proof.
  intros (Hn & Hl & Hnodes).
  unfold Dump.main, get_num_nodes, get_num_leaves. rewrite nat_N_Z.
  unfold Dump.write_u32. cbv zeta.
  rewrite !(to_uint32_fits _ Hn), !(to_uint32_fits _ Hl), Nat2Z.id.
  rewrite (node_loop_bytes host tree (ct_nodes tree) []); [|done|done].
  cbn [app]. by rewrite <- app_assoc.
Qed.

Lemma record_bytes_length host nd :
  length (Dump.record_bytes host nd) = Dump.record_size nd.
Proof.
  unfold Dump.record_bytes, Dump.record_size.
  rewrite !length_app, !object_bytes_length, string_bytes_length.
  assert (length (concat (map (fun c => Dump.object_bytes host (Z.of_N c))
                            (node_children nd))) = 4 * length (node_children nd))%nat as ->;
    [|lia].
  induction (node_children nd) as [|c cs IH]; [done|].
  cbn [map concat]. rewrite length_app, object_bytes_length, IH. simpl. lia.
Qed.

(** X7. For a tree whose fields fit the 32-bit types, [main] writes, on a
    host of either byte order, 8 bytes of header and for every node 16 bytes
    plus 4 bytes per child plus the bytes of its label. *)
Theorem dump_size (host : Dump.byte_order) (tree : compact_tree) :
  tree_fits tree ->
  exists bytes,
    Dump.main host tree = Done bytes /\
    length bytes = (8 + sum_list (map Dump.record_size (ct_nodes tree)))%nat.
Proof.
  intros Hfits. eexists. split; [by apply main_bytes|].
  rewrite !length_app, !object_bytes_length.
  assert (length (concat (map (Dump.record_bytes host) (ct_nodes tree))) =
          sum_list (map Dump.record_size (ct_nodes tree))) as ->; [|lia].
  induction (ct_nodes tree) as [|nd nodes IH]; [done|].
  cbn [map concat sum_list sum_list_with]. by rewrite length_app, record_bytes_length, IH.
Qed.

Lemma dump_size_witness :
  exists bytes,
    Dump.main Dump.BigEndian Scenario.tree = Done bytes /\
    length bytes = (8 + sum_list (map Dump.record_size (ct_nodes Scenario.tree)))%nat.
Proof. apply (dump_size Dump.BigEndian Scenario.tree). exact scenario_tree_fits. Defined.

Lemma string_bytes_inj s1 s2 : Dump.string_bytes s1 = Dump.string_bytes s2 -> s1 = s2.
Proof.
  unfold Dump.string_bytes. revert s2.
  induction s1 as [|c1 s1 IH]; intros [|c2 s2]; simpl; try done.
  intros [= Hc Hs]. f_equal; [|by apply IH].
  apply N2Z.inj in Hc. rewrite <- (ascii_N_embedding c1), <- (ascii_N_embedding c2).
  by rewrite Hc.
Qed.

Lemma children_bytes_inj host (cs1 : list CT_NODE_T) : forall cs2 r1 r2,
  Forall (fun c => u32_range (Z.of_N c)) cs1 ->
  Forall (fun c => u32_range (Z.of_N c)) cs2 ->
  length cs1 = length cs2 ->
  concat (map (fun c => Dump.object_bytes host (Z.of_N c)) cs1) ++ r1 =
  concat (map (fun c => Dump.object_bytes host (Z.of_N c)) cs2) ++ r2 ->
  cs1 = cs2 /\ r1 = r2.
Proof.
  induction cs1 as [|c1 cs1 IH]; intros [|c2 cs2] r1 r2 H1 H2 Hlen; simpl in *; try done.
  apply Forall_cons in H1 as [Hc1 H1]. apply Forall_cons in H2 as [Hc2 H2].
  rewrite <- !app_assoc. intros Heq.
  apply app_inj_1 in Heq as [Hc Heq]; [|by rewrite !object_bytes_length].
  apply object_bytes_inj, N2Z.inj in Hc; [|done|done]. subst c2.
  destruct (IH cs2 r1 r2) as [-> ->]; try done. lia.
Qed.

Lemma record_bytes_inj host nd1 nd2 r1 r2 :
  node_fits nd1 -> node_fits nd2 ->
  Dump.record_bytes host nd1 ++ r1 = Dump.record_bytes host nd2 ++ r2 ->
  nd1 = nd2 /\ r1 = r2.
Proof.
  intros (Hp1 & Hn1 & Hcs1 & Hl1 & He1) (Hp2 & Hn2 & Hcs2 & Hl2 & He2).
  destruct nd1 as [p1 cs1 l1 e1], nd2 as [p2 cs2 l2 e2].
  unfold Dump.record_bytes. cbn [node_parent node_children node_label node_length] in *.
  rewrite <- !app_assoc. intros Heq.
  apply app_inj_1 in Heq as [Hp Heq]; [|by rewrite !object_bytes_length].
  apply object_bytes_inj, N2Z.inj in Hp; [|done|done]. subst p2.
  apply app_inj_1 in Heq as [Hn Heq]; [|by rewrite !object_bytes_length].
  apply object_bytes_inj, Nat2Z.inj in Hn; [|done|done].
  apply children_bytes_inj in Heq as [-> Heq]; [|done|done|done].
  apply app_inj_1 in Heq as [Hl Heq]; [|by rewrite !object_bytes_length].
  apply object_bytes_inj, Nat2Z.inj in Hl; [|done|done].
  apply app_inj_1 in Heq as [Hs Heq]; [|by rewrite !string_bytes_length].
  apply string_bytes_inj in Hs. subst l2.
  apply app_inj_1 in Heq as [He Heq]; [|by rewrite !object_bytes_length].
  apply object_bytes_inj in He; [|done|done]. by subst e2.
Qed.

Lemma records_inj host nodes1 : forall nodes2,
  Forall node_fits nodes1 -> Forall node_fits nodes2 ->
  length nodes1 = length nodes2 ->
  concat (map (Dump.record_bytes host) nodes1) =
  concat (map (Dump.record_bytes host) nodes2) ->
  nodes1 = nodes2.
Proof.
  induction nodes1 as [|nd1 nodes1 IH]; intros [|nd2 nodes2] H1 H2 Hlen; simpl in *;
    try done.
  apply Forall_cons in H1 as [Hf1 H1]. apply Forall_cons in H2 as [Hf2 H2].
  intros Heq. apply record_bytes_inj in Heq as [-> Heq]; [|done|done].
  f_equal. apply IH; try done. lia.
Qed.

(** X8. The dump loses nothing: two trees whose fields fit the 32-bit types
    and that give the same file (on hosts of the same byte order) are the
    same tree, node by node: parents, children and their order, labels, edge
    length patterns, and the leaf count. *)
Theorem dump_is_injective (host : Dump.byte_order) (tree1 tree2 : compact_tree) :
  tree_fits tree1 -> tree_fits tree2 ->
  Dump.main host tree1 = Dump.main host tree2 ->
  tree1 = tree2.
Proof.
  intros Hf1 Hf2. rewrite !main_bytes by done.
  destruct Hf1 as (Hn1 & Hl1 & Hnodes1), Hf2 as (Hn2 & Hl2 & Hnodes2).
  intros [= Heq].
  apply app_inj_1 in Heq as [Hn Heq]; [|by rewrite !object_bytes_length].
  apply object_bytes_inj, Nat2Z.inj in Hn; [|done|done].
  apply app_inj_1 in Heq as [Hl Heq]; [|by rewrite !object_bytes_length].
  apply object_bytes_inj, N2Z.inj in Hl; [|done|done].
  apply records_inj in Heq; [|done|done|done].
  destruct tree1, tree2. simpl in *. by subst.
Qed.

Lemma dump_is_injective_witness :
  Scenario.tree =
  {| ct_nodes := ct_nodes Scenario.tree; ct_num_leaves := 1 + 2 |}.
Proof.
  apply (dump_is_injective Dump.LittleEndian).
  - exact scenario_tree_fits.
  - exact scenario_tree_fits.
  - vm_compute. reflexivity.
Defined.

Lemma Done_inj {A} (a b : A) : Done a = Done b -> a = b.
Proof. by intros [= ->]. Qed.

(** X9. The file depends on the byte order of the host that wrote it: for
    every tree of 1 to 65535 nodes whose fields fit, the dump of a big-endian
    host differs from that of a little-endian host (already in the node
    count). *)
Theorem dump_depends_on_host (tree : compact_tree) :
  tree_fits tree ->
  (0 < Z.of_nat (length (ct_nodes tree)) < 65536)%Z ->
  Dump.main Dump.BigEndian tree <> Dump.main Dump.LittleEndian tree.
Proof.
  intros Hfits Hsize. rewrite !main_bytes by done. intros Heq%Done_inj.
  apply app_inj_1 in Heq as [Hn _]; [|by rewrite !object_bytes_length].
  unfold Dump.object_bytes, Dump.low_to_high in Hn. cbn [rev app] in Hn.
  injection Hn as H3 H2 _ _.
  set (n := Z.of_nat (length (ct_nodes tree))) in *.
  assert (0 < n < 65536)%Z as Hn by lia.
  rewrite (Z.div_small n 16777216) in H3 by lia.
  rewrite (Z.div_small n 65536) in H2 by lia.
  change (0 mod 256)%Z with 0%Z in *.
  pose proof (Z.div_mod n 256 ltac:(lia)) as Hdiv.
  assert (0 <= n / 256 < 256)%Z as Hq.
  { split; [apply Z.div_pos; lia | apply Z.div_lt_upper_bound; lia]. }
  rewrite (Z.mod_small (n / 256) 256) in H2 by lia. lia.
Qed.

Lemma dump_depends_on_host_witness :
  Dump.main Dump.BigEndian Scenario.tree <> Dump.main Dump.LittleEndian Scenario.tree.
Proof.
  apply (dump_depends_on_host Scenario.tree); [exact scenario_tree_fits | simpl; lia].
Defined.

(** ** Reading lines and fields *)

Lemma append_cons c s t : String c s +:+ t = String c (s +:+ t).
Proof. reflexivity. Qed.

Lemma append_nil_l t : "" +:+ t = t.
Proof. reflexivity. Qed.

Lemma append_nil_r s : s +:+ "" = s.
Proof. induction s as [|c s IH]; [done|]. by rewrite append_cons, IH. Qed.

Lemma append_assoc s1 s2 s3 : (s1 +:+ s2) +:+ s3 = s1 +:+ s2 +:+ s3.
Proof. induction s1 as [|c s1 IH]; [done|]. by rewrite !append_cons, IH. Qed.

Lemma length_append s1 s2 :
  String.length (s1 +:+ s2) = (String.length s1 + String.length s2)%nat.
Proof. induction s1 as [|c s1 IH]; [done|]. rewrite append_cons. simpl. by rewrite IH. Qed.

(** A line that ends inside the first part of the input. *)
Lemma read_line_delim delim s rest :
  has_char delim s = false ->
  read_line delim (s +:+ String delim rest) = (s, rest).
Proof.
  induction s as [|c s IH]; simpl.
  - intros _. rewrite ?append_nil_l. simpl. by rewrite Ascii.eqb_refl.
  - intros [Hc Hs]%orb_false_iff. rewrite ?append_cons. simpl. by rewrite Hc, (IH Hs).
Qed.

(** The last line, without a delimiter after it. *)
Lemma read_line_end delim s :
  has_char delim s = false -> read_line delim s = (s, EmptyString).
Proof.
  induction s as [|c s IH]; simpl; [done|].
  intros [Hc Hs]%orb_false_iff. by rewrite Hc, (IH Hs).
Qed.

Lemma read_line_length delim s :
  (String.length (read_line delim s).2 <= String.length s)%nat.
Proof.
  induction s as [|c s IH]; simpl; [done|].
  destruct (Ascii.eqb c delim); simpl; [lia|].
  destruct (read_line delim s) as [l r]. simpl in *. lia.
Qed.

Lemma getline_delim delim s rest :
  has_char delim s = false ->
  getline (s +:+ String delim rest) delim = Some (s, rest).
Proof.
  intros Hs. unfold getline.
  destruct (s +:+ String delim rest) as [|c t] eqn:E.
  - by destruct s.
  - by rewrite <- E, read_line_delim.
Qed.

Lemma csv_field_comma field rest :
  has_char "," field = false ->
  Bench.csv_field (field +:+ String "," rest) = (field, rest).
Proof. intros H. unfold Bench.csv_field. by rewrite getline_delim. Qed.

Lemma csv_field_sep field rest :
  has_char "," field = false ->
  Bench.csv_field (field +:+ "," +:+ rest) = (field, rest).
Proof. apply csv_field_comma. Qed.

Lemma csv_field_last field :
  has_char "," field = false -> Bench.csv_field field = (field, EmptyString).
Proof.
  intros H. unfold Bench.csv_field, getline. destruct field as [|c s]; [done|].
  by rewrite read_line_end.
Qed.

Lemma mapping_loop_step fuel file wfo_to_tip :
  Bench.mapping_loop (S fuel) file wfo_to_tip =
  match getline file LF with
  | None => Done wfo_to_tip
  | Some (line, file') => Bench.mapping_loop fuel file' (add_row line wfo_to_tip)
  end.
Proof.
  cbn [Bench.mapping_loop]. fold LF. destruct (getline file LF) as [[line file']|]; [|done].
  unfold add_row.
  destruct (Bench.csv_field line) as [wfo_id ss1].
  destruct (Bench.csv_field ss1) as [f2 ss2].
  destruct (Bench.csv_field ss2) as [f3 ss3].
  destruct (Bench.csv_field ss3) as [f4 ss4].
  destruct (Bench.csv_field ss4) as [f5 ss5].
  by destruct (Bench.csv_field ss5) as [tree_tip ss6].
Qed.

Lemma mapping_loop_mono fuel : forall fuel' file m r,
  Bench.mapping_loop fuel file m = Done r -> (fuel <= fuel')%nat ->
  Bench.mapping_loop fuel' file m = Done r.
Proof.
  induction fuel as [|fuel IH]; intros fuel' file m r Hr Hle.
  - destruct fuel' as [|fuel']; [done|]. rewrite mapping_loop_step.
    cbn [Bench.mapping_loop] in Hr. fold LF in Hr.
    by destruct (getline file LF) as [[line file']|].
  - destruct fuel' as [|fuel']; [lia|]. rewrite mapping_loop_step in Hr |- *.
    destruct (getline file LF) as [[line file']|]; [|done]. apply (IH fuel'); [done | lia].
Qed.

(** The loop ends: every line read shortens the input. *)
Lemma mapping_loop_returns fuel : forall file m,
  (String.length file <= fuel)%nat -> exists r, Bench.mapping_loop fuel file m = Done r.
Proof.
  induction fuel as [|fuel IH]; intros file m Hlen.
  - destruct file; [|simpl in Hlen; lia]. by exists m.
  - rewrite mapping_loop_step. unfold getline. destruct file as [|c s]; [by exists m|].
    pose proof (read_line_length LF (String c s)) as Hr.
    destruct (read_line LF (String c s)) as [line file'] eqn:E. apply IH.
    simpl in E. destruct (Ascii.eqb c LF).
    + injection E as <- <-. simpl in Hlen. lia.
    + destruct (read_line LF s) as [l r] eqn:E'. injection E as <- <-.
      pose proof (read_line_length LF s) as Hs. rewrite E' in Hs. simpl in *. lia.
Qed.

Lemma terminated_append_LF body : terminated (body +:+ String LF EmptyString).
Proof.
  induction body as [|c body IH].
  - apply (terminated_line EmptyString EmptyString); [done | constructor].
  - rewrite append_cons. destruct (Ascii.eqb c LF) eqn:Hc.
    + apply Ascii.eqb_eq in Hc as ->.
      by apply (terminated_line EmptyString (body +:+ String LF EmptyString)).
    + inversion IH as [Hnil|line rest Hline Hrest Heq].
      * by destruct body.
      * rewrite <- append_cons. apply terminated_line; [|done]. simpl. by rewrite Hc.
Qed.

Lemma mapping_loop_nil fuel m : Bench.mapping_loop fuel EmptyString m = Done m.
Proof. by destruct fuel. Qed.

Lemma mapping_loop_append file1 :
  terminated file1 -> forall fuel m0 m1,
  Bench.mapping_loop fuel file1 m0 = Done m1 ->
  forall fuel2 file2 r, Bench.mapping_loop fuel2 file2 m1 = Done r ->
  Bench.mapping_loop (fuel + fuel2) (file1 +:+ file2) m0 = Done r.
Proof.
  induction 1 as [|line rest Hline Hrest IH]; intros fuel m0 m1 H1 fuel2 file2 r H2.
  - rewrite mapping_loop_nil in H1. injection H1 as <-. rewrite append_nil_l.
    apply (mapping_loop_mono fuel2); [done | lia].
  - destruct fuel as [|fuel].
    { cbn [Bench.mapping_loop] in H1. fold LF in H1.
      by rewrite getline_delim in H1. }
    rewrite mapping_loop_step, getline_delim in H1 by done.
    rewrite append_assoc, append_cons. cbn [Nat.add].
    rewrite mapping_loop_step, getline_delim by done. by eapply IH.
Qed.

Lemma load_mapping_header header rest fuel :
  has_char LF header = false ->
  Bench.load_mapping fuel (header +:+ String LF rest) =
  Bench.mapping_loop fuel rest ∅.
Proof.
  intros Hh. unfold Bench.load_mapping. cbv zeta. fold LF. by rewrite getline_delim.
Qed.

(** Appending a complete line to a text of complete lines adds its row. *)
Lemma load_mapping_append fuel body m row :
  has_char LF row = false ->
  Bench.load_mapping fuel (body +:+ String LF EmptyString) = Done m ->
  Bench.load_mapping (S fuel)
    (body +:+ String LF EmptyString +:+ row +:+ String LF EmptyString) =
  Done (add_row row m).
Proof.
  intros Hrow. rewrite <- append_assoc.
  pose proof (terminated_append_LF body) as Hterm.
  inversion Hterm as [Hnil|header rest Hheader Hrest Heq]; [by destruct body|].
  rewrite append_assoc, append_cons, !load_mapping_header by done.
  intros Hm. replace (S fuel) with (fuel + 1)%nat by lia.
  eapply mapping_loop_append; [done | exact Hm |].
  rewrite mapping_loop_step, getline_delim by done. apply mapping_loop_nil.
Qed.

Lemma add_row_six a b c d e f m :
  has_char "," a = false -> has_char "," b = false -> has_char "," c = false ->
  has_char "," d = false -> has_char "," e = false -> has_char "," f = false ->
  add_row (a +:+ "," +:+ b +:+ "," +:+ c +:+ "," +:+ d +:+ "," +:+ e +:+ "," +:+ f) m =
  if String.eqb f EmptyString then m else <[a := f]> m.
Proof.
  intros Ha Hb Hc Hd He Hf. unfold add_row.
  rewrite !csv_field_sep by done. rewrite csv_field_last by done.
  by destruct (String.eqb f EmptyString).
Qed.

Lemma read_line_count delim s :
  (count_char delim s = 0%nat -> (read_line delim s).2 = EmptyString) /\
  count_char delim (read_line delim s).2 = Nat.pred (count_char delim s).
Proof.
  induction s as [|c s [IH1 IH2]]; simpl; [done|].
  destruct (Ascii.eqb c delim); simpl; [split; [lia | done]|].
  destruct (read_line delim s) as [l r]. simpl in *. done.
Qed.

Lemma csv_field_count ss :
  (count_char "," ss = 0%nat -> (Bench.csv_field ss).2 = EmptyString) /\
  count_char "," (Bench.csv_field ss).2 = Nat.pred (count_char "," ss).
Proof.
  unfold Bench.csv_field, getline. destruct ss as [|c s]; [done|].
  pose proof (read_line_count "," (String c s)) as H.
  by destruct (read_line "," (String c s)) as [l r].
Qed.

Lemma add_row_short row m : (count_char "," row <= 4)%nat -> add_row row m = m.
Proof.
  intros Hrow. unfold add_row.
  pose proof (csv_field_count row) as [_ H1].
  destruct (Bench.csv_field row) as [wfo_id ss1]. simpl in H1.
  pose proof (csv_field_count ss1) as [_ H2].
  destruct (Bench.csv_field ss1) as [f2 ss2]. simpl in H2.
  pose proof (csv_field_count ss2) as [_ H3].
  destruct (Bench.csv_field ss2) as [f3 ss3]. simpl in H3.
  pose proof (csv_field_count ss3) as [_ H4].
  destruct (Bench.csv_field ss3) as [f4 ss4]. simpl in H4.
  pose proof (csv_field_count ss4) as [H5 _].
  destruct (Bench.csv_field ss4) as [f5 ss5]. simpl in H5.
  rewrite H5 by lia. done.
Qed.

(** X10. [load_mapping] never maps an id to an empty tip name. *)
Theorem mapping_has_no_empty_tip (fuel : nat) (file : string)
    (wfo_to_tip : gmap string string) (wfo_id tree_tip : string) :
  Bench.load_mapping fuel file = Done wfo_to_tip ->
  wfo_to_tip !! wfo_id = Some tree_tip ->
  tree_tip <> EmptyString.
Proof.
  unfold Bench.load_mapping. cbv zeta.
  set (rest := match getline file "010" with Some (_, file') => file' | None => file end).
  clearbody rest.
  assert (Hinv : forall fuel file (m r : gmap string string),
            (forall k v, m !! k = Some v -> v <> EmptyString) ->
            Bench.mapping_loop fuel file m = Done r ->
            forall k v, r !! k = Some v -> v <> EmptyString).
  { clear. induction fuel as [|fuel IH]; intros file m r Hm.
    - cbn [Bench.mapping_loop]. destruct (getline file "010") as [[line file']|]; [done|].
      by intros [= <-].
    - rewrite mapping_loop_step. destruct (getline file LF) as [[line file']|];
        [|by intros [= <-]].
      apply IH. intros k v. unfold add_row.
      destruct (Bench.csv_field line) as [wfo_id ss1].
      destruct (Bench.csv_field ss1) as [f2 ss2].
      destruct (Bench.csv_field ss2) as [f3 ss3].
      destruct (Bench.csv_field ss3) as [f4 ss4].
      destruct (Bench.csv_field ss4) as [f5 ss5].
      destruct (Bench.csv_field ss5) as [tree_tip ss6].
      destruct (String.eqb_spec tree_tip EmptyString) as [->|Hne]; simpl; [apply Hm|].
      destruct (decide (k = wfo_id)) as [->|Hk].
      + rewrite lookup_insert_eq. by intros [= <-].
      + rewrite lookup_insert_ne by done. apply Hm. }
  intros Hload. eapply Hinv; [|exact Hload]. intros k v. by rewrite lookup_empty.
Qed.

(** X11. A complete row of six plain fields appended to a mapping file maps
    its first field to its sixth, replacing an earlier entry for that id,
    unless the sixth field is empty, in which case the table is left as it
    was (an earlier entry for the id is kept). *)
Theorem mapping_row_appended (fuel : nat) (body : string) (wfo_to_tip : gmap string string)
    (a b c d e f : string) :
  plain a -> plain b -> plain c -> plain d -> plain e -> plain f ->
  Bench.load_mapping fuel (body +:+ String LF EmptyString) = Done wfo_to_tip ->
  Bench.load_mapping (S fuel)
    (body +:+ String LF EmptyString +:+
     (a +:+ "," +:+ b +:+ "," +:+ c +:+ "," +:+ d +:+ "," +:+ e +:+ "," +:+ f) +:+
     String LF EmptyString) =
  Done (if String.eqb f EmptyString then wfo_to_tip else <[a := f]> wfo_to_tip).
Proof.
  intros [Ha Ha'] [Hb Hb'] [Hc Hc'] [Hd Hd'] [He He'] [Hf Hf'] Hload.
  rewrite <- (add_row_six a b c d e f) by done.
  apply load_mapping_append; [|done].
  assert (Happ : forall s t, has_char LF s = false -> has_char LF t = false ->
                   has_char LF (s +:+ t) = false).
  { intros s t Hs Ht. induction s as [|x s IH]; [done|]. rewrite append_cons.
    simpl in *. apply orb_false_iff in Hs as [-> Hs]. by apply IH. }
  repeat (apply Happ; [done|]); done.
Qed.

(** X13. The first line of the file is skipped whatever it holds: two files
    that differ in their first line only give the same table. *)
Theorem mapping_header_is_skipped (fuel : nat) (header header' rest : string) :
  has_char LF header = false -> has_char LF header' = false ->
  Bench.load_mapping fuel (header +:+ String LF rest) =
  Bench.load_mapping fuel (header' +:+ String LF rest).
Proof. intros Hh Hh'. by rewrite !load_mapping_header. Qed.

(** X12. A complete row with fewer than six fields (at most four commas)
    appended to a mapping file leaves the table as it was. *)
Theorem mapping_short_row_ignored (fuel : nat) (body row : string)
    (wfo_to_tip : gmap string string) :
  has_char LF row = false -> (count_char "," row <= 4)%nat ->
  Bench.load_mapping fuel (body +:+ String LF EmptyString) = Done wfo_to_tip ->
  Bench.load_mapping (S fuel)
    (body +:+ String LF EmptyString +:+ row +:+ String LF EmptyString) =
  Done wfo_to_tip.
Proof.
  intros Hrow Hshort Hload.
  rewrite (load_mapping_append fuel body wfo_to_tip row Hrow Hload).
  by rewrite add_row_short.
Qed.

Lemma mapping_has_no_empty_tip_witness :
  Bench.load_mapping 3
    ("id,name,infra,binomial,label,tip" +:+ String LF
       ("w1,n,f,b,l,Tip_one" +:+ String LF ("w2,n,f,b,l," +:+ String LF EmptyString))) =
    Done {[ "w1" := "Tip_one" ]} /\
  "Tip_one" <> EmptyString.
Proof.
  assert (Hload : Bench.load_mapping 3
    ("id,name,infra,binomial,label,tip" +:+ String LF
       ("w1,n,f,b,l,Tip_one" +:+ String LF ("w2,n,f,b,l," +:+ String LF EmptyString))) =
    Done {[ "w1" := "Tip_one" ]}) by (vm_compute; reflexivity).
  split; [exact Hload|].
  apply (mapping_has_no_empty_tip _ _ _ "w1" "Tip_one" Hload). vm_compute. reflexivity.
Defined.

Lemma mapping_row_appended_witness :
  Bench.load_mapping 2
    ("header" +:+ String LF EmptyString +:+
     ("w1" +:+ "," +:+ "n" +:+ "," +:+ "f" +:+ "," +:+ "b" +:+ "," +:+ "l" +:+ "," +:+
      "Tip_one") +:+ String LF EmptyString) =
  Done (<["w1" := "Tip_one"]> ∅).
Proof.
  apply (mapping_row_appended 1 "header" ∅ "w1" "n" "f" "b" "l" "Tip_one");
    [split; reflexivity .. | vm_compute; reflexivity].
Defined.

Lemma mapping_short_row_ignored_witness :
  Bench.load_mapping 2
    ("header" +:+ String LF EmptyString +:+ "w1,n,f,b,Tip_one" +:+ String LF EmptyString) =
  Done ∅.
Proof.
  apply (mapping_short_row_ignored 1 "header" "w1,n,f,b,Tip_one" ∅).
  - reflexivity.
  - simpl. lia.
  - vm_compute. reflexivity.
Defined.

Lemma mapping_header_is_skipped_witness :
  Bench.load_mapping 2 ("w0,n,f,b,l,Tip_zero" +:+ String LF "w1,n,f,b,l,Tip_one") =
  Done {[ "w1" := "Tip_one" ]}.
Proof.
  rewrite (mapping_header_is_skipped 2 "w0,n,f,b,l,Tip_zero" "header" "w1,n,f,b,l,Tip_one");
    [vm_compute; reflexivity | reflexivity | reflexivity].
Defined.

(** ** The label table of the 1000-guild benchmark *)

Lemma label_table_prefix tree n :
  (n <= length (ct_nodes tree))%nat ->
  forall label i,
    foldl (fun (m : gmap string CT_NODE_T) j =>
             match leaf_label tree j with
             | Some l => <[l := j]> m
             | None => m
             end) ∅ (map N.of_nat (seq 0 n)) !! label = Some i <->
    (N.to_nat i < n)%nat /\ leaf_label tree i = Some label /\
    forall j, (N.to_nat j < n)%nat -> leaf_label tree j = Some label -> j <= i.
Proof.
  induction n as [|n IH]; intros Hn label i.
  - simpl. rewrite lookup_empty. split; [done | lia].
  - rewrite seq_S, map_app, foldl_app. cbn [map foldl Nat.add].
    specialize (IH ltac:(lia) label i).
    destruct (leaf_label tree (N.of_nat n)) as [l|] eqn:Hl.
    + destruct (decide (l = label)) as [->|Hne].
      * rewrite lookup_insert_eq. split.
        -- intros [= <-]. rewrite Nat2N.id. split; [lia|]. split; [done|]. intros j Hj _. lia.
        -- intros (Hi & Hlab & Hmax). f_equal.
           specialize (Hmax (N.of_nat n)). rewrite Nat2N.id in Hmax.
           specialize (Hmax ltac:(lia) Hl). lia.
      * rewrite lookup_insert_ne by done. rewrite IH. split.
        -- intros (Hi & Hlab & Hmax). split; [lia|]. split; [done|]. intros j Hj Hjl.
           destruct (decide (N.to_nat j = n)) as [Hjn|Hjn]; [|apply Hmax; [lia | done]].
           replace j with (N.of_nat n) in Hjl by lia. congruence.
        -- intros (Hi & Hlab & Hmax). split; [|split; [done|]].
           ++ destruct (decide (N.to_nat i = n)) as [Hin|Hin]; [|lia].
              replace i with (N.of_nat n) in Hlab by lia. congruence.
           ++ intros j Hj. apply Hmax. lia.
    + rewrite IH. split.
      * intros (Hi & Hlab & Hmax). split; [lia|]. split; [done|]. intros j Hj Hjl.
        destruct (decide (N.to_nat j = n)) as [Hjn|Hjn]; [|apply Hmax; [lia | done]].
        replace j with (N.of_nat n) in Hjl by lia. congruence.
      * intros (Hi & Hlab & Hmax). split; [|split; [done|]].
        -- destruct (decide (N.to_nat i = n)) as [Hin|Hin]; [|lia].
           replace i with (N.of_nat n) in Hlab by lia. congruence.
        -- intros j Hj. apply Hmax. lia.
Qed.

Lemma label_to_node_fold tree :
  Guilds1000.label_to_node tree =
  Done (foldl (fun (m : gmap string CT_NODE_T) j =>
                 match leaf_label tree j with
                 | Some l => <[l := j]> m
                 | None => m
                 end) ∅ (map N.of_nat (seq 0 (length (ct_nodes tree))))).
Proof.
  unfold Guilds1000.label_to_node. cbv zeta.
  rewrite leaves_loop_fold by (unfold get_num_nodes; lia).
  unfold get_num_nodes. by rewrite Nat2N.id.
Qed.

Lemma label_to_node_lookup tree m label i :
  Guilds1000.label_to_node tree = Done m ->
  (m !! label = Some i <->
   labelled tree label i /\ forall j, labelled tree label j -> j <= i).
Proof.
  rewrite label_to_node_fold. intros [= <-].
  rewrite (label_table_prefix tree (length (ct_nodes tree))) by done.
  unfold labelled. rewrite <- leaf_label_Some. split.
  - intros (_ & Hlab & Hmax). split; [done|]. intros j Hj. apply Hmax.
    + destruct Hj as [Hj _]. by apply is_leaf_in_range.
    + by apply leaf_label_Some.
  - intros (Hlab & Hmax). split; [|split; [done|]].
    + apply leaf_label_Some in Hlab as [Hi _]. by apply is_leaf_in_range.
    + intros j _ Hj. apply Hmax. by apply leaf_label_Some.
Qed.

(** X14. The label table of the 1000-guild benchmark maps a label to the
    leaf with the greatest id that carries it, and holds nothing else: when
    several leaves share a label, only the last one can be found. *)
Theorem label_to_node_keeps_last (tree : compact_tree) :
  exists label_to_node,
    Guilds1000.label_to_node tree = Done label_to_node /\
    forall label i,
      label_to_node !! label = Some i <->
      labelled tree label i /\ forall j, labelled tree label j -> j <= i.
Proof.
  eexists. split; [apply label_to_node_fold|].
  intros label i. apply label_to_node_lookup, label_to_node_fold.
Qed.

(** ** Parsing a guild line *)

Lemma prefix_cons a p c s :
  String.prefix (String a p) (String c s) =
  if Ascii.eqb a c then String.prefix p s else false.
Proof.
  change (String.prefix (String a p) (String c s))
    with (match ascii_dec a c with left _ => String.prefix p s | right _ => false end).
  destruct (ascii_dec a c) as [->|Hne].
  - by rewrite Ascii.eqb_refl.
  - by destruct (Ascii.eqb_spec a c).
Qed.

Lemma string_find_cons c s :
  (c =? ";")%char = false ->
  string_find ";;" (String c s) = S <$> string_find ";;" s.
Proof.
  intros Hc. cbn [string_find]. rewrite prefix_cons.
  rewrite Ascii.eqb_sym, Hc. done.
Qed.

Lemma string_find_none s : has_char ";" s = false -> string_find ";;" s = None.
Proof.
  induction s as [|c s IH]; [done|]. cbn [has_char].
  intros [Hc Hs]%orb_false_iff. by rewrite string_find_cons, (IH Hs).
Qed.

Lemma string_find_here name rest :
  has_char ";" name = false ->
  string_find ";;" (name +:+ ";;" +:+ rest) = Some (String.length name).
Proof.
  induction name as [|c name IH]; cbn [has_char].
  - intros _. by destruct rest.
  - intros [Hc Hs]%orb_false_iff. rewrite append_cons, string_find_cons by done.
    by rewrite (IH Hs).
Qed.

Lemma substr_to_append name t : substr_to (name +:+ t) (String.length name) = name.
Proof.
  induction name as [|c name IH]; [by destruct t|]. rewrite append_cons. simpl. by f_equal.
Qed.

Lemma substr_from_append name t k :
  substr_from (name +:+ t) (String.length name + k) = substr_from t k.
Proof. induction name as [|c name IH]; [done|]. rewrite append_cons. by simpl. Qed.

Lemma substr_from_length s k :
  String.length (substr_from s k) = (String.length s - k)%nat.
Proof.
  revert s. induction k as [|k IH]; intros s; [destruct s; simpl; lia|].
  destruct s as [|c s]; [done|]. simpl. apply IH.
Qed.

Lemma string_find_bound s pos :
  string_find ";;" s = Some pos -> (pos + 2 <= String.length s)%nat.
Proof.
  revert pos. induction s as [|c s IH]; intros pos; [done|].
  cbn [string_find]. destruct (String.prefix ";;" (String c s)) eqn:Hp.
  - intros [= <-]. destruct s as [|c' s]; [|simpl; lia].
    rewrite prefix_cons in Hp. by destruct (Ascii.eqb ";" c).
  - destruct (string_find ";;" s) as [p|]; [|done]. intros [= <-].
    specialize (IH p eq_refl). simpl. lia.
Qed.

Lemma push_known_app m species (acc : list CT_NODE_T) :
  Guilds1000.push_known m species acc = acc ++ Guilds1000.push_known m species [].
Proof.
  unfold Guilds1000.push_known. destruct (m !! species); [done | by rewrite app_nil_r].
Qed.

Lemma species_loop_acc fuel m : forall s (acc : list CT_NODE_T),
  Guilds1000.species_loop fuel m s acc =
  ('(l, r) ← Guilds1000.species_loop fuel m s []; Done (acc ++ l, r)).
Proof.
  induction fuel as [|fuel IH]; intros s acc; cbn [Guilds1000.species_loop].
  - destruct (string_find ";;" s); [done|]. simpl. by rewrite app_nil_r.
  - destruct (string_find ";;" s) as [pos|]; [|simpl; by rewrite app_nil_r].
    cbv zeta. rewrite IH.
    rewrite (IH _ (Guilds1000.push_known m (substr_to s pos) [])).
    destruct (Guilds1000.species_loop fuel m (substr_from s (pos + 2)) []) as [[l r]| |];
      simpl; [|done|done].
    by rewrite (push_known_app m _ acc), app_assoc.
Qed.

Lemma species_loop_returns fuel m : forall s (acc : list CT_NODE_T),
  (String.length s <= fuel)%nat ->
  exists l r, Guilds1000.species_loop fuel m s acc = Done (l, r).
Proof.
  induction fuel as [|fuel IH]; intros s acc Hlen; cbn [Guilds1000.species_loop].
  - destruct (string_find ";;" s) as [pos|] eqn:Hfind; [|by eexists _, _].
    apply string_find_bound in Hfind. lia.
  - destruct (string_find ";;" s) as [pos|] eqn:Hfind; [|by eexists _, _].
    apply string_find_bound in Hfind. cbv zeta. apply IH.
    rewrite substr_from_length. lia.
Qed.

Lemma push_known_values m species (acc : list CT_NODE_T) (P : CT_NODE_T -> Prop) :
  (forall sp i, m !! sp = Some i -> P i) ->
  Forall P acc -> Forall P (Guilds1000.push_known m species acc).
Proof.
  intros Hm Hacc. unfold Guilds1000.push_known.
  destruct (m !! species) as [i|] eqn:Hi; [|done].
  apply Forall_app. split; [done|]. constructor; [by eapply Hm | constructor].
Qed.

Lemma species_loop_values fuel m (P : CT_NODE_T -> Prop) :
  (forall sp i, m !! sp = Some i -> P i) ->
  forall s acc l r, Forall P acc ->
    Guilds1000.species_loop fuel m s acc = Done (l, r) -> Forall P l.
Proof.
  intros Hm. induction fuel as [|fuel IH]; intros s acc l r Hacc;
    cbn [Guilds1000.species_loop].
  - destruct (string_find ";;" s); [done|]. by intros [= <- <-].
  - destruct (string_find ";;" s) as [pos|]; [|by intros [= <- <-]].
    cbv zeta. apply IH. by apply push_known_values.
Qed.

Lemma parse_single_name fuel (label_to_node : gmap string CT_NODE_T) name :
  has_char ";" name = false ->
  Guilds1000.parse_species fuel label_to_node name =
    Done (if String.eqb name EmptyString then []
          else Guilds1000.push_known label_to_node name []).
Proof.
  intros Hname. unfold Guilds1000.parse_species. cbv zeta.
  assert (Guilds1000.species_loop fuel label_to_node name [] = Done ([], name)) as ->.
  { destruct fuel; cbn [Guilds1000.species_loop]; by rewrite string_find_none. }
  simpl. by destruct (String.eqb name EmptyString).
Qed.

Lemma parse_name_then_rest fuel (label_to_node : gmap string CT_NODE_T) name rest :
  has_char ";" name = false ->
  Guilds1000.parse_species (S fuel) label_to_node (name +:+ ";;" +:+ rest) =
    (leaf_nodes ← Guilds1000.parse_species fuel label_to_node rest;
     Done (Guilds1000.push_known label_to_node name [] ++ leaf_nodes)).
Proof.
  intros Hname.
  unfold Guilds1000.parse_species. cbv zeta. cbn [Guilds1000.species_loop].
  rewrite string_find_here by done. cbv zeta.
  rewrite substr_to_append, substr_from_append.
  replace (substr_from (";;" +:+ rest) 2) with rest by (by destruct rest).
  rewrite species_loop_acc.
  destruct (Guilds1000.species_loop fuel label_to_node rest []) as [[l r]| |];
    simpl; [|done|done].
  f_equal. destruct (negb (String.eqb r EmptyString)); [|done].
  by rewrite (push_known_app _ _ l), (push_known_app _ _ (_ ++ l)), app_assoc.
Qed.

(** X15. Parsing a guild line is compositional: a name without [;] followed
    by the delimiter [;;] contributes its leaf, if the table knows the name,
    in front of the leaves of the rest of the line; a line that is a single
    name gives that leaf, and the empty line gives no leaf.  Names keep their
    order, and a name that is repeated gives its leaf again. *)
Theorem parse_species_splits (fuel : nat) (label_to_node : gmap string CT_NODE_T)
    (name rest : string) :
  has_char ";" name = false ->
  Guilds1000.parse_species fuel label_to_node name =
    Done (if String.eqb name EmptyString then []
          else Guilds1000.push_known label_to_node name []) /\
  Guilds1000.parse_species (S fuel) label_to_node (name +:+ ";;" +:+ rest) =
    (leaf_nodes ← Guilds1000.parse_species fuel label_to_node rest;
     Done (Guilds1000.push_known label_to_node name [] ++ leaf_nodes)).
Proof.
  intros Hname. split; [by apply parse_single_name | by apply parse_name_then_rest].
Qed.

Lemma parse_species_splits_witness :
  Guilds1000.parse_species 4 {[ "X" := 2; "B" := 4 ]} "B;;X;;Q;;B" = Done [4; 2; 4].
Proof.
  change "B;;X;;Q;;B" with ("B" +:+ ";;" +:+ "X;;Q;;B").
  rewrite (proj2 (parse_species_splits 3 {[ "X" := 2; "B" := 4 ]} "B" "X;;Q;;B" eq_refl)).
  vm_compute. reflexivity.
Defined.

(** X16. With an iteration budget of the length of the line, parsing a guild
    line against the label table of a tree returns, and every id it returns
    is a leaf of that tree. *)
Theorem parse_species_yields_leaves (fuel : nat) (tree : compact_tree)
    (species_str : string) :
  (String.length species_str <= fuel)%nat ->
  exists label_to_node leaf_nodes,
    Guilds1000.label_to_node tree = Done label_to_node /\
    Guilds1000.parse_species fuel label_to_node species_str = Done leaf_nodes /\
    forall i, i ∈ leaf_nodes -> is_leaf tree i = true.
Proof.
  intros Hfuel. eexists. 
  destruct (species_loop_returns fuel
              (foldl (fun (m : gmap string CT_NODE_T) j =>
                 match leaf_label tree j with
                 | Some l => <[l := j]> m
                 | None => m
                 end) ∅ (map N.of_nat (seq 0 (length (ct_nodes tree)))))
              species_str [] Hfuel) as (l & r & Hloop).
  eexists. split; [apply label_to_node_fold|].
  unfold Guilds1000.parse_species. cbv zeta. rewrite Hloop. simpl. split; [done|].
  assert (Hleaf : forall sp i,
            foldl (fun (m : gmap string CT_NODE_T) j =>
                 match leaf_label tree j with
                 | Some l => <[l := j]> m
                 | None => m
                 end) ∅ (map N.of_nat (seq 0 (length (ct_nodes tree)))) !! sp = Some i ->
            is_leaf tree i = true).
  { intros sp i Hi.
    apply (label_to_node_lookup tree _ sp i (label_to_node_fold tree)) in Hi.
    by destruct Hi as [[Hl _] _]. }
  apply Forall_forall.
  assert (Forall (fun i => is_leaf tree i = true) l) as Hl.
  { eapply species_loop_values; [exact Hleaf | constructor | exact Hloop]. }
  destruct (negb (String.eqb r EmptyString)); [|done].
  by apply push_known_values.
Qed.

Lemma parse_species_yields_leaves_witness :
  exists label_to_node leaf_nodes,
    Guilds1000.label_to_node Scenario.tree = Done label_to_node /\
    Guilds1000.parse_species 10 label_to_node "X;;Q;;B;;X" = Done leaf_nodes /\
    forall i, i ∈ leaf_nodes -> is_leaf Scenario.tree i = true.
Proof. apply (parse_species_yields_leaves 10 Scenario.tree "X;;Q;;B;;X"). simpl. lia. Defined.

(** ** The programs compared *)

(** X17. The PD routines of the two other benchmarks, the hash-set version of
    benchmark_faiths_pd_compacttree.cpp and the byte-array version of
    benchmark_compacttree_1000_guilds.cpp, return on every tree and every
    leaf list what [calculate_faiths_pd_optimized] returns: the same double,
    or the same failure. *)
Theorem benchmarks_compute_the_same_pd (fuel : nat) (tree : compact_tree)
    (leaf_nodes : list CT_NODE_T) :
  Bench.calculate_faiths_pd fuel tree leaf_nodes =
    calculate_faiths_pd_optimized fuel tree leaf_nodes /\
  Guilds1000.calculate_faiths_pd_optimized fuel tree leaf_nodes =
    calculate_faiths_pd_optimized fuel tree leaf_nodes.
Proof.
  split; [apply pd_bench_optimized|].
  change Guilds1000.calculate_faiths_pd_optimized
    with CalcOnly.calculate_faiths_pd_vectoruint8.
  apply pd_uint8_optimized.
Qed.

(** X18. The conversion of a stored [float] edge length to the [double] that
    is added to [total_pd] is exact: for every finite, non-negative binary32
    pattern the double has the value of the float, and it is finite and
    non-negative. *)
Theorem widening_is_exact (w : Z) :
  (0 <= w < 2139095040)%Z ->
  Binary64.val (F32.to_double w) = F32.units w /\
  fle 0%float (F32.to_double w) /\
  (F32.to_double w <? infinity)%float = true.
Proof.
  intros Hw. pose proof (val_to_double w Hw) as Hval.
  pose proof (units_bounds w Hw) as [Hlo Hhi].
  split; [done|]. split.
  - apply fle_zero. by rewrite Hval.
  - apply finite_below_infinity. rewrite Hval. split; [done|].
    eapply Z.lt_le_trans; [exact Hhi|]. unfold Binary64.INF. by apply Z.pow_le_mono_r.
Qed.

Lemma widening_is_exact_witness :
  Binary64.val (F32.to_double Scenario.f32_3) = (3 * 2 ^ 1074)%Z /\
  fle 0%float (F32.to_double Scenario.f32_3) /\
  (F32.to_double Scenario.f32_3 <? infinity)%float = true.
Proof.
  destruct (widening_is_exact Scenario.f32_3) as (Hval & Hpos & Hfin);
    [split; [discriminate | reflexivity]|].
  split; [|done]. rewrite Hval. vm_compute. reflexivity.
Defined.

(** ** The guild line and the command line name the same leaves *)

Lemma parse_guild_line (label_to_node : gmap string CT_NODE_T) names :
  Forall species_name names ->
  Guilds1000.parse_species (length names) label_to_node (guild_line names) =
  Done (concat (map (fun name => Guilds1000.push_known label_to_node name []) names)).
Proof.
  induction 1 as [|name names [Hne Hname] Hnames IH]; [done|].
  destruct names as [|name' names].
  - cbn [guild_line map concat length]. rewrite app_nil_r.
    rewrite (parse_single_name 1 label_to_node name Hname).
    by destruct (String.eqb_spec name EmptyString).
  - change (guild_line (name :: name' :: names))
      with (name +:+ ";;" +:+ guild_line (name' :: names)).
    change (length (name :: name' :: names)) with (S (length (name' :: names))).
    rewrite (parse_name_then_rest (length (name' :: names)) label_to_node name
               (guild_line (name' :: names)) Hname).
    by rewrite IH.
Qed.

Lemma elem_of_pushed (label_to_node : gmap string CT_NODE_T) names i :
  i ∈ concat (map (fun name => Guilds1000.push_known label_to_node name []) names) <->
  exists name, name ∈ names /\ label_to_node !! name = Some i.
Proof.
  rewrite elem_of_concat. split.
  - intros (l & Hi & (name & -> & Hname)%list_elem_of_fmap).
    exists name. split; [done|]. unfold Guilds1000.push_known in Hi.
    destruct (label_to_node !! name) as [n|]; [|by apply elem_of_nil in Hi].
    by apply list_elem_of_singleton in Hi as ->.
  - intros (name & Hname & Hi). exists [i]. split; [by left|].
    apply list_elem_of_fmap. exists name. split; [|done].
    unfold Guilds1000.push_known. by rewrite Hi.
Qed.

(** X19. A guild line of the 1000-guild benchmark and the same names given to
    [find_leaf_nodes] name the same leaves: every leaf parsed from the line
    is among the leaves that [find_leaf_nodes] returns for the names, and
    when no two leaves of the tree share a label the two leaf sets are equal
    (the order and the repetitions may differ). *)
Theorem guild_line_names_the_same_leaves (tree : compact_tree) (names : list string) :
  Forall species_name names ->
  exists label_to_node parsed found,
    Guilds1000.label_to_node tree = Done label_to_node /\
    Guilds1000.parse_species (length names) label_to_node (guild_line names) = Done parsed /\
    find_leaf_nodes tree names = Done found /\
    (forall i, i ∈ parsed -> i ∈ found) /\
    ((forall label i j, labelled tree label i -> labelled tree label j -> i = j) ->
     forall i, i ∈ found -> i ∈ parsed).
Proof.
  intros Hnames. eexists _, _, _.
  split; [apply label_to_node_fold|].
  split; [by apply parse_guild_line|].
  split; [apply find_leaf_nodes_filter|].
  pose proof (fun label i =>
                label_to_node_lookup tree _ label i (label_to_node_fold tree)) as Hlookup.
  split.
  - intros i (name & Hname & Hi)%elem_of_pushed.
    apply Hlookup in Hi as [[Hleaf Hlabel] _].
    apply elem_of_find_leaf_nodes. split; [done|]. by exists name.
  - intros Hdistinct i (Hleaf & label & Hlabel & Hin)%elem_of_find_leaf_nodes.
    apply elem_of_pushed. exists label. split; [done|].
    apply Hlookup. split; [done|]. intros j Hj.
    rewrite (Hdistinct label j i Hj); [lia | done].
Qed.

Lemma guild_line_names_the_same_leaves_witness :
  exists label_to_node parsed found,
    Guilds1000.label_to_node Scenario.tree = Done label_to_node /\
    Guilds1000.parse_species 3 label_to_node "B;;Q;;X" = Done parsed /\
    find_leaf_nodes Scenario.tree ["B"; "Q"; "X"] = Done found /\
    (forall i, i ∈ parsed -> i ∈ found) /\
    ((forall label i j, labelled Scenario.tree label i -> labelled Scenario.tree label j ->
        i = j) ->
     forall i, i ∈ found -> i ∈ parsed).
Proof.
  apply (guild_line_names_the_same_leaves Scenario.tree ["B"; "Q"; "X"]).
  repeat (constructor; [split; [discriminate | reflexivity]|]). constructor.
Defined.
